(** * Mr. Bean 3D game: the world-simulation core of [src/main.js]

  A shallow embedding of the simulation logic of the [MrBeanGame] class:
  player movement and collision resolution, the tethered wander of the
  main characters, the challenge (quest) state machine, the free-text
  dialogue responses and the interaction freeze of characters.

  JavaScript numbers are modelled as real numbers; rounding of IEEE
  doubles is not modelled.  The few members of three.js the game calls
  on vectors, boxes and scene objects are written out in [Three] from
  the documented behaviour of that library. *)

From Stdlib Require Import Reals Lra Lia List String Ascii Bool Arith NArith.
Import ListNotations.

Local Open Scope R_scope.

(** Comparison of two numbers as a JavaScript boolean. *)
Definition ltb (a b : R) : bool := if Rlt_dec a b then true else false.
Definition leb (a b : R) : bool := if Rle_dec a b then true else false.

(** A write through a reference held as an index into a list:
    [l[i] = f(l[i])].  Nothing happens when [i] is out of range; the game
    never holds such a reference. *)
Fixpoint updateAt {A : Type} (i : nat) (f : A -> A) (l : list A) : list A :=
  match l, i with
  | [], _ => []
  | a :: rest, O => f a :: rest
  | a :: rest, S j => a :: updateAt j f rest
  end.

(** ** The slice of three.js the game relies on *)
Module Three.

Record Vector3 := vec3 { x : R; y : R; z : R }.

(** [Vector3.add] and [Vector3.sub]; [clone] and [copy] are the identity
    on values. *)
Definition add (u v : Vector3) : Vector3 :=
  vec3 (u.(x) + v.(x)) (u.(y) + v.(y)) (u.(z) + v.(z)).

Definition sub (u v : Vector3) : Vector3 :=
  vec3 (u.(x) - v.(x)) (u.(y) - v.(y)) (u.(z) - v.(z)).

Definition multiplyScalar (u : Vector3) (k : R) : Vector3 :=
  vec3 (u.(x) * k) (u.(y) * k) (u.(z) * k).

(** [Vector3.distanceTo]: the Euclidean distance. *)
Definition distanceToSquared (u v : Vector3) : R :=
  let dx := u.(x) - v.(x) in
  let dy := u.(y) - v.(y) in
  let dz := u.(z) - v.(z) in
  dx * dx + dy * dy + dz * dz.

Definition distanceTo (u v : Vector3) : R := sqrt (distanceToSquared u v).

(** [v.applyAxisAngle(new Vector3(0, 1, 0), angle)]: the rotation of [v]
    about the vertical axis. *)
Definition applyAxisAngleY (v : Vector3) (angle : R) : Vector3 :=
  vec3 (v.(x) * cos angle + v.(z) * sin angle)
       v.(y)
       (v.(z) * cos angle - v.(x) * sin angle).

(** [Box3]: an axis-aligned box given by two corners. *)
Record Box3 := box3 { min : Vector3; max : Vector3 }.

(** [Box3.translate(offset)] moves both corners by [offset]. *)
Definition translate (b : Box3) (offset : Vector3) : Box3 :=
  box3 (add b.(min) offset) (add b.(max) offset).

(** [Box3.setFromCenterAndSize(center, size)]. *)
Definition setFromCenterAndSize (center size : Vector3) : Box3 :=
  let halfSize := multiplyScalar size (1 / 2) in
  box3 (sub center halfSize) (add center halfSize).

(** [this.intersectsBox(box)]: six splitting planes rule the
    intersection out. *)
Definition intersectsBox (this box : Box3) : bool :=
  if ltb box.(max).(x) this.(min).(x) || ltb this.(max).(x) box.(min).(x)
     || ltb box.(max).(y) this.(min).(y) || ltb this.(max).(y) box.(min).(y)
     || ltb box.(max).(z) this.(min).(z) || ltb this.(max).(z) box.(min).(z)
  then false else true.

(** A node of the scene graph with the properties the game attaches to
    it: [position] is relative to the parent node, [collider] is the
    optional [Box3] stored on the node, the flags are the properties of
    the same name ([false] when the property is absent). *)
#[warnings="-register-all"]
Inductive Object3D : Type := mkObject3D {
  position : Vector3;
  collider : option Box3;
  isStore : bool;
  isBench : bool;
  isDepartmentStore : bool;
  children : list Object3D
}.

(** [Object3D.traverse]: the node itself, then every descendant. *)
Fixpoint traverse (o : Object3D) : list Object3D :=
  match o with
  | mkObject3D _ _ _ _ _ ch => o :: flat_map traverse ch
  end.

(** The same walk, pairing every node with its position in world space.
    The groups of this game that carry colliders are neither rotated nor
    scaled, so the world position of a node is the sum of the positions
    on the path from the root. *)
Fixpoint traverseWorld (parent : Vector3) (o : Object3D)
  : list (Vector3 * Object3D) :=
  match o with
  | mkObject3D p _ _ _ _ ch =>
      (add parent p, o) :: flat_map (traverseWorld (add parent p)) ch
  end.

Definition origin : Vector3 := vec3 0 0 0.

(** A plain [THREE.Group] placed at [p] holding [ch]. *)
Definition group (p : Vector3) (ch : list Object3D) : Object3D :=
  mkObject3D p None false false false ch.

End Three.
Import Three.

(** ** Player movement and collision ([updatePlayer]) *)
Module Movement.

Record Keys := mkKeys { w : bool; a : bool; s : bool; d : bool }.

Record Player := mkPlayer { position : Vector3; rotation_y : R }.

(** The static world: [this.stores] and [this.scene]. *)
Record World := mkWorld { stores : list Object3D; scene : Object3D }.

Definition moveSpeed : R := 25 / 100.
Definition turnSpeed : R := 45 / 1000.
Definition playerSize : Vector3 := vec3 (4 / 10) (18 / 10) (4 / 10).
Definition maxDistance : R := 95.

(** The box a collision query builds for a node: a clone of its collider
    translated by the node's [position]. *)
Definition queryBox (o : Object3D) : option Box3 :=
  match Three.collider o with
  | Some c => Some (translate c (Three.position o))
  | None => None
  end.

(** First loop: [this.stores.forEach]. *)
Definition checkStores (playerBox : Box3) (canMove : bool)
    (sts : list Object3D) : bool :=
  fold_left
    (fun can store =>
       match Three.collider store with
       | Some c =>
           let storeBox := translate c (Three.position store) in
           if intersectsBox storeBox playerBox then false else can
       | None => can
       end)
    sts canMove.

(** Second loop: [this.scene.traverse]. *)
Definition checkScene (playerBox : Box3) (canMove : bool)
    (sc : Object3D) : bool :=
  fold_left
    (fun can object =>
       match Three.collider object with
       | Some c =>
           if negb (isStore object) then
             let objBox := translate c (Three.position object) in
             if intersectsBox objBox playerBox then false else can
           else can
       | None => can
       end)
    (traverse sc) canMove.

Definition clamp (v : R) : R := Rmax (- maxDistance) (Rmin maxDistance v).

Definition rotate (k : Keys) (r : R) : R :=
  let r1 := if k.(a) then r + turnSpeed else r in
  if k.(d) then r1 - turnSpeed else r1.

Definition velocity (k : Keys) (r : R) : Vector3 :=
  let vz0 := if k.(w) then moveSpeed else 0 in
  let vz := if k.(s) then - moveSpeed else vz0 in
  applyAxisAngleY (vec3 0 0 vz) r.

Definition nextPosition (k : Keys) (p : Player) : Vector3 :=
  add p.(position) (velocity k (rotate k p.(rotation_y))).

Definition playerBox (k : Keys) (p : Player) : Box3 :=
  setFromCenterAndSize (nextPosition k p) playerSize.

Definition canMove (wd : World) (k : Keys) (p : Player) : bool :=
  checkScene (playerBox k p)
    (checkStores (playerBox k p) true wd.(stores)) wd.(scene).

(** One call of [updatePlayer] (camera and footstep sound left out). *)
Definition updatePlayer (wd : World) (k : Keys) (p : Player) : Player :=
  let r := rotate k p.(rotation_y) in
  let pos := if canMove wd k p then nextPosition k p else p.(position) in
  mkPlayer (vec3 (clamp pos.(x)) pos.(y) (clamp pos.(z))) r.

(** [setupPlayer]: the player starts at Mr. Bean's house. *)
Definition setupPlayer : Player := mkPlayer (vec3 (-38) 0 (-28)) 0.

(** The player after a run of frames, one [Keys] snapshot per frame. *)
Definition run (wd : World) (frames : list Keys) : Player :=
  fold_left (fun p k => updatePlayer wd k p) frames setupPlayer.

Definition inBounds (v : Vector3) : Prop :=
  - maxDistance <= v.(x) <= maxDistance /\
  - maxDistance <= v.(z) <= maxDistance.

(** The colliders a query consults: the stores that carry one, and the
    nodes of the scene that carry one and are not stores. *)
Definition registered (wd : World) (o : Object3D) : Prop :=
  (In o wd.(stores) \/ (In o (traverse wd.(scene)) /\ isStore o = false)).

End Movement.

(** ** The collider-bearing part of the static world ([createCity]) *)
Module City.

Definition setPosition (o : Object3D) (p : Vector3) : Object3D :=
  mkObject3D p (collider o) (isStore o) (isBench o) (isDepartmentStore o)
    (children o).

(** [createBritishHouse]: the group carries the collision box of the
    house; its meshes carry none and are left out. *)
Definition createBritishHouse (isBeanHouse : bool) : Object3D :=
  mkObject3D origin
    (Some (box3 (vec3 (-3) 0 (-3)) (vec3 3 8 3)))
    false false false [].

(** [createArbourRoad]: Mr. Bean's house, the Bruiser house next door and
    the houses of the loop ([i] from -2 to 2, 0 and 1 skipped). *)
Definition createArbourRoad : Object3D :=
  group origin
    (setPosition (createBritishHouse true) (vec3 0 0 0)
     :: setPosition (createBritishHouse false) (vec3 8 0 0)
     :: map (fun i => setPosition (createBritishHouse false) (vec3 (i * 8) 0 0))
          [-2; -1; 2]).

(** [createTree]: the box around the trunk. *)
Definition treeCollider : Box3 :=
  box3 (vec3 (- (4 / 10)) 0 (- (4 / 10))) (vec3 (4 / 10) 3 (4 / 10)).

Definition createTree : Object3D :=
  mkObject3D origin (Some treeCollider) false false false [].

Definition benchPositions : list Vector3 :=
  [ vec3 (-15) 0 (-15); vec3 15 0 (-15);
    vec3 (-15) 0 15; vec3 15 0 15;
    vec3 0 0 0; vec3 (-15) 0 0;
    vec3 15 0 0; vec3 0 0 (-15);
    vec3 0 0 15 ].

(** The box [createPark] stores on the bench it places at [pos]. *)
Definition benchCollider (pos : Vector3) : Box3 :=
  box3 (add (vec3 (-1) 0 (- (3 / 10))) pos) (add (vec3 1 (8 / 10) (3 / 10)) pos).

Definition parkBench (pos : Vector3) : Object3D :=
  mkObject3D pos (Some (benchCollider pos)) false false false [].

(** A tree of the park: [tree.position.copy(position)], then
    [tree.collider.translate(position)] moves the stored box in place. *)
Definition parkTree (pos : Vector3) : Object3D :=
  mkObject3D pos (Some (translate treeCollider pos)) false false false [].

(** [createPark]: nine benches at fixed places, then the trees; [trees]
    holds the positions the random draws gave. *)
Definition createPark (trees : list Vector3) : Object3D :=
  group origin (map parkBench benchPositions ++ map parkTree trees).

(** [createDepartmentStore]: flagged, without collider. *)
Definition createDepartmentStore : Object3D :=
  mkObject3D origin None false false true [].

(** [createStore(type, position)]: width 8, height 4, depth 8. *)
Definition createStore (pos : Vector3) : Object3D :=
  mkObject3D pos
    (Some (box3 (vec3 (- (8 / 2)) 0 (- (8 / 2))) (vec3 (8 / 2) 4 (8 / 2))))
    true false false [].

Definition storePositions : list Vector3 :=
  [ vec3 20 0 (-20); vec3 (-20) 0 20; vec3 20 0 20 ].

(** [createCity] as far as colliders and flags go: nodes that carry
    neither (shop street, cars, lamps and so on) are left out. *)
Definition createCity (trees : list Vector3) : Movement.World :=
  let theStores := map createStore storePositions in
  Movement.mkWorld theStores
    (group origin
       (setPosition createArbourRoad (vec3 (-40) 0 (-30))
        :: setPosition createDepartmentStore (vec3 30 0 (-30))
        :: setPosition (createPark trees) (vec3 0 0 30)
        :: theStores)).

(** What the data model asks of a collider: the box of a query is the
    stored box moved to where its owner stands in the world. *)
Definition followsOwner (sc : Object3D) : Prop :=
  forall wp o c,
    In (wp, o) (traverseWorld origin sc) ->
    collider o = Some c ->
    Movement.queryBox o = Some (translate c wp).

End City.

(** ** The tethered wander of the main characters *)
Module Wander.

(** [Math.atan2(y, x)]: the angle of the point [(x, y)], in (-PI, PI]. *)
Definition atan2 (y x : R) : R :=
  if Rlt_dec 0 x then atan (y / x)
  else if Rlt_dec x 0 then
    if Rle_dec 0 y then atan (y / x) + PI else atan (y / x) - PI
  else if Rlt_dec 0 y then PI / 2
  else if Rlt_dec y 0 then - (PI / 2)
  else 0.

(** A main character: the group's [position] and [rotation.y], and the
    fields of its [userData] that the wander reads and writes. *)
Record MainNPC := mkMainNPC {
  position : Vector3;
  rotation_y : R;
  walkSpeed : R;
  walkDirection : R;
  originalPosition : Vector3;
  maxWanderDistance : R
}.

(** [createMainNPC(config)]; [u] is the value [Math.random()] gave for the
    first heading. *)
Definition createMainNPC (configPosition : Vector3) (u : R) : MainNPC :=
  mkMainNPC configPosition 0 (1 / 100) (u * PI * 2) configPosition 5.

(** The heading after the occasional random turn; [u1] and [u2] are the
    values of the two calls of [Math.random()]. *)
Definition perturbed (u1 u2 : R) (npc : MainNPC) : R :=
  if ltb u1 (2 / 100)
  then npc.(walkDirection) + (u2 - 5 / 10) * PI / 2
  else npc.(walkDirection).

(** [newPosition]: the step projected along the heading. *)
Definition projected (u1 u2 : R) (npc : MainNPC) : Vector3 :=
  let dir := perturbed u1 u2 npc in
  vec3 (npc.(position).(x) + cos dir * npc.(walkSpeed))
       npc.(position).(y)
       (npc.(position).(z) + sin dir * npc.(walkSpeed)).

Definition angleToOrigin (npc : MainNPC) : R :=
  atan2 (npc.(originalPosition).(z) - npc.(position).(z))
        (npc.(originalPosition).(x) - npc.(position).(x)).

(** Whether the loop advances this character: it is within 50 of the
    player. *)
Definition advanced (playerPos : Vector3) (npc : MainNPC) : bool :=
  leb (distanceTo npc.(position) playerPos) 50.

(** The step a frame projects for a character, [newPosition] in the
    source: there is one only when the loop advances the character. *)
Definition newPosition (playerPos : Vector3) (u1 u2 : R) (npc : MainNPC)
  : option Vector3 :=
  if advanced playerPos npc then Some (projected u1 u2 npc) else None.

(** The body of the first loop of [updateNPCsWithCulling] for one main
    character. *)
Definition updateMainNPC (playerPos : Vector3) (u1 u2 : R) (npc : MainNPC)
  : MainNPC :=
  if advanced playerPos npc then
    let dir := perturbed u1 u2 npc in
    let newPosition := projected u1 u2 npc in
    if ltb (distanceTo newPosition npc.(originalPosition))
           npc.(maxWanderDistance)
    then mkMainNPC newPosition dir npc.(walkSpeed) dir
           npc.(originalPosition) npc.(maxWanderDistance)
    else mkMainNPC npc.(position) (angleToOrigin npc) npc.(walkSpeed)
           (angleToOrigin npc) npc.(originalPosition) npc.(maxWanderDistance)
  else npc.

(** What happens to a main character during play: a frame of the loop, or
    the interaction handler turning it towards the player and stopping or
    releasing it. *)
Inductive Event :=
| Frame (playerPos : Vector3) (u1 u2 : R)
| Face (angle : R)
| SetSpeed (v : R).

Definition step (npc : MainNPC) (e : Event) : MainNPC :=
  match e with
  | Frame playerPos u1 u2 => updateMainNPC playerPos u1 u2 npc
  | Face angle =>
      mkMainNPC npc.(position) angle npc.(walkSpeed) npc.(walkDirection)
        npc.(originalPosition) npc.(maxWanderDistance)
  | SetSpeed v =>
      mkMainNPC npc.(position) npc.(rotation_y) v npc.(walkDirection)
        npc.(originalPosition) npc.(maxWanderDistance)
  end.

Definition run (npc : MainNPC) (events : list Event) : MainNPC :=
  fold_left step events npc.

End Wander.


(** ** The characters ([setupNPCs]) *)
Module Cast.

Local Open Scope string_scope.

(** What the dialogue and challenge code reads of a character's
    [userData]: [isMainNPC] is [false] and [name] is [None] when the
    property is absent. *)
Record UserData := mkUserData {
  isMainNPC : bool;
  name : option string;
  dialogs : list string
}.

(** A character, or any object handed to [showDialog]: [userData] may be
    absent. *)
Record NPC := mkNPC { userData : option UserData }.

(** The [userData] that [createMainNPC(config)] attaches. *)
Definition createMainNPC (configName : string) (configDialogs : list string)
  : NPC :=
  mkNPC (Some (mkUserData true (Some configName) configDialogs)).

Definition mrsWicket : NPC :=
  createMainNPC "Mrs. Wicket"
    [ "Mr. Bean! Your rent is due!";
      "Have you seen my Scrapper? That cat's always wandering off...";
      "Keep the noise down up there!";
      "I heard crashes from your flat again last night!";
      "Don't forget to clean the stairs this week, it's your turn!" ].

Definition irmaGobb : NPC :=
  createMainNPC "Irma Gobb"
    [ "Oh, Mr. Bean! I've been waiting for our date!";
      "I found this lovely new café we could try...";
      "Have you remembered it's my birthday next week?";
      "I saw this beautiful teddy bear in the shop window...";
      "Shall we go to the park together?" ].

Definition rupert : NPC :=
  createMainNPC "Rupert"
    [ "Keep that racket down, Bean!";
      "What are you up to now?";
      "Stay away from my garden!";
      "I saw you sneaking around last night!";
      "Not another one of your silly schemes!" ].

Definition mainNPCs : list NPC := [mrsWicket; irmaGobb; rupert].

(** [createNPC]: a background character is a bare [THREE.Group]; three.js
    gives every object an empty [userData]. *)
Definition createNPC : NPC := mkNPC (Some (mkUserData false None [])).

Definition nameIs (u : UserData) (n : string) : bool :=
  match u.(name) with
  | Some m => String.eqb m n
  | None => false
  end.

(** [npc.userData.dialogs], empty when there is no [userData]. *)
Definition dialogsOf (npc : NPC) : list string :=
  match npc.(userData) with
  | Some u => u.(dialogs)
  | None => []
  end.

End Cast.

(** ** Free-text dialogue ([handlePlayerMessage]) *)
Module Dialogue.
Import Cast.

Local Open Scope string_scope.

(** [s.includes(sub)]: [sub] occurs in [s] at some offset. *)
Fixpoint includes (s sub : string) : bool :=
  if String.prefix sub s then true
  else match s with
       | EmptyString => false
       | String _ rest => includes rest sub
       end.

Definition getMrsWicketResponse (message : string) : string :=
  if includes message "rent" then
    "Yes, yes, the rent! It's due on Friday, don't forget!"
  else if includes message "cat" || includes message "scrapper" then
    "Oh, have you seen my Scrapper? He's such a dear cat. Though he doesn't seem to like you much, Mr. Bean!"
  else if includes message "noise" || includes message "loud" then
    "The noise from your flat is absolutely dreadful! What are you doing up there?"
  else if includes message "hello" || includes message "hi" then
    "Good day, Mr. Bean. I hope you're not planning any of your usual shenanigans."
  else if includes message "sorry" then
    "Well, just try to be more careful next time, Mr. Bean."
  else
    "Hmph! Just make sure you keep the noise down and pay your rent on time!".

Definition getIrmaResponse (message : string) : string :=
  if includes message "date" then
    "Oh, Mr. Bean! I thought you'd never ask. Shall we go to the restaurant?"
  else if includes message "teddy" then
    "That teddy bear of yours... Sometimes I think you love it more than me!"
  else if includes message "hello" || includes message "hi" then
    "Hello, Mr. Bean! I was just thinking about you!"
  else if includes message "gift" || includes message "present" then
    "You remembered! Though last time you gave me a picture of yourself..."
  else if includes message "love" then
    "Oh, Mr. Bean... *blushes* You're sweet when you want to be."
  else
    "We should go on another date soon, Mr. Bean!".

Definition getRupertResponse (message : string) : string :=
  if includes message "noise" then
    "You're making too much noise again, Bean! I'm trying to get some peace and quiet!"
  else if includes message "garden" then
    "Stay away from my garden, Bean! I saw what you did to my flowers last time!"
  else if includes message "hello" || includes message "hi" then
    "What do you want now, Bean?"
  else if includes message "sorry" then
    "Hmph! You're always sorry after the fact, aren't you?"
  else
    "Just keep your distance, Bean. I'm watching you!".

Definition getGenericResponse (message : string) : string :=
  if includes message "hello" || includes message "hi" then
    "Hello! Lovely day, isn't it?"
  else if includes message "weather" then
    "Yes, typical British weather we're having!"
  else if includes message "bean" then
    "Oh, you know Mr. Bean? Quite a peculiar fellow, isn't he?"
  else if includes message "shop" || includes message "store" then
    "The shops around here are quite nice. Have you tried the new café?"
  else if includes message "car" then
    "That green Mini is always causing chaos around here!"
  else
    "Oh, how interesting! Do tell me more about that.".

(** [handlePlayerMessage(message, npc)]: the text written to the dialogue
    box.  [toLowerCase] is the string method of that name. *)
Definition handlePlayerMessage (toLowerCase : string -> string)
    (message : string) (npc : Cast.NPC) : string :=
  let message := toLowerCase message in
  match npc.(userData) with
  | Some u =>
      if u.(isMainNPC) then
        if nameIs u "Mrs. Wicket" then getMrsWicketResponse message
        else if nameIs u "Irma Gobb" then getIrmaResponse message
        else if nameIs u "Rupert" then getRupertResponse message
        else getGenericResponse message
      else getGenericResponse message
  | None => getGenericResponse message
  end.

(** [toLowerCase] on the letters A to Z. *)
Definition lowerAscii (c : ascii) : ascii :=
  let n := nat_of_ascii c in
  if (Nat.leb 65 n && Nat.leb n 90)%bool then ascii_of_nat (n + 32) else c.

Fixpoint toLowerCaseAscii (s : string) : string :=
  match s with
  | EmptyString => EmptyString
  | String c rest => String (lowerAscii c) (toLowerCaseAscii rest)
  end.

(** *** The response tables as the specification words them

    A character's table is an ordered list of rules, each a set of
    keywords with a response; the first rule one of whose keywords occurs
    in the message answers, and the fallback answers when none does. *)
Definition Rule : Type := list string * string.

Definition matches (message : string) (r : Rule) : bool :=
  existsb (includes message) (fst r).

Definition firstMatch (table : list Rule) (fallback message : string)
  : string :=
  match find (matches message) table with
  | Some r => snd r
  | None => fallback
  end.

Inductive Identity := MrsWicket | IrmaGobb | Rupert | Generic.

(** The three main characters are told apart by name; every other
    character is generic. *)
Definition identityOf (npc : Cast.NPC) : Identity :=
  match npc.(userData) with
  | Some u =>
      if u.(isMainNPC) then
        if nameIs u "Mrs. Wicket" then MrsWicket
        else if nameIs u "Irma Gobb" then IrmaGobb
        else if nameIs u "Rupert" then Rupert
        else Generic
      else Generic
  | None => Generic
  end.

Definition table (i : Identity) : list Rule :=
  match i with
  | MrsWicket =>
      [ (["rent"], "Yes, yes, the rent! It's due on Friday, don't forget!");
        (["cat"; "scrapper"], "Oh, have you seen my Scrapper? He's such a dear cat. Though he doesn't seem to like you much, Mr. Bean!");
        (["noise"; "loud"], "The noise from your flat is absolutely dreadful! What are you doing up there?");
        (["hello"; "hi"], "Good day, Mr. Bean. I hope you're not planning any of your usual shenanigans.");
        (["sorry"], "Well, just try to be more careful next time, Mr. Bean.") ]
  | IrmaGobb =>
      [ (["date"], "Oh, Mr. Bean! I thought you'd never ask. Shall we go to the restaurant?");
        (["teddy"], "That teddy bear of yours... Sometimes I think you love it more than me!");
        (["hello"; "hi"], "Hello, Mr. Bean! I was just thinking about you!");
        (["gift"; "present"], "You remembered! Though last time you gave me a picture of yourself...");
        (["love"], "Oh, Mr. Bean... *blushes* You're sweet when you want to be.") ]
  | Rupert =>
      [ (["noise"], "You're making too much noise again, Bean! I'm trying to get some peace and quiet!");
        (["garden"], "Stay away from my garden, Bean! I saw what you did to my flowers last time!");
        (["hello"; "hi"], "What do you want now, Bean?");
        (["sorry"], "Hmph! You're always sorry after the fact, aren't you?") ]
  | Generic =>
      [ (["hello"; "hi"], "Hello! Lovely day, isn't it?");
        (["weather"], "Yes, typical British weather we're having!");
        (["bean"], "Oh, you know Mr. Bean? Quite a peculiar fellow, isn't he?");
        (["shop"; "store"], "The shops around here are quite nice. Have you tried the new café?");
        (["car"], "That green Mini is always causing chaos around here!") ]
  end.

Definition fallback (i : Identity) : string :=
  match i with
  | MrsWicket => "Hmph! Just make sure you keep the noise down and pay your rent on time!"
  | IrmaGobb => "We should go on another date soon, Mr. Bean!"
  | Rupert => "Just keep your distance, Bean. I'm watching you!"
  | Generic => "Oh, how interesting! Do tell me more about that."
  end.

End Dialogue.


(** ** The challenge state machine *)
Module Challenges.
Import Cast.

Local Open Scope string_scope.

(** A step and a challenge of the catalog.  Both carry a property named
    [completed] in the source; the step's is [stepCompleted] here. *)
Record Step := mkStep { text : string; stepCompleted : bool }.

Record Challenge := mkChallenge {
  id : nat;
  title : string;
  description : string;
  completed : bool;
  steps : list Step;
  reward : string
}.

(** What the player gets to see and hear: the name and the text written
    to the dialogue box, and the interaction sound. *)
Inductive Effect :=
| Shown (speaker message : option string)
| InteractSound.

(** The part of the game object the challenge code works on.
    [activeChallenge] is a reference to an object of [challenges]: it is
    kept as the index of that object, so a write through the reference is
    a write into the catalog.  [interactSound] stands for the test
    [soundEffectsEnabled && soundEffects && soundEffects.interact].
    [randomDraws] counts the calls of [Math.random()], and [effects] is
    the history of what was shown and played, oldest first. *)
Record Game := mkGame {
  challenges : list Challenge;
  activeChallenge : option nat;
  dialogElement : bool;
  currentNPC : option NPC;
  interactSound : bool;
  randomDraws : nat;
  effects : list Effect
}.

Definition setChallenges (cs : list Challenge) (g : Game) : Game :=
  mkGame cs g.(activeChallenge) g.(dialogElement) g.(currentNPC)
    g.(interactSound) g.(randomDraws) g.(effects).

Definition setActiveChallenge (a : option nat) (g : Game) : Game :=
  mkGame g.(challenges) a g.(dialogElement) g.(currentNPC)
    g.(interactSound) g.(randomDraws) g.(effects).

Definition setInteractSound (b : bool) (g : Game) : Game :=
  mkGame g.(challenges) g.(activeChallenge) g.(dialogElement) g.(currentNPC)
    b g.(randomDraws) g.(effects).

Definition setStepCompleted (b : bool) (st : Step) : Step :=
  mkStep st.(text) b.

Definition setSteps (sts : list Step) (c : Challenge) : Challenge :=
  mkChallenge c.(id) c.(title) c.(description) c.(completed) sts c.(reward).

Definition setCompleted (b : bool) (c : Challenge) : Challenge :=
  mkChallenge c.(id) c.(title) c.(description) b c.(steps) c.(reward).

(** [initializeChallenges]: the catalog. *)
Definition catalog : list Challenge :=
  [ mkChallenge 1 "Find Teddy"
      "Your beloved Teddy has gone missing! Mrs. Wicket might have seen it last."
      false
      [ mkStep "Talk to Mrs. Wicket about Teddy" false;
        mkStep "Search the park benches" false;
        mkStep "Check the department store" false ]
      "You found Teddy! He's happy to be back with you.";
    mkChallenge 2 "Late for Appointment"
      "You're late for your dentist appointment! But your car won't start..."
      false
      [ mkStep "Check your broken car" false;
        mkStep "Find Rupert and ask for help" false;
        mkStep "Get to the city center clinic" false ]
      "You made it to the dentist! Only 30 minutes late...";
    mkChallenge 3 "Christmas Shopping"
      "You need to buy a Christmas present for Irma, but you're on a budget!"
      false
      [ mkStep "Talk to Irma about her interests" false;
        mkStep "Visit the department store for sales" false;
        mkStep "Find the perfect gift" false ]
      "You found a lovely gift that Irma will surely appreciate!" ].

(** The game once [initialize] has run: the dialogue box exists
    ([setupInteraction] runs before [initializeChallenges]) and sound
    effects are off. *)
Definition initializeChallenges : Game :=
  mkGame catalog None true None false 0 [].

(** The lines [showDialog] keeps for everyone who is not a main
    character. *)
Definition genericDialogs : list string :=
  [ "Hello there! Lovely weather we're having.";
    "Good day! Have you seen Mr. Bean's teddy?";
    "Mind the road, dear! The traffic's been terrible.";
    "Fancy a cup of tea? The café's just around the corner.";
    "I heard there's a sale at the department store today!";
    "Lovely day for a walk in the park, isn't it?";
    "Have you tried the new bakery? Their scones are divine!" ].

(** The object literal [{ userData: { name, dialogs: [line] } }] that the
    challenge code hands to [showDialog]; it has no [isMainNPC]. *)
Definition notice (speaker line : string) : NPC :=
  mkNPC (Some (mkUserData false (Some speaker) [line])).

Section WithRandom.

(** [random k] stands for the [k]-th value of [Math.random()]: the index
    [Math.floor(Math.random() * n)] is [random k mod n], which ranges over
    the same indices. *)
Variable random : nat -> nat.

Definition pick (draws : nat) (pool : list string) : option string :=
  nth_error pool (random draws mod List.length pool).

(** [showDialog(npc)]. *)
Definition showDialog (npc : NPC) (g : Game) : Game :=
  if negb g.(dialogElement) then g
  else
    let main :=
      match npc.(userData) with
      | Some u => if u.(isMainNPC) then Some u else None
      | None => None
      end in
    let shown :=
      match main with
      | Some u => Shown u.(name) (pick g.(randomDraws) u.(dialogs))
      | None => Shown (Some "Citizen") (pick g.(randomDraws) genericDialogs)
      end in
    mkGame g.(challenges) g.(activeChallenge) g.(dialogElement) (Some npc)
      g.(interactSound) (S g.(randomDraws)) (g.(effects) ++ [shown]).

(** [if (soundEffectsEnabled && ...) soundEffects.interact.play()]. *)
Definition playInteract (g : Game) : Game :=
  if g.(interactSound)
  then mkGame g.(challenges) g.(activeChallenge) g.(dialogElement)
         g.(currentNPC) g.(interactSound) g.(randomDraws)
         (g.(effects) ++ [InteractSound])
  else g.

(** [this.challenges.find(c => c.id === challengeId)], with the index of
    the object found. *)
Fixpoint findChallenge (challengeId : nat) (cs : list Challenge)
  : option (nat * Challenge) :=
  match cs with
  | [] => None
  | c :: rest =>
      if Nat.eqb c.(id) challengeId then Some (O, c)
      else match findChallenge challengeId rest with
           | Some (j, c') => Some (S j, c')
           | None => None
           end
  end.

(** The object [this.activeChallenge] refers to, with its index. *)
Definition active (g : Game) : option (nat * Challenge) :=
  match g.(activeChallenge) with
  | Some a =>
      match nth_error g.(challenges) a with
      | Some c => Some (a, c)
      | None => None
      end
  | None => None
  end.

(** [startChallenge(challengeId)]. *)
Definition startChallenge (challengeId : nat) (g : Game) : Game :=
  match findChallenge challengeId g.(challenges) with
  | Some (j, challenge) =>
      if negb challenge.(completed) then
        let g1 :=
          match active g with
          | Some (a, ac) =>
              if negb (Nat.eqb ac.(id) challengeId) then
                setChallenges
                  (updateAt a
                     (fun c => setSteps (map (setStepCompleted false) c.(steps)) c)
                     g.(challenges))
                  g
              else g
          | None => g
          end in
        let g2 := setActiveChallenge (Some j) g1 in
        let g3 := showDialog (notice "New Challenge" challenge.(description)) g2 in
        playInteract g3
      else
        showDialog
          (notice "Challenge Complete" "You've already completed this challenge!")
          g
  | None => g
  end.

(** [c.steps[i].completed]; [None] stands for the [TypeError] of reading
    a property of [undefined]. *)
Definition stepDone (c : Challenge) (i : nat) : option bool :=
  option_map stepCompleted (nth_error c.(steps) i).

(** [updateChallengeProgress(stepIndex)]. *)
Definition updateChallengeProgress (stepIndex : nat) (g : Game)
  : option Game :=
  match active g with
  | None => Some g
  | Some (a, c) =>
      match stepDone c stepIndex with
      | None => None
      | Some true => Some g
      | Some false =>
          let sts := updateAt stepIndex (setStepCompleted true) c.(steps) in
          let g1 := setChallenges (updateAt a (setSteps sts) g.(challenges)) g in
          let g2 :=
            if forallb stepCompleted sts then
              let g3 :=
                setChallenges (updateAt a (setCompleted true) g1.(challenges))
                  g1 in
              let g4 :=
                showDialog
                  (notice "Challenge Complete!"
                     "Well done! You've completed the challenge!")
                  g3 in
              setActiveChallenge None g4
            else g1 in
          Some (playInteract g2)
      end
  end.

(** [completeChallenge()]. *)
Definition completeChallenge (g : Game) : Game :=
  match active g with
  | None => g
  | Some (a, challenge) =>
      let g1 := showDialog (notice "Challenge Complete!" challenge.(reward)) g in
      let g2 := playInteract g1 in
      let g3 :=
        setChallenges (updateAt a (setCompleted true) g2.(challenges)) g2 in
      setActiveChallenge None g3
  end.

(** [p && q] on values that may throw: [q] is read only when [p] holds. *)
Definition andThen (p q : option bool) : option bool :=
  match p with
  | Some true => q
  | _ => p
  end.

Definition notDone (c : Challenge) (i : nat) : option bool :=
  option_map negb (stepDone c i).

(** The proximity tests of [checkChallengeProgress]. *)
Definition nearBench (playerPosition : Vector3) (sceneChildren : list Object3D)
  : bool :=
  existsb
    (fun obj =>
       isBench obj && ltb (distanceTo playerPosition (Three.position obj)) 2)
    sceneChildren.

Definition nearDepartmentStore (playerPosition : Vector3)
    (sceneChildren : list Object3D) : bool :=
  existsb
    (fun obj =>
       isDepartmentStore obj
       && ltb (distanceTo playerPosition (Three.position obj)) 5)
    sceneChildren.

Definition nearCar (playerPosition : Vector3) : bool :=
  ltb (distanceTo playerPosition (vec3 (-38) 0 (-28))) 2.

Definition inCityCenter (playerPosition : Vector3) : bool :=
  ltb (distanceTo playerPosition (vec3 30 0 (-30))) 10.

(** [checkChallengeProgress(npc)], with the player's position and the
    children of the scene it reads. *)
Definition checkChallengeProgress (npc : NPC) (playerPosition : Vector3)
    (sceneChildren : list Object3D) (g : Game) : option Game :=
  match active g, npc.(userData) with
  | Some (_, challenge), Some u =>
      match challenge.(id) with
      | 1 =>
          match andThen (Some (nameIs u "Mrs. Wicket")) (notDone challenge 0) with
          | None => None
          | Some true => updateChallengeProgress 0 g
          | Some false =>
          match andThen (stepDone challenge 0) (notDone challenge 1) with
          | None => None
          | Some true =>
              if nearBench playerPosition sceneChildren then
                match updateChallengeProgress 1 g with
                | Some g1 =>
                    Some (showDialog
                            (notice "Mr. Bean"
                               "Aha! There's a note here... 'Your Teddy is at the department store.'")
                            g1)
                | None => None
                end
              else Some g
          | Some false =>
          match andThen (stepDone challenge 1) (notDone challenge 2) with
          | None => None
          | Some true =>
              if nearDepartmentStore playerPosition sceneChildren then
                match updateChallengeProgress 2 g with
                | Some g1 => Some (completeChallenge g1)
                | None => None
                end
              else Some g
          | Some false => Some g
          end end end
      | 2 =>
          match notDone challenge 0 with
          | None => None
          | Some true =>
              if nearCar playerPosition then
                match updateChallengeProgress 0 g with
                | Some g1 =>
                    Some (showDialog
                            (notice "Mr. Bean"
                               "Oh no! The car won't start! Maybe Rupert can help...")
                            g1)
                | None => None
                end
              else Some g
          | Some false =>
          match andThen (Some (nameIs u "Rupert")) (notDone challenge 1) with
          | None => None
          | Some true =>
              match updateChallengeProgress 1 g with
              | Some g1 =>
                  Some (showDialog
                          (notice "Rupert"
                             "*Sigh* Fine, Bean. The clinic is in the city center, near the department store.")
                          g1)
              | None => None
              end
          | Some false =>
          match andThen (stepDone challenge 1) (notDone challenge 2) with
          | None => None
          | Some true =>
              if inCityCenter playerPosition then
                match updateChallengeProgress 2 g with
                | Some g1 => Some (completeChallenge g1)
                | None => None
                end
              else Some g
          | Some false => Some g
          end end end
      | 3 =>
          match andThen (Some (nameIs u "Irma Gobb")) (notDone challenge 0) with
          | None => None
          | Some true =>
              match updateChallengeProgress 0 g with
              | Some g1 =>
                  Some (showDialog
                          (notice "Irma"
                             "Oh, Mr. Bean! I do love that teddy bear in the department store window...")
                          g1)
              | None => None
              end
          | Some false =>
          match andThen (stepDone challenge 0) (notDone challenge 1) with
          | None => None
          | Some true =>
              if nearDepartmentStore playerPosition sceneChildren then
                match updateChallengeProgress 1 g with
                | Some g1 =>
                    Some (showDialog
                            (notice "Store Clerk"
                               "The teddy bears are on sale today! Perfect timing!")
                            g1)
                | None => None
                end
              else Some g
          | Some false =>
          match andThen (stepDone challenge 1) (notDone challenge 2) with
          | None => None
          | Some true =>
              if nameIs u "Store Clerk" then
                match updateChallengeProgress 2 g with
                | Some g1 => Some (completeChallenge g1)
                | None => None
                end
              else Some g
          | Some false => Some g
          end end end
      | _ => Some g
      end
  | _, _ => Some g
  end.

(** [hideDialog()]. *)
Definition hideDialog (g : Game) : Game :=
  if g.(dialogElement)
  then mkGame g.(challenges) g.(activeChallenge) g.(dialogElement) None
         g.(interactSound) g.(randomDraws) g.(effects)
  else g.

(** The interaction handler once it has found the nearest character in
    range, as far as this state goes: the character's own line is shown,
    the sound is played, then the challenge is checked. *)
Definition talk (npc : NPC) (playerPosition : Vector3)
    (sceneChildren : list Object3D) (g : Game) : option Game :=
  checkChallengeProgress npc playerPosition sceneChildren
    (playInteract (showDialog npc g)).

(** What reaches the state machine: a click on a challenge of the menu,
    a talk with the nearest character (with the player's position and the
    children of the scene at that moment), the dialogue box being hidden,
    and the sound test changing its value. *)
Inductive Input :=
| Start (challengeId : nat)
| Talk (npc : NPC) (playerPosition : Vector3) (sceneChildren : list Object3D)
| Hide
| Sfx (ready : bool).

Definition step (g : Game) (i : Input) : option Game :=
  match i with
  | Start challengeId => Some (startChallenge challengeId g)
  | Talk npc playerPosition sceneChildren =>
      talk npc playerPosition sceneChildren g
  | Hide => Some (hideDialog g)
  | Sfx ready => Some (setInteractSound ready g)
  end.

(** The game after a sequence of inputs; [None] when one of them threw. *)
Fixpoint run (g : Game) (inputs : list Input) : option Game :=
  match inputs with
  | [] => Some g
  | i :: rest =>
      match step g i with
      | Some g1 => run g1 rest
      | None => None
      end
  end.

End WithRandom.

(** The challenge of the catalog with a given id, if any. *)
Definition challengeOf (challengeId : nat) (g : Game) : option Challenge :=
  option_map snd (findChallenge challengeId g.(challenges)).

End Challenges.


(** ** The interaction freeze ([setupInteraction]) *)
Module Freeze.

(** A character as the freeze sees it.  A main character keeps its speed
    in [userData.walkSpeed]; a background character keeps it in its own
    property [walkSpeed], here [ownWalkSpeed].  [None] is [undefined]. *)
Record UserData := mkUserData { walkSpeed : option R }.
Record NPC := mkNPC { userData : option UserData; ownWalkSpeed : option R }.

(** [createMainNPC]: speed 0.01 in [userData]. *)
Definition createMainNPC : NPC :=
  mkNPC (Some (mkUserData (Some (1 / 100)))) None.

(** [createNPC], then [npc.walkSpeed = ...] in [setupNPCs]: the speed is a
    property of the group itself, and [userData] is the empty object
    three.js gives every object. *)
Definition createNPC (speed : R) : NPC :=
  mkNPC (Some (mkUserData None)) (Some speed).

(** A reference to a character of [this.mainNPCs] or of [this.npcs]. *)
Inductive Ref := Main (i : nat) | Regular (i : nat).

(** A pending [setTimeout] callback of the handler, with what its closure
    captured: the character and [currentSpeed].  Times are in
    milliseconds. *)
Record Timer := mkTimer {
  fireAt : N;
  closestNPC : Ref;
  currentSpeed : option R
}.

Record State := mkState {
  mainNPCs : list NPC;
  npcs : list NPC;
  timers : list Timer
}.

Definition lookup (s : State) (r : Ref) : option NPC :=
  match r with
  | Main i => nth_error s.(mainNPCs) i
  | Regular i => nth_error s.(npcs) i
  end.

Definition update (r : Ref) (f : NPC -> NPC) (s : State) : State :=
  match r with
  | Main i => mkState (updateAt i f s.(mainNPCs)) s.(npcs) s.(timers)
  | Regular i => mkState s.(mainNPCs) (updateAt i f s.(npcs)) s.(timers)
  end.

(** [closestNPC.userData ? closestNPC.userData.walkSpeed
                         : closestNPC.walkSpeed]. *)
Definition readSpeed (npc : NPC) : option R :=
  match npc.(userData) with
  | Some u => u.(walkSpeed)
  | None => npc.(ownWalkSpeed)
  end.

(** [if (closestNPC.userData) closestNPC.userData.walkSpeed = v
    else closestNPC.walkSpeed = v]. *)
Definition writeSpeed (v : option R) (npc : NPC) : NPC :=
  match npc.(userData) with
  | Some _ => mkNPC (Some (mkUserData v)) npc.(ownWalkSpeed)
  | None => mkNPC None v
  end.

Definition freezeDuration : N := 30000%N.

(** The handler at time [now], once [r] is the nearest character in
    range: note the speed, stop the character, schedule the release. *)
Definition interact (now : N) (r : Ref) (s : State) : State :=
  match lookup s r with
  | Some npc =>
      let speed := readSpeed npc in
      let s1 := update r (writeSpeed (Some 0)) s in
      mkState s1.(mainNPCs) s1.(npcs)
        (s1.(timers) ++ [mkTimer (now + freezeDuration)%N r speed])
  | None => s
  end.

(** The callback of a timer. *)
Definition fire (s : State) (t : Timer) : State :=
  update t.(closestNPC) (writeSpeed t.(currentSpeed)) s.

(** The clock reaches [now]: the callbacks due by then run, in the order
    they were scheduled (all have the same delay). *)
Definition elapse (now : N) (s : State) : State :=
  let due := filter (fun t => N.leb t.(fireAt) now) s.(timers) in
  let pending := filter (fun t => negb (N.leb t.(fireAt) now)) s.(timers) in
  let s1 := fold_left fire due s in
  mkState s1.(mainNPCs) s1.(npcs) pending.

(** The state after the interactions of a session, each given with its
    time, and then at time [now]. *)
Definition play (s : State) (interactions : list (N * Ref)) : State :=
  fold_left (fun st e => interact (fst e) (snd e) (elapse (fst e) st))
    interactions s.

Definition stateAt (s : State) (interactions : list (N * Ref)) (now : N)
  : State :=
  elapse now (play s interactions).

(** The speed [updateNPCsWithCulling] moves a character with: a main
    character's [userData.walkSpeed], a background character's
    [walkSpeed]. *)
Definition movementSpeed (s : State) (r : Ref) : option R :=
  match r with
  | Main i =>
      match nth_error s.(mainNPCs) i with
      | Some npc =>
          match npc.(userData) with
          | Some u => u.(walkSpeed)
          | None => None
          end
      | None => None
      end
  | Regular i =>
      match nth_error s.(npcs) i with
      | Some npc => npc.(ownWalkSpeed)
      | None => None
      end
  end.

End Freeze.


(** ** The vocabulary of the properties *)

(** A store as [createStore] builds it, standing just north of the spot
    where the player starts. *)
Definition storeAhead : Movement.World :=
  Movement.mkWorld [City.createStore (vec3 (-38) 0 (-24))] (group origin []).

Definition keyW : Movement.Keys := Movement.mkKeys true false false false.

(** Mr. Bean's house as [createArbourRoad] places it in its group, and
    where that puts it in the world. *)
Definition beanHouse : Object3D :=
  City.setPosition (City.createBritishHouse true) (vec3 0 0 0).

Definition beanHouseWorldPosition : Vector3 := vec3 (-40) 0 (-30).

(** A main character strictly inside its wander radius. *)
Definition tethered (npc : Wander.MainNPC) : Prop :=
  distanceTo (Wander.position npc) (Wander.originalPosition npc)
  < Wander.maxWanderDistance npc.

(** A main character one step short of the edge of its radius, walking
    straight out. *)
Definition npcAtEdge : Wander.MainNPC :=
  Wander.mkMainNPC (vec3 (4995 / 1000) 0 0) 0 (1 / 100) 0 origin 5.

Section ChallengeVocabulary.
Import Cast Challenges.
Local Open Scope string_scope.

(** The completion flag of step [n] of the challenge at index [j];
    [None] when there is no such challenge or no such step. *)
Definition stepFlag (g : Game) (j n : nat) : option bool :=
  match nth_error g.(challenges) j with
  | Some c => stepDone c n
  | None => None
  end.

(** A challenge after its step [i] was marked, closed if that was its
    last open step; and the catalog after this happened to the challenge
    at [a]. *)
Definition markStep (i : nat) (c : Challenge) : Challenge :=
  let c1 := setSteps (updateAt i (setStepCompleted true) c.(steps)) c in
  if forallb stepCompleted c1.(steps) then setCompleted true c1 else c1.

Definition marked (a i : nat) (cs : list Challenge) : list Challenge :=
  updateAt a (markStep i) cs.

(** Every challenge of the catalog has its three steps. *)
Definition threeSteps (g : Game) : Prop :=
  Forall (fun c => List.length c.(steps) = 3%nat) g.(challenges).

(** The characters [setupNPCs] creates. *)
Definition inCast (npc : NPC) : Prop := In npc (createNPC :: mainNPCs).

(** No child of the scene carries [isBench]: no construction code of the
    game sets that property. *)
Definition noBench (sceneChildren : list Object3D) : Prop :=
  Forall (fun obj => isBench obj = false) sceneChildren.

(** The inputs the game can produce. *)
Definition producible (i : Input) : Prop :=
  match i with
  | Talk npc _ sceneChildren => inCast npc /\ noBench sceneChildren
  | _ => True
  end.

(** Challenge 1 has its second step open and challenge 3 its third, and
    neither is completed. *)
Definition stuck (g : Game) : Prop :=
  forall j c,
    nth_error g.(challenges) j = Some c ->
    (c.(id) = 1%nat -> stepDone c 1 = Some false /\ c.(completed) = false) /\
    (c.(id) = 3%nat -> stepDone c 2 = Some false /\ c.(completed) = false).

(** Where the player stands beside the car, and beside Irma Gobb, who is
    created at (25, 0, -25), less than 10 from the clinic. *)
Definition atCar : Vector3 := vec3 (-38) 0 (-28).
Definition besideIrma : Vector3 := vec3 26 0 (-26).

(** The children of the scene as far as [City.createCity] builds it,
    with no tree in the park. *)
Definition cityChildren : list Object3D :=
  Three.children (Movement.scene (City.createCity [])).

(** The player picks "Late for Appointment", talks to Mrs. Wicket beside
    the car, then to Rupert, then, in the city centre, to Irma Gobb. *)
Definition lateForAppointment : list Input :=
  [ Start 2; Talk mrsWicket atCar cityChildren;
    Talk rupert atCar cityChildren; Talk irmaGobb besideIrma cityChildren ].

(** How that run goes, whatever the random draws: the three steps of
    challenge 2 get done, the challenge is completed and no challenge is
    active any more.  Every text that was shown is a line drawn from the
    pool of generic lines or from a character's own pool. *)
Definition afterAppointment (random : nat -> nat) : Game :=
  mkGame
    [ mkChallenge 1 "Find Teddy"
        "Your beloved Teddy has gone missing! Mrs. Wicket might have seen it last."
        false
        [ mkStep "Talk to Mrs. Wicket about Teddy" false;
          mkStep "Search the park benches" false;
          mkStep "Check the department store" false ]
        "You found Teddy! He's happy to be back with you.";
      mkChallenge 2 "Late for Appointment"
        "You're late for your dentist appointment! But your car won't start..."
        true
        [ mkStep "Check your broken car" true;
          mkStep "Find Rupert and ask for help" true;
          mkStep "Get to the city center clinic" true ]
        "You made it to the dentist! Only 30 minutes late...";
      mkChallenge 3 "Christmas Shopping"
        "You need to buy a Christmas present for Irma, but you're on a budget!"
        false
        [ mkStep "Talk to Irma about her interests" false;
          mkStep "Visit the department store for sales" false;
          mkStep "Find the perfect gift" false ]
        "You found a lovely gift that Irma will surely appreciate!" ]
    None true
    (Some (notice "Challenge Complete!"
             "Well done! You've completed the challenge!"))
    false 7
    [ Shown (Some "Citizen") (pick random 0 genericDialogs);
      Shown (Some "Mrs. Wicket") (pick random 1 (dialogsOf mrsWicket));
      Shown (Some "Citizen") (pick random 2 genericDialogs);
      Shown (Some "Rupert") (pick random 3 (dialogsOf rupert));
      Shown (Some "Citizen") (pick random 4 genericDialogs);
      Shown (Some "Irma Gobb") (pick random 5 (dialogsOf irmaGobb));
      Shown (Some "Citizen") (pick random 6 genericDialogs) ].

(** How many times [line] was written to the dialogue box. *)
Definition isShown (line : string) (e : Effect) : bool :=
  match e with
  | Shown _ (Some m) => String.eqb m line
  | _ => false
  end.

Definition timesShown (line : string) (g : Game) : nat :=
  List.length (filter (isShown line) g.(effects)).

End ChallengeVocabulary.

(** Two talks with the same main character, 10 seconds apart, in a game
    with that character alone. *)
Section FreezeVocabulary.
Import Freeze.
Local Open Scope N_scope.

Definition twoTalks : list (N * Ref) :=
  [(0, Main 0%nat); (10000, Main 0%nat)].

Definition mrsWicketAlone : State := mkState [createMainNPC] [] [].

End FreezeVocabulary.

(** ** Vocabulary of the further properties *)

(** The footprint box of the player standing at [v]. *)
Definition footprint (v : Vector3) : Box3 :=
  setFromCenterAndSize v Movement.playerSize.

(** No box a query resolves meets the footprint of a player at [v]. *)
Definition clearOf (wd : Movement.World) (v : Vector3) : Prop :=
  forall C b,
    Movement.registered wd C -> Movement.queryBox C = Some b ->
    intersectsBox b (footprint v) = false.

(** Every box a query resolves keeps more than half a footprint away from
    the edge of the world square. *)
Definition insideMargin (wd : Movement.World) : Prop :=
  forall C b,
    Movement.registered wd C -> Movement.queryBox C = Some b ->
    - (948 / 10) < b.(min).(x) /\ b.(max).(x) < 948 / 10 /\
    - (948 / 10) < b.(min).(z) /\ b.(max).(z) < 948 / 10.


(** ** The background characters (second loop of [updateNPCsWithCulling]) *)
Module Crowd.

(** A background character: the group's [position] and [rotation.y], and
    its own properties [walkDirection] and [walkSpeed]. *)
Record NPC := mkNPC {
  position : Vector3;
  rotation_y : R;
  walkDirection : R;
  walkSpeed : R
}.

Definition maxDistance : R := 40.

Definition advanced (playerPos : Vector3) (npc : NPC) : bool :=
  leb (distanceTo npc.(position) playerPos) 50.

(** Outside the soft boundary on either horizontal axis. *)
Definition outside (v : Vector3) : bool :=
  ltb maxDistance (Rabs v.(x)) || ltb maxDistance (Rabs v.(z)).

(** The position after [npc.position.x += ...; npc.position.z += ...]. *)
Definition moved (npc : NPC) : Vector3 :=
  vec3 (npc.(position).(x) + cos npc.(walkDirection) * npc.(walkSpeed))
       npc.(position).(y)
       (npc.(position).(z) + sin npc.(walkDirection) * npc.(walkSpeed)).

(** The body of the second loop for one character; [u1] and [u2] are the
    values of the two calls of [Math.random()]. *)
Definition updateNPC (playerPos : Vector3) (u1 u2 : R) (npc : NPC) : NPC :=
  if advanced playerPos npc then
    let pos := moved npc in
    let dir1 :=
      if ltb u1 (2 / 100)
      then npc.(walkDirection) + (u2 - 5 / 10) * PI / 2
      else npc.(walkDirection) in
    let dir2 := if outside pos then dir1 + PI else dir1 in
    mkNPC pos dir2 dir2 npc.(walkSpeed)
  else npc.

End Crowd.

(** A main character is stopped when its speed is 0. *)
Definition stopped (npc : Wander.MainNPC) : Prop := Wander.walkSpeed npc = 0.


(** ** Interaction targeting (the E key handler of [setupInteraction]) *)
Module Targeting.

Local Open Scope string_scope.

(** [doorData] of a house: the door's place relative to the house, the
    open flag and the label. *)
Record DoorData := mkDoorData {
  doorPosition : Vector3;
  isOpen : bool;
  doorType : string
}.

(** A node [scene.traverse] visits, as the handler reads it: [position],
    the optional [doorData], and whether [getObjectByName('door')] finds a
    door mesh below it. *)
Record Node := mkNode {
  position : Vector3;
  doorData : option DoorData;
  hasDoorMesh : bool
}.

(** The player's position, the positions of [this.mainNPCs] and of
    [this.npcs], and the nodes of the scene in the order of the walk. *)
Record World := mkWorld {
  player : Vector3;
  mainNPCs : list Vector3;
  npcs : list Vector3;
  nodes : list Node
}.

Definition interactionDistance : R := 2.

(** One step of a scan for the nearest: [best] is [None] at the start
    ([null] at distance [Infinity]), and a candidate replaces the best so
    far only when it is strictly nearer. *)
Definition consider {A : Type} (best : option (A * R)) (candidate : A)
    (distance : R) : option (A * R) :=
  match best with
  | Some (_, closestDistance) =>
      if ltb distance closestDistance then Some (candidate, distance)
      else best
  | None => Some (candidate, distance)
  end.

(** The elements of a list with their indices, from [i] on. *)
Fixpoint indexed {A B : Type} (ref : nat -> B) (i : nat) (l : list A)
  : list (B * A) :=
  match l with
  | [] => []
  | a :: rest => (ref i, a) :: indexed ref (S i) rest
  end.

(** The characters in the order the two loops visit them: the main ones,
    then the background ones. *)
Definition candidates (w : World) : list (Freeze.Ref * Vector3) :=
  indexed Freeze.Main 0 w.(mainNPCs) ++ indexed Freeze.Regular 0 w.(npcs).

Definition scanNPCs (w : World) (l : list (Freeze.Ref * Vector3))
    (best : option ((Freeze.Ref * Vector3) * R))
  : option ((Freeze.Ref * Vector3) * R) :=
  fold_left
    (fun b npc => consider b npc (distanceTo w.(player) (snd npc)))
    l best.

(** [closestNPC] with [closestDistance] after the two loops. *)
Definition closestNPC (w : World) : option ((Freeze.Ref * Vector3) * R) :=
  scanNPCs w (indexed Freeze.Regular 0 w.(npcs))
    (scanNPCs w (indexed Freeze.Main 0 w.(mainNPCs)) None).

(** Where the handler takes a door to be: the owner's [position] plus the
    door's offset. *)
Definition doorWorldPos (n : Node) (d : DoorData) : Vector3 :=
  add n.(position) d.(doorPosition).

(** [closestInteractable] with its distance: the index of the node. *)
Definition closestInteractable (w : World) : option (nat * R) :=
  fold_left
    (fun b e =>
       match (snd e).(doorData) with
       | Some d =>
           consider b (fst e)
             (distanceTo w.(player) (doorWorldPos (snd e) d))
       | None => b
       end)
    (indexed (fun i => i) 0 w.(nodes)) None.

(** What the handler does next. *)
Inductive Outcome :=
| TalkTo (npc : Freeze.Ref) (angle : R)
| UseDoor (node : nat) (buildingType message : string)
    (targetRotation : option R)
| Nothing.

Definition toggle (n : Node) : Node :=
  match n.(doorData) with
  | Some d =>
      mkNode n.(position)
        (Some (mkDoorData d.(doorPosition) (negb d.(isOpen)) d.(doorType)))
        n.(hasDoorMesh)
  | None => n
  end.

(** The world after [doorData.isOpen] of the node at index [i] is
    negated. *)
Definition toggleDoor (w : World) (i : nat) : World :=
  mkWorld w.(player) w.(mainNPCs) w.(npcs) (updateAt i toggle w.(nodes)).

(** The door branch for the node at index [i]. *)
Definition useDoor (w : World) (i : nat) : World * Outcome :=
  match nth_error w.(nodes) i with
  | Some n =>
      match n.(doorData) with
      | Some d =>
          let message :=
            if d.(isOpen) then "Closing door..." else "Opening door..." in
          let target :=
            if n.(hasDoorMesh)
            then Some (if negb d.(isOpen) then PI / 2 else 0)
            else None in
          (toggleDoor w i, UseDoor i d.(doorType) message target)
      | None => (w, Nothing)
      end
  | None => (w, Nothing)
  end.

Definition tryDoor (w : World) : World * Outcome :=
  match closestInteractable w with
  | Some (i, distance) =>
      if ltb distance interactionDistance then useDoor w i else (w, Nothing)
  | None => (w, Nothing)
  end.

(** The handler of the E key: a character in range comes first, then a
    door in range, else nothing. *)
Definition pressE (w : World) : World * Outcome :=
  match closestNPC w with
  | Some ((r, p), distance) =>
      if ltb distance interactionDistance then
        (w, TalkTo r (Wander.atan2 (w.(player).(x) - p.(x))
                                   (w.(player).(z) - p.(z))))
      else tryDoor w
  | None => tryDoor w
  end.

(** The doors in the order of the walk, each with the index of its node
    and the distance the handler measures to it. *)
Definition doors (w : World) : list (nat * R) :=
  flat_map
    (fun e =>
       match (snd e).(doorData) with
       | Some d => [(fst e, distanceTo w.(player) (doorWorldPos (snd e) d))]
       | None => []
       end)
    (indexed (fun i => i) 0 w.(nodes)).

(** The door data [createBritishHouse] puts on the house group, and the
    house as the handler reads it once it is placed at [p] in its street:
    the door group below it holds the mesh named door. *)
Definition houseDoorData (isBeanHouse : bool) : DoorData :=
  mkDoorData (vec3 0 0 3) false
    (if isBeanHouse then "Mr. Bean's House" else "House").

Definition createBritishHouse (isBeanHouse : bool) (p : Vector3) : Node :=
  mkNode p (Some (houseDoorData isBeanHouse)) true.

(** The houses of [createArbourRoad], in the order they are added. *)
Definition createArbourRoad : list Node :=
  createBritishHouse true (vec3 0 0 0)
  :: createBritishHouse false (vec3 8 0 0)
  :: map (fun i => createBritishHouse false (vec3 (i * 8) 0 0)) [-2; -1; 2].

(** Where [createCity] puts the street. *)
Definition arbourRoadPosition : Vector3 := vec3 (-40) 0 (-30).

(** Where the door of a house of the street stands in the world. *)
Definition doorInWorld (house : Node) (d : DoorData) : Vector3 :=
  add (add arbourRoadPosition house.(position)) d.(doorPosition).

(** The doors of the scene are those of the street, open or closed. *)
Definition streetDoorsOnly (w : World) : Prop :=
  forall n d,
    In n w.(nodes) -> n.(doorData) = Some d ->
    d.(doorPosition) = vec3 0 0 3 /\
    exists house, In house createArbourRoad /\ n.(position) = house.(position).

(** The horizontal offset of the player from [p]. *)
Definition offsetTo (w : World) (p : Vector3) : Vector3 :=
  vec3 (w.(player).(x) - p.(x)) 0 (w.(player).(z) - p.(z)).

Definition openingMessage (wasOpen : bool) : string :=
  if wasOpen then "Closing door..." else "Opening door...".

End Targeting.

(** A house door right where the player stands, and nobody around. *)
Definition atTheDoor : Targeting.World :=
  Targeting.mkWorld origin [] []
    [ Targeting.mkNode (vec3 0 0 (-3))
        (Some (Targeting.mkDoorData (vec3 0 0 3) false "House"%string))
        true ].

(** The same with a main character one unit away. *)
Definition withCompany : Targeting.World :=
  Targeting.mkWorld origin [vec3 1 0 0] [] (Targeting.nodes atTheDoor).

(** The player at the front door of Mr. Bean's house, the houses of the
    street being the nodes of the scene. *)
Definition atBeanHouseDoor : Targeting.World :=
  Targeting.mkWorld (vec3 (-40) 0 (-27)) [] [] Targeting.createArbourRoad.


(** ** The swing of a door ([animateDoor]) *)
Module Door.

(** One call of [animateDoor]: the rotation the door had at the call, the
    rotation asked for and the time of the call, as the closure [animate]
    keeps them. *)
Record Animation := mkAnimation {
  startRotation : R;
  targetRotation : R;
  startTime : R
}.

(** [door.rotation.y], and the callbacks that wait for the next frame in
    the order of their requests. *)
Record State := mkState {
  rotation_y : R;
  pending : list Animation
}.

Definition duration : R := 1000.

Definition progress (a : Animation) (currentTime : R) : R :=
  Rmin ((currentTime - a.(startTime)) / duration) 1.

(** [1 - Math.pow(1 - progress, 3)]. *)
Definition easeProgress (progress : R) : R := 1 - (1 - progress) ^ 3.

(** What [animate(currentTime)] writes to [door.rotation.y]. *)
Definition rotationAt (a : Animation) (currentTime : R) : R :=
  a.(startRotation)
  + (a.(targetRotation) - a.(startRotation))
    * easeProgress (progress a currentTime).

(** One call of the closure: it writes the rotation and asks for the next
    frame while [progress < 1]. *)
Definition animate (currentTime : R) (s : State) (a : Animation) : State :=
  mkState (rotationAt a currentTime)
    (if ltb (progress a currentTime) 1
     then (s.(pending) ++ [a])%list else s.(pending)).

(** A frame of the browser: the callbacks requested before it run in the
    order of their requests; what they request waits for the next
    frame. *)
Definition frame (currentTime : R) (s : State) : State :=
  fold_left (animate currentTime) s.(pending) (mkState s.(rotation_y) []).

(** [animateDoor(door, targetRotation)] called at time [now]. *)
Definition animateDoor (target now : R) (s : State) : State :=
  mkState s.(rotation_y)
    (s.(pending) ++ [mkAnimation s.(rotation_y) target now])%list.

Inductive Event :=
| Press (targetRotation now : R)
| Frame (currentTime : R).

Definition step (s : State) (e : Event) : State :=
  match e with
  | Press target now => animateDoor target now s
  | Frame currentTime => frame currentTime s
  end.

Definition run (events : list Event) (s : State) : State :=
  fold_left step events s.

(** The callbacks that ask for another frame at [currentTime]. *)
Definition unfinished (currentTime : R) (l : list Animation)
  : list Animation :=
  filter (fun a => ltb (progress a currentTime) 1) l.

End Door.

(** The state of a door whose last swing to [target] began at [t0]: the
    swing is the last of the waiting callbacks, none of which began after
    it; or everything is over and the door is at [target]. *)
Inductive Settling (target t0 : R) : Door.State -> Prop :=
| swinging r pre r0 :
    Forall (fun a => Door.startTime a <= t0) pre ->
    Settling target t0
      (Door.mkState r (pre ++ [Door.mkAnimation r0 target t0])%list)
| settled : Settling target t0 (Door.mkState target []).

(** A door opened at time 0 and closed again half a second later, with
    frames in between and after. *)
Definition hastyVisitor : list Door.Event :=
  [ Door.Press (PI / 2) 0; Door.Frame 16; Door.Frame 480 ].


(** ** The camera ([updateCamera] and the 0 key) *)
Module Camera.

Definition thirdPersonCameraOffset : Vector3 := vec3 0 3 (-6).
Definition firstPersonCameraOffset : Vector3 := vec3 0 (17 / 10) (3 / 10).
Definition smoothFactor : R := 15 / 100.

(** [this.lerp(v, alpha)] of [Vector3]. *)
Definition lerp (this v : Vector3) (alpha : R) : Vector3 :=
  vec3 (this.(x) + (v.(x) - this.(x)) * alpha)
       (this.(y) + (v.(y) - this.(y)) * alpha)
       (this.(z) + (v.(z) - this.(z)) * alpha).

(** The camera mode, the offset in use and [camera.position]. *)
Record State := mkState {
  isFirstPerson : bool;
  cameraOffset : Vector3;
  position : Vector3
}.

(** The constructor: third person, the camera behind the start of the
    player. *)
Definition initial : State :=
  mkState false thirdPersonCameraOffset (vec3 (-38) 3 (-34)).

(** The 0 key. *)
Definition toggleView (s : State) : State :=
  let firstPerson := negb s.(isFirstPerson) in
  mkState firstPerson
    (if firstPerson then firstPersonCameraOffset else thirdPersonCameraOffset)
    s.(position).

(** [targetPosition]: the offset, without its [x], turned with the player
    and added to the player's position. *)
Definition targetPosition (s : State) (player : Movement.Player) : Vector3 :=
  add (Movement.position player)
    (applyAxisAngleY (vec3 0 s.(cameraOffset).(y) s.(cameraOffset).(z))
       (Movement.rotation_y player)).

Definition updateCamera (s : State) (player : Movement.Player) : State :=
  mkState s.(isFirstPerson) s.(cameraOffset)
    (lerp s.(position) (targetPosition s player) smoothFactor).

(** [n] frames with the player at rest. *)
Fixpoint follow (n : nat) (s : State) (player : Movement.Player) : State :=
  match n with
  | O => s
  | S k => follow k (updateCamera s player) player
  end.

End Camera.


(** ** Vocabulary of the challenge invariants *)
Section ChallengeOrder.
Import Cast Challenges.
Local Open Scope string_scope.

(** A challenge in good order: it has its three steps, a step is done
    only when the step before it is, and the challenge is completed
    exactly when all its steps are done. *)
Definition orderly (c : Challenge) : Prop :=
  List.length c.(steps) = 3%nat /\
  (forall n, stepDone c (S n) = Some true -> stepDone c n = Some true) /\
  c.(completed) = forallb stepCompleted c.(steps).

(** The catalog in good order: the three challenges with their ids, each
    in good order, and the active one, if any, is one of them and is not
    completed.  The dialogue box exists. *)
Definition consistent (g : Game) : Prop :=
  map id g.(challenges) = [1; 2; 3]%nat /\
  Forall orderly g.(challenges) /\
  match g.(activeChallenge) with
  | Some a =>
      exists c, nth_error g.(challenges) a = Some c /\ c.(completed) = false
  | None => True
  end /\
  g.(dialogElement) = true.

(** The objects the talks of a session hand to [showDialog]. *)
Definition talkedTo (inputs : list Input) : list NPC :=
  flat_map
    (fun i => match i with Talk npc _ _ => [npc] | _ => [] end)
    inputs.

(** An effect that comes from the pools: a generic line under the name
    Citizen, or a line of a main character that was talked to, under its
    name. *)
Definition fromPools (random : nat -> nat) (talked : list NPC) (e : Effect)
  : Prop :=
  match e with
  | Shown speaker message =>
      (speaker = Some "Citizen"
       /\ exists k, message = pick random k genericDialogs)
      \/ exists npc u k,
           In npc talked /\ npc.(userData) = Some u /\
           u.(isMainNPC) = true /\ speaker = u.(name) /\
           message = pick random k u.(dialogs)
  | InteractSound => True
  end.

(** An object [showDialog] treats as a stranger: it has no [userData], or
    [isMainNPC] is not set in it. *)
Definition stranger (npc : NPC) : Prop :=
  forall u, npc.(userData) = Some u -> u.(isMainNPC) = false.

(** Everything shown so far comes from the pools. *)
Definition pooled (random : nat -> nat) (talked : list NPC) (g : Game)
  : Prop :=
  Forall (fromPools random talked) g.(effects).

End ChallengeOrder.

(** A session in which challenge 2 is started, its first step is done at
    the car, and Rupert is asked for help. *)
Definition askingRupert : list Challenges.Input :=
  [ Challenges.Start 2; Challenges.Talk Cast.mrsWicket atCar cityChildren ].


(** ** Vocabulary of the freeze *)
Section FreezeOrder.
Import Freeze.
Local Open Scope N_scope.

Definition sameRef (r1 r2 : Ref) : bool :=
  match r1, r2 with
  | Main i, Main j => Nat.eqb i j
  | Regular i, Regular j => Nat.eqb i j
  | _, _ => false
  end.

(** The times of the talks with [r], in the order of the session. *)
Definition talksWith (r : Ref) (interactions : list (N * Ref)) : list N :=
  map fst (filter (fun e => sameRef (snd e) r) interactions).

(** Each talk comes a full freeze or more after the one before it. *)
Fixpoint spaced (times : list N) : Prop :=
  match times with
  | t1 :: rest =>
      match rest with
      | t2 :: _ => t1 + freezeDuration <= t2 /\ spaced rest
      | [] => True
      end
  | [] => True
  end.

Definition lastTalk (r : Ref) (interactions : list (N * Ref)) : option N :=
  match rev (talksWith r interactions) with
  | t :: _ => Some t
  | [] => None
  end.

(** The pending timers that will write to [r]. *)
Definition timersFor (r : Ref) (s : State) : list Timer :=
  filter (fun t => sameRef t.(closestNPC) r) s.(timers).

(** The main character at index [i] has a [userData]. *)
Definition hasUserData (i : nat) (s : State) : Prop :=
  exists npc u,
    nth_error s.(mainNPCs) i = Some npc /\ npc.(userData) = Some u.

(** The main character at index [i] in the course of a session: it walks
    at its speed [v] and no timer is waiting for it, or it is stopped and
    the timer of the talk at [tl] is waiting with [v] in its closure. *)
Definition walking (i : nat) (v : option R) (s : State) : Prop :=
  hasUserData i s /\ movementSpeed s (Main i) = v
  /\ timersFor (Main i) s = [].

Definition frozen (i : nat) (v : option R) (tl : N) (s : State) : Prop :=
  hasUserData i s /\ movementSpeed s (Main i) = Some 0%R
  /\ timersFor (Main i) s = [mkTimer (tl + freezeDuration) (Main i) v].

(** What holds of the character after a part of a session all of whose
    talks came by the time [bound]. *)
Definition freezeInvariant (i : nat) (v : option R) (bound : N)
    (interactions : list (N * Ref)) (s : State) : Prop :=
  match lastTalk (Main i) interactions with
  | None => walking i v s
  | Some tl =>
      frozen i v tl s \/ (walking i v s /\ tl + freezeDuration <= bound)
  end.

(** Every background character has the [userData] three.js gives it. *)
Definition plainCrowd (s : State) : Prop :=
  Forall (fun npc => npc.(userData) <> None) s.(npcs).

(** Two main characters; the first is talked to twice, 40 seconds apart,
    and the second in between. *)
Definition neighbours : State := mkState [createMainNPC; createMainNPC] [] [].

Definition patientVisitor : list (N * Ref) :=
  [(0, Main 0%nat); (10000, Main 1%nat); (40000, Main 0%nat)].

(** A main and a background character, both talked to. *)
Definition passerBy : State :=
  mkState [createMainNPC] [createNPC (2 / 100)] [].

Definition chattyVisitor : list (N * Ref) :=
  [(0, Regular 0%nat); (5000, Main 0%nat); (20000, Regular 0%nat)].

End FreezeOrder.


(** ** The main characters of [setupNPCs] *)
Module Village.

(** [mainNPCConfigs]: who, and where. *)
Definition mainNPCConfigs : list (Cast.NPC * Vector3) :=
  [ (Cast.mrsWicket, vec3 (-42) 0 (-32));
    (Cast.irmaGobb, vec3 25 0 (-25));
    (Cast.rupert, vec3 (-34) 0 (-32)) ].

(** The main characters at some moment of play: each was created from its
    config, with some first heading, and has since gone through frames of
    the movement loop and through the interaction handler. *)
Definition inPlay (npcs : list Wander.MainNPC) : Prop :=
  Forall2
    (fun config npc =>
       exists u events,
         npc = Wander.run (Wander.createMainNPC (snd config) u) events)
    mainNPCConfigs npcs.

(** The world the E key handler sees when the main characters are
    [npcs]. *)
Definition seenBy (w : Targeting.World) (npcs : list Wander.MainNPC) : Prop :=
  Targeting.mainNPCs w = map Wander.position npcs.

End Village.

(** A talk at a place where the E key handler can lead to it: the player
    stands less than 7 from where the config of a main character puts it
    (5 of wander and 2 of reach); a background character can be met
    anywhere. *)
Definition nearHome (i : Challenges.Input) : Prop :=
  match i with
  | Challenges.Talk npc playerPosition _ =>
      forall config,
        In config Village.mainNPCConfigs -> fst config = npc ->
        distanceTo playerPosition (snd config) < 7
  | _ => True
  end.

(** The player beside Rupert, who has not moved yet. *)
Definition rupertAtHome : list Wander.MainNPC :=
  map (fun config => Wander.createMainNPC (snd config) 0)
    Village.mainNPCConfigs.

Definition besideRupert : Targeting.World :=
  Targeting.mkWorld (vec3 (-34) 0 (-31))
    (map Wander.position rupertAtHome) [] [].


(** ** The dialogue box and its timers *)
Module DialogBox.

Local Open Scope N_scope.

(** Whether the box and the chat input are displayed, who the chat goes
    to, and the times at which a pending [setTimeout] callback will call
    [hideDialog].  The texts are left out.  Times are in milliseconds. *)
Record State := mkState {
  display : bool;
  chatDisplay : bool;
  currentNPC : option Cast.NPC;
  timers : list N
}.

(** [createDialogElement]: both hidden. *)
Definition createDialogElement : State := mkState false false None [].

Definition showDialog (npc : Cast.NPC) (s : State) : State :=
  mkState true true (Some npc) s.(timers).

Definition hideDialog (s : State) : State :=
  mkState false false None s.(timers).

Definition setTimeout (now delay : N) (s : State) : State :=
  mkState s.(display) s.(chatDisplay) s.(currentNPC)
    (s.(timers) ++ [now + delay]).

(** [showInteractionMessage] and [showStoreMessage] display the box and
    leave the chat input and [currentNPC] as they are. *)
Definition showInteractionMessage (now : N) (s : State) : State :=
  setTimeout now 2000
    (mkState true s.(chatDisplay) s.(currentNPC) s.(timers)).

Definition showStoreMessage (now : N) (s : State) : State :=
  setTimeout now 3000
    (mkState true s.(chatDisplay) s.(currentNPC) s.(timers)).

(** What opens the box: the E key with a character in range
    ([showDialog], then the timer of 30 seconds), a call of [showDialog]
    by the challenge code (no timer), the E key at a door, and a store
    message. *)
Inductive Event :=
| Talk (npc : Cast.NPC)
| Notice (npc : Cast.NPC)
| DoorMessage
| StoreMessage.

Definition handle (now : N) (e : Event) (s : State) : State :=
  match e with
  | Talk npc => setTimeout now 30000 (showDialog npc s)
  | Notice npc => showDialog npc s
  | DoorMessage => showInteractionMessage now s
  | StoreMessage => showStoreMessage now s
  end.

(** The clock reaches [now]: the callbacks due by then run. *)
Definition elapse (now : N) (s : State) : State :=
  let due := filter (fun t => t <=? now) s.(timers) in
  let pending := filter (fun t => negb (t <=? now)) s.(timers) in
  let s1 := fold_left (fun st _ => hideDialog st) due s in
  mkState s1.(display) s1.(chatDisplay) s1.(currentNPC) pending.

Definition play (session : list (N * Event)) (s : State) : State :=
  fold_left (fun st e => handle (fst e) (snd e) (elapse (fst e) st))
    session s.

Definition stateAt (session : list (N * Event)) (now : N) : State :=
  elapse now (play session createDialogElement).

(** The delay of the timer an event starts, if it starts one. *)
Definition delayOf (e : Event) : option N :=
  match e with
  | Talk _ => Some 30000
  | Notice _ => None
  | DoorMessage => Some 2000
  | StoreMessage => Some 3000
  end.

(** The times at which the timers of a session run out. *)
Definition deadlines (session : list (N * Event)) : list N :=
  flat_map
    (fun e => match delayOf (snd e) with
              | Some d => [fst e + d]
              | None => []
              end)
    session.

End DialogBox.

(** A door is used at time 0; the talk that follows it a second later is
    added where the session is used. *)
Definition doorThenTalk : list (N * DialogBox.Event) :=
  [(0%N, DialogBox.DoorMessage)].


(** ** Visibility culling ([updateVisibility]) *)
Module Visibility.

(** A node of the scene as the culling reads it: its [position] (relative
    to its parent), whether it is a mesh or a group, whether it is the
    player or the camera, [isBuilding], the length of its [scale],
    whether the enlarged bounding sphere meets the view frustum, and
    [visible]. *)
Record Node := mkNode {
  position : Vector3;
  isMesh : bool;
  isGroup : bool;
  isPlayerOrCamera : bool;
  isBuilding : bool;
  scaleLength : R;
  inFrustum : bool;
  visible : bool
}.

(** The value of [object.visible] after the callback of the traversal has
    run on [object]. *)
Definition updateVisibility (playerPos cameraPos : Vector3) (object : Node)
  : bool :=
  if object.(isMesh) || object.(isGroup) then
    if object.(isPlayerOrCamera) then object.(visible)
    else
      let distanceToPlayer := distanceTo object.(position) playerPos in
      let distanceToCamera := distanceTo object.(position) cameraPos in
      if ltb distanceToCamera 3 then true
      else if ltb 60 distanceToPlayer then false
      else if object.(isBuilding) || ltb 5 object.(scaleLength) then true
      else object.(inFrustum)
  else object.(visible).

(** The group of a house of [createBritishHouse] placed at [p] in its
    street: a group, flagged as a building, of scale (1, 1, 1). *)
Definition house (p : Vector3) (inFrustum visible : bool) : Node :=
  mkNode p false true false true (sqrt (1 * 1 + 1 * 1 + 1 * 1))
    inFrustum visible.

End Visibility.


(** ** The game loop ([animate]) *)
Module Loop.

(** What a frame works on: the player, the camera, the characters,
    [frameCount], and the number of calls of [Math.random()] so far. *)
Record State := mkState {
  player : Movement.Player;
  camera : Camera.State;
  mainNPCs : list Wander.MainNPC;
  npcs : list Crowd.NPC;
  frameCount : nat;
  randomDraws : nat
}.

Section WithWorld.

(** The static world, and [random k] for the [k]-th value of
    [Math.random()]. *)
Variable wd : Movement.World.
Variable random : nat -> R.

(** The calls of [Math.random()] in the body of either loop for one
    character: none when the character is culled, one for the test of
    the occasional turn, one more when that test succeeds. *)
Definition draws (isAdvanced : bool) (k : nat) : nat :=
  if isAdvanced then if ltb (random k) (2 / 100) then 2 else 1 else 0.

(** [this.mainNPCs.forEach(...)]. *)
Fixpoint updateMainNPCs (playerPos : Vector3) (k : nat)
    (l : list Wander.MainNPC) : list Wander.MainNPC * nat :=
  match l with
  | [] => ([], k)
  | npc :: rest =>
      let npc' :=
        Wander.updateMainNPC playerPos (random k) (random (S k)) npc in
      let (rest', k') :=
        updateMainNPCs playerPos
          (k + draws (Wander.advanced playerPos npc) k) rest in
      (npc' :: rest', k')
  end.

(** [this.npcs.forEach(...)]. *)
Fixpoint updateNPCs (playerPos : Vector3) (k : nat) (l : list Crowd.NPC)
  : list Crowd.NPC * nat :=
  match l with
  | [] => ([], k)
  | npc :: rest =>
      let npc' := Crowd.updateNPC playerPos (random k) (random (S k)) npc in
      let (rest', k') :=
        updateNPCs playerPos
          (k + draws (Crowd.advanced playerPos npc) k) rest in
      (npc' :: rest', k')
  end.

(** [updateNPCsWithCulling]: the two loops, one after the other. *)
Definition updateNPCsWithCulling (s : State) : State :=
  let playerPos := Movement.position s.(player) in
  let (mains, k1) := updateMainNPCs playerPos s.(randomDraws) s.(mainNPCs) in
  let (crowd, k2) := updateNPCs playerPos k1 s.(npcs) in
  mkState s.(player) s.(camera) mains crowd s.(frameCount) k2.

(** [animate] with the keys held during the frame: the player moves and
    the camera follows; the characters are updated when [frameCount] is
    even; [frameCount] goes up by one. *)
Definition animate (s : State) (keys : Movement.Keys) : State :=
  let player' := Movement.updatePlayer wd keys s.(player) in
  let s1 :=
    mkState player' (Camera.updateCamera s.(camera) player')
      s.(mainNPCs) s.(npcs) s.(frameCount) s.(randomDraws) in
  let s2 := if Nat.even s.(frameCount) then updateNPCsWithCulling s1 else s1 in
  mkState s2.(player) s2.(camera) s2.(mainNPCs) s2.(npcs)
    (s2.(frameCount) + 1) s2.(randomDraws).

Definition run (s : State) (frames : list Movement.Keys) : State :=
  fold_left animate frames s.

End WithWorld.

(** The game when the loop starts: the player and the camera as the
    constructor leaves them, the characters as [setupNPCs] made them,
    after [k] calls of [Math.random()]. *)
Definition start (mains : list Wander.MainNPC) (crowd : list Crowd.NPC)
    (k : nat) : State :=
  mkState Movement.setupPlayer Camera.initial mains crowd 0 k.


End Loop.

(** A background character has kept its speed and is within [reach] of
    where it was. *)
Definition strayed (reach : R) (before after : Crowd.NPC) : Prop :=
  Crowd.walkSpeed after = Crowd.walkSpeed before
  /\ distanceTo (Crowd.position after) (Crowd.position before)
     <= reach * Rabs (Crowd.walkSpeed before).


(** The places [createPark] can draw for its trees:
    [(Math.random() - 0.5) * 35] on both horizontal axes, on the ground. *)
Definition parkTrees (trees : list Vector3) : Prop :=
  Forall
    (fun t => - (35 / 2) <= t.(x) <= 35 / 2 /\ t.(y) = 0
              /\ - (35 / 2) <= t.(z) <= 35 / 2)
    trees.

(** One tree in the middle of the park. *)
Definition loneTree : list Vector3 := [vec3 5 0 (-5)].


(** * Properties *)

Lemma ltb_true a b : ltb a b = true <-> a < b.
Proof. unfold ltb; destruct (Rlt_dec a b); split; intros; try easy; lra. Qed.

Lemma ltb_false a b : ltb a b = false <-> b <= a.
Proof. unfold ltb; destruct (Rlt_dec a b); split; intros; try easy; lra. Qed.

Lemma leb_true a b : leb a b = true <-> a <= b.
Proof. unfold leb; destruct (Rle_dec a b); split; intros; try easy; lra. Qed.

Lemma leb_false a b : leb a b = false <-> b < a.
Proof. unfold leb; destruct (Rle_dec a b); split; intros; try easy; lra. Qed.

(** Settles every comparison of the goal whose operands are numerals. *)
Ltac decide_cmp :=
  repeat match goal with
  | |- context [ltb ?u ?v] =>
      first [ replace (ltb u v) with true
                by (symmetry; apply ltb_true; cbn; lra)
            | replace (ltb u v) with false
                by (symmetry; apply ltb_false; cbn; lra) ]
  | |- context [leb ?u ?v] =>
      first [ replace (leb u v) with true
                by (symmetry; apply leb_true; cbn; lra)
            | replace (leb u v) with false
                by (symmetry; apply leb_false; cbn; lra) ]
  end.

Section MovementFacts.
Import Movement.

Variable wd : World.

Lemma clamp_range v : - maxDistance <= clamp v <= maxDistance.
Proof.
  unfold clamp, maxDistance, Rmax, Rmin.
  repeat destruct Rle_dec; lra.
Qed.

Lemma clamp_id v : - maxDistance <= v <= maxDistance -> clamp v = v.
Proof.
  unfold clamp, maxDistance, Rmax, Rmin.
  repeat destruct Rle_dec; lra.
Qed.

(** Once a loop has cleared the flag, nothing sets it again. *)
Lemma checkStores_false pb sts : checkStores pb false sts = false.
Proof.
  unfold checkStores. induction sts as [|o sts IH]; cbn; [reflexivity|].
  destruct (Three.collider o); [destruct intersectsBox|]; exact IH.
Qed.

Lemma checkScene_list_false pb l :
  fold_left
    (fun can object =>
       match Three.collider object with
       | Some c =>
           if negb (isStore object) then
             if intersectsBox (translate c (Three.position object)) pb
             then false else can
           else can
       | None => can
       end) l false = false.
Proof.
  induction l as [|o l IH]; cbn; [reflexivity|].
  destruct (Three.collider o); [destruct (negb _); [destruct intersectsBox|]|];
    exact IH.
Qed.

Lemma checkStores_hit pb can sts o b :
  In o sts -> queryBox o = Some b -> intersectsBox b pb = true ->
  checkStores pb can sts = false.
Proof.
  unfold checkStores, queryBox.
  revert can. induction sts as [|o' sts IH]; intros can Hin Hq Hi; [easy|].
  cbn. destruct Hin as [->|Hin].
  - destruct (Three.collider o) as [c|]; [|discriminate].
    injection Hq as <-. rewrite Hi. apply checkStores_false.
  - now apply IH.
Qed.

Lemma checkScene_hit pb can sc o b :
  In o (traverse sc) -> isStore o = false ->
  queryBox o = Some b -> intersectsBox b pb = true ->
  checkScene pb can sc = false.
Proof.
  unfold checkScene, queryBox.
  revert can. induction (traverse sc) as [|o' l IH]; intros can Hin Hs Hq Hi;
    [easy|].
  cbn. destruct Hin as [->|Hin].
  - destruct (Three.collider o) as [c|]; [|discriminate].
    injection Hq as <-. rewrite Hs, Hi. cbn. apply checkScene_list_false.
  - now apply IH.
Qed.

Lemma checkScene_false pb sc : checkScene pb false sc = false.
Proof. apply checkScene_list_false. Qed.

Lemma canMove_hit k p o b :
  registered wd o -> queryBox o = Some b ->
  intersectsBox b (playerBox k p) = true ->
  canMove wd k p = false.
Proof.
  intros [Hin|[Hin Hs]] Hq Hi; unfold canMove.
  - rewrite (checkStores_hit _ _ _ _ _ Hin Hq Hi). apply checkScene_false.
  - eapply checkScene_hit; eauto.
Qed.

Lemma updatePlayer_inBounds k p : inBounds (position (updatePlayer wd k p)).
Proof. split; cbn; apply clamp_range. Qed.

Lemma setupPlayer_inBounds : inBounds (position setupPlayer).
Proof. unfold inBounds, maxDistance; cbn; lra. Qed.

Lemma run_snoc frames k :
  run wd (frames ++ [k]) = updatePlayer wd k (run wd frames).
Proof. unfold run. now rewrite fold_left_app. Qed.

Lemma run_inBounds frames : inBounds (position (run wd frames)).
Proof.
  destruct frames as [|k frames] using rev_ind.
  - apply setupPlayer_inBounds.
  - rewrite run_snoc. apply updatePlayer_inBounds.
Qed.

Lemma rejected_keeps_position k p :
  inBounds (position p) -> canMove wd k p = false ->
  position (updatePlayer wd k p) = position p.
Proof.
  intros [Hx Hz] Hc. unfold updatePlayer. rewrite Hc. cbn.
  rewrite (clamp_id _ Hx), (clamp_id _ Hz). now destruct (position p).
Qed.

End MovementFacts.

(** ** Player movement: the claims *)

Lemma storeAhead_blocks :
  intersectsBox
    (translate (box3 (vec3 (- (8 / 2)) 0 (- (8 / 2))) (vec3 (8 / 2) 4 (8 / 2)))
       (vec3 (-38) 0 (-24)))
    (Movement.playerBox keyW (Movement.run storeAhead [])) = true.
Proof.
  unfold intersectsBox, Movement.playerBox, Movement.nextPosition,
    Movement.velocity, Movement.rotate, Movement.run, Movement.setupPlayer,
    Movement.moveSpeed, Movement.playerSize.
  cbn. rewrite cos_0, sin_0. decide_cmp. reflexivity.
Qed.

(** What the resolver does guarantee, in terms of the box a query
    resolves (the stored box translated by the owner's [position], which
    is where the owner stands only for a child of the scene itself).  In
    every state the game reaches and for every proposed move, if the
    footprint box of the candidate position (0.4 x 1.8 x 0.4 around it)
    meets the box a query resolves for some registered collider [C], the
    player's position after [updatePlayer] is the position before it.
    The frame is all or nothing: the new position is the old one, or the
    candidate held inside the world square. *)
Theorem collision_rejects_whole_move :
  forall (wd : Movement.World) (frames : list Movement.Keys)
         (k : Movement.Keys),
    let p := Movement.run wd frames in
    (forall (C : Object3D) (b : Box3),
        Movement.registered wd C ->
        Movement.queryBox C = Some b ->
        intersectsBox b (Movement.playerBox k p) = true ->
        Movement.position (Movement.updatePlayer wd k p)
        = Movement.position p)
    /\ (Movement.position (Movement.updatePlayer wd k p)
        = Movement.position p
        \/ Movement.position (Movement.updatePlayer wd k p)
           = vec3 (Movement.clamp (Movement.nextPosition k p).(x))
                  (Movement.nextPosition k p).(y)
                  (Movement.clamp (Movement.nextPosition k p).(z))).
Proof.
  intros wd frames k p. split.
  - intros C b HC Hq Hi. apply rejected_keeps_position.
    + apply run_inBounds.
    + eapply canMove_hit; eauto.
  - destruct (Movement.canMove wd k p) eqn:Hc.
    + right. unfold Movement.updatePlayer. now rewrite Hc.
    + left. apply rejected_keeps_position; [apply run_inBounds|exact Hc].
Qed.

Lemma collision_rejects_whole_move_witness :
  Movement.position
    (Movement.updatePlayer storeAhead keyW (Movement.run storeAhead []))
  = Movement.position (Movement.run storeAhead []).
Proof.
  refine (proj1 (collision_rejects_whole_move storeAhead [] keyW)
            (City.createStore (vec3 (-38) 0 (-24))) _ _ _ _).
  - left. cbn. left. reflexivity.
  - reflexivity.
  - exact storeAhead_blocks.
Defined.

(** C3 (boundary containment).  After every call of [updatePlayer],
    whatever the position before it and whether the move was taken or
    refused, both horizontal coordinates lie in [-95, 95]. *)
Theorem player_stays_in_world_square :
  forall (wd : Movement.World) (k : Movement.Keys) (p : Movement.Player),
    let p' := Movement.updatePlayer wd k p in
    -95 <= (Movement.position p').(x) <= 95 /\
    -95 <= (Movement.position p').(z) <= 95.
Proof.
  intros wd k p p'. pose proof (updatePlayer_inBounds wd k p) as H.
  unfold Movement.inBounds, Movement.maxDistance in H. exact H.
Qed.

(** ** Colliders of nested objects *)

Lemma beanHouse_in_city trees :
  In (beanHouseWorldPosition, beanHouse)
     (traverseWorld origin (Movement.scene (City.createCity trees))).
Proof.
  cbn. right. right. left. unfold beanHouseWorldPosition.
  f_equal. unfold add, origin. cbn. f_equal; lra.
Qed.

(** C2, evaluated on Mr. Bean's house.  The house stands at (-40, 0, -30)
    in the world (the Arbour Road group is placed there and the house sits
    at the group's origin), but the box a query resolves for it is its
    stored box translated by the house's own [position], which is the
    offset inside the group: the box lies around the world origin instead
    of around the house.  So the colliders of the city do not follow their
    owners. *)
Theorem nested_collider_not_at_owner :
  forall trees : list Vector3,
    Movement.queryBox beanHouse
    = Some (box3 (vec3 (-3 + 0) (0 + 0) (-3 + 0)) (vec3 (3 + 0) (8 + 0) (3 + 0)))
    /\ ~ City.followsOwner (Movement.scene (City.createCity trees)).
Proof.
  intros trees. split; [reflexivity|].
  intros H.
  specialize (H _ _ _ (beanHouse_in_city trees) eq_refl).
  cbn in H. injection H as H _. lra.
Qed.

(** The same on a park bench: [createPark] stores the box already moved by
    the bench's place in the park, and the query moves it by that place
    once more.  The bench placed at (15, 0, 15) stands at (15, 0, 45) in
    the world; its query box lies around (30, 0, 30). *)
Lemma park_bench_query_box :
  Movement.queryBox (City.parkBench (vec3 15 0 15))
  = Some (box3 (vec3 (-1 + 15 + 15) (0 + 0 + 0) (- (3 / 10) + 15 + 15))
               (vec3 (1 + 15 + 15) (8 / 10 + 0 + 0) (3 / 10 + 15 + 15))).
Proof. reflexivity. Qed.

(** What this means in play: the player starts inside the footprint of
    Mr. Bean's house, and the first step forward, which stays inside it,
    is taken. *)
Lemma player_walks_through_bean_house :
  intersectsBox
    (translate (box3 (vec3 (-3) 0 (-3)) (vec3 3 8 3)) beanHouseWorldPosition)
    (Movement.playerBox keyW Movement.setupPlayer) = true
  /\ Movement.canMove (City.createCity []) keyW Movement.setupPlayer = true.
Proof.
  unfold Movement.canMove, Movement.checkScene, Movement.checkStores,
    intersectsBox, Movement.playerBox, Movement.nextPosition,
    Movement.velocity, Movement.rotate, Movement.setupPlayer,
    Movement.moveSpeed, Movement.playerSize, beanHouseWorldPosition.
  cbn. rewrite cos_0, sin_0. decide_cmp. split; reflexivity.
Qed.

(** ** The wander radius *)

Section WanderFacts.
Import Wander.

Lemma distanceTo_self v : distanceTo v v = 0.
Proof.
  unfold distanceTo, distanceToSquared. cbn.
  replace (_ + _) with 0 by ring. apply sqrt_0.
Qed.

Lemma createMainNPC_tethered cfg u : tethered (createMainNPC cfg u).
Proof. unfold tethered; cbn. rewrite distanceTo_self. lra. Qed.

Lemma updateMainNPC_tethered playerPos u1 u2 npc :
  tethered npc -> tethered (updateMainNPC playerPos u1 u2 npc).
Proof.
  intros H. unfold updateMainNPC.
  destruct (advanced playerPos npc); [|exact H].
  destruct (ltb _ _) eqn:Hd; unfold tethered; cbn.
  - now apply ltb_true.
  - exact H.
Qed.

Lemma step_tethered npc e : tethered npc -> tethered (step npc e).
Proof.
  destruct e; cbn; [apply updateMainNPC_tethered | easy | easy].
Qed.

Lemma step_anchor npc e :
  (step npc e).(originalPosition) = npc.(originalPosition) /\
  (step npc e).(maxWanderDistance) = npc.(maxWanderDistance).
Proof.
  destruct e; cbn; try easy. unfold updateMainNPC.
  destruct advanced; [destruct ltb|]; easy.
Qed.

Lemma run_tethered npc events : tethered npc -> tethered (run npc events).
Proof.
  unfold run. revert npc.
  induction events as [|e events IH]; intros npc H; cbn; [exact H|].
  apply IH, step_tethered, H.
Qed.

Lemma refused_step playerPos u1 u2 npc :
  advanced playerPos npc = true ->
  npc.(maxWanderDistance)
    <= distanceTo (projected u1 u2 npc) npc.(originalPosition) ->
  (updateMainNPC playerPos u1 u2 npc).(position) = npc.(position) /\
  (updateMainNPC playerPos u1 u2 npc).(walkDirection) = angleToOrigin npc /\
  (updateMainNPC playerPos u1 u2 npc).(rotation_y) = angleToOrigin npc.
Proof.
  intros Ha Hd. unfold updateMainNPC. rewrite Ha.
  apply ltb_false in Hd. rewrite Hd. cbn. easy.
Qed.

(** [atan2] is the bearing of the point: the unit vector of that angle,
    scaled by the length of [(x, y)], is [(x, y)]. *)
Lemma hypot_scaled u v :
  u <> 0 -> sqrt (u * u + v * v) = Rabs u * sqrt (1 + (v / u)²).
Proof.
  intros Hu.
  rewrite <- (sqrt_Rsqr_abs u), <- sqrt_mult.
  - f_equal. unfold Rsqr. field. exact Hu.
  - apply Rle_0_sqr.
  - pose proof (Rle_0_sqr (v / u)). lra.
Qed.

Lemma sqrt_1_sqr_pos t : 0 < sqrt (1 + t²).
Proof. apply sqrt_lt_R0. pose proof (Rle_0_sqr t). lra. Qed.

Lemma atan2_bearing v u :
  (u <> 0 \/ v <> 0) ->
  cos (atan2 v u) * sqrt (u * u + v * v) = u /\
  sin (atan2 v u) * sqrt (u * u + v * v) = v.
Proof.
  intros Hne. unfold atan2.
  destruct (Rlt_dec 0 u) as [Hpos|Hnpos].
  - rewrite cos_atan, sin_atan, hypot_scaled by lra.
    rewrite Rabs_right by lra.
    pose proof (sqrt_1_sqr_pos (v / u)). split; field; lra.
  - destruct (Rlt_dec u 0) as [Hneg|Hnneg].
    + pose proof (sqrt_1_sqr_pos (v / u)).
      destruct (Rle_dec 0 v).
      * rewrite neg_cos, neg_sin, cos_atan, sin_atan, hypot_scaled by lra.
        rewrite Rabs_left by lra. split; field; lra.
      * unfold Rminus. rewrite cos_plus, sin_plus, cos_neg, sin_neg.
        rewrite cos_PI, sin_PI, cos_atan, sin_atan, hypot_scaled by lra.
        rewrite Rabs_left by lra. split; field; lra.
    + assert (u = 0) as -> by lra.
      replace (0 * 0 + v * v) with (v²) by (unfold Rsqr; ring).
      rewrite sqrt_Rsqr_abs.
      destruct (Rlt_dec 0 v).
      * rewrite cos_PI2, sin_PI2, Rabs_right by lra. lra.
      * destruct (Rlt_dec v 0); [|lra].
        rewrite cos_neg, sin_neg, cos_PI2, sin_PI2, Rabs_left by lra. lra.
Qed.

End WanderFacts.

Lemma npcAtEdge_projected_outside :
  Wander.maxWanderDistance npcAtEdge
  < distanceTo (Wander.projected 1 0 npcAtEdge)
               (Wander.originalPosition npcAtEdge).
Proof.
  unfold distanceTo, distanceToSquared, Wander.projected, Wander.perturbed.
  cbn. decide_cmp. rewrite cos_0, sin_0.
  replace 5 with (sqrt 25) at 1
    by (replace 25 with (5 * 5) by lra; apply sqrt_square; lra).
  apply sqrt_lt_1_alt. lra.
Qed.

(** C4 (wander radius).  From its creation on, through any run of frames
    and interactions, a main character stays within its wander radius of
    its anchor.  A frame projects a step for a character it advances (one
    within 50 of the player); when that step would leave the radius, the
    position is kept and the heading becomes [atan2] of the offset to the
    anchor, whatever the random turn drew.  That angle is the bearing
    towards the anchor: its unit vector scaled by the horizontal distance
    is the offset. *)
Theorem wander_radius_invariant :
  (forall (cfg : Vector3) (u : R) (events : list Wander.Event),
      let npc := Wander.run (Wander.createMainNPC cfg u) events in
      distanceTo (Wander.position npc) (Wander.originalPosition npc)
      <= Wander.maxWanderDistance npc)
  /\ (forall (npc : Wander.MainNPC) (playerPos : Vector3) (u1 u2 : R)
             (step : Vector3),
        Wander.newPosition playerPos u1 u2 npc = Some step ->
        Wander.maxWanderDistance npc
          < distanceTo step (Wander.originalPosition npc) ->
        let npc' := Wander.updateMainNPC playerPos u1 u2 npc in
        let dx := (Wander.originalPosition npc).(x) - (Wander.position npc).(x) in
        let dz := (Wander.originalPosition npc).(z) - (Wander.position npc).(z) in
        Wander.position npc' = Wander.position npc
        /\ Wander.walkDirection npc' = Wander.atan2 dz dx
        /\ ((dx <> 0 \/ dz <> 0) ->
            cos (Wander.walkDirection npc') * sqrt (dx * dx + dz * dz) = dx /\
            sin (Wander.walkDirection npc') * sqrt (dx * dx + dz * dz) = dz)).
Proof.
  split.
  - intros cfg u events npc. apply Rlt_le.
    apply (run_tethered _ events (createMainNPC_tethered cfg u)).
  - intros npc playerPos u1 u2 step Hs Hd npc' dx dz.
    unfold Wander.newPosition in Hs.
    destruct (Wander.advanced playerPos npc) eqn:Ha; [|discriminate].
    injection Hs as <-.
    destruct (refused_step playerPos u1 u2 npc Ha (Rlt_le _ _ Hd))
      as (Hp & Hw & _).
    fold npc' in Hp, Hw. split; [exact Hp|]. split; [exact Hw|].
    intros Hne. rewrite Hw. apply atan2_bearing. exact Hne.
Qed.

Lemma wander_radius_invariant_witness :
  Wander.position
    (Wander.updateMainNPC (vec3 (4995 / 1000) 0 0) 1 0 npcAtEdge)
  = Wander.position npcAtEdge.
Proof.
  refine (proj1 (proj2 wander_radius_invariant npcAtEdge
                   (vec3 (4995 / 1000) 0 0) 1 0
                   (Wander.projected 1 0 npcAtEdge) _ _)).
  - unfold Wander.newPosition, Wander.advanced. cbn.
    rewrite distanceTo_self.
    replace (leb 0 50) with true by (symmetry; apply leb_true; lra).
    reflexivity.
  - exact npcAtEdge_projected_outside.
Defined.

(** ** Free-text dialogue: the claims *)

Section DialogueFacts.
Import Cast Dialogue.
Local Open Scope string_scope.

Lemma getMrsWicketResponse_table m :
  getMrsWicketResponse m = firstMatch (table MrsWicket) (fallback MrsWicket) m.
Proof.
  unfold getMrsWicketResponse, firstMatch, matches; cbn.
  repeat (destruct (includes m _); cbn; try reflexivity).
Qed.

Lemma getIrmaResponse_table m :
  getIrmaResponse m = firstMatch (table IrmaGobb) (fallback IrmaGobb) m.
Proof.
  unfold getIrmaResponse, firstMatch, matches; cbn.
  repeat (destruct (includes m _); cbn; try reflexivity).
Qed.

Lemma getRupertResponse_table m :
  getRupertResponse m = firstMatch (table Rupert) (fallback Rupert) m.
Proof.
  unfold getRupertResponse, firstMatch, matches; cbn.
  repeat (destruct (includes m _); cbn; try reflexivity).
Qed.

Lemma getGenericResponse_table m :
  getGenericResponse m = firstMatch (table Generic) (fallback Generic) m.
Proof.
  unfold getGenericResponse, firstMatch, matches; cbn.
  repeat (destruct (includes m _); cbn; try reflexivity).
Qed.

Lemma handlePlayerMessage_table lower message npc :
  handlePlayerMessage lower message npc
  = firstMatch (table (identityOf npc)) (fallback (identityOf npc))
      (lower message).
Proof.
  unfold handlePlayerMessage, identityOf.
  destruct (userData npc) as [u|]; [|apply getGenericResponse_table].
  destruct (isMainNPC u); [|apply getGenericResponse_table].
  destruct (nameIs u "Mrs. Wicket"); [apply getMrsWicketResponse_table|].
  destruct (nameIs u "Irma Gobb"); [apply getIrmaResponse_table|].
  destruct (nameIs u "Rupert"); [apply getRupertResponse_table|].
  apply getGenericResponse_table.
Qed.

(** Every response of a table, and every fallback, is a non-empty text. *)
Lemma firstMatch_nonempty i m :
  firstMatch (table i) (fallback i) m <> "".
Proof.
  unfold firstMatch.
  destruct (find (matches m) (table i)) as [r|] eqn:Hf.
  - apply find_some in Hf as [Hin _].
    destruct i; cbn in Hin;
      repeat (destruct Hin as [<-|Hin]; [discriminate|]); destruct Hin.
  - destruct i; discriminate.
Qed.

(** The first rule that matches answers. *)
Lemma firstMatch_first tbl fb m pre r post :
  tbl = (pre ++ r :: post)%list ->
  (forall q, In q pre -> matches m q = false) ->
  matches m r = true ->
  firstMatch tbl fb m = snd r.
Proof.
  intros -> Hpre Hr. unfold firstMatch.
  induction pre as [|q pre IH]; cbn.
  - now rewrite Hr.
  - rewrite (Hpre q (or_introl eq_refl)). apply IH.
    intros q' Hq'. apply Hpre. now right.
Qed.

End DialogueFacts.

(** C8 (dialogue fallback totality and first match).  For every character
    (absent [userData], background or main, whatever its name), every
    message and whatever [toLowerCase] does to it, the response of
    [handlePlayerMessage] is a non-empty text; it is the answer of the
    ordered table of the character's identity read first-match-first,
    with the identity's fallback when no keyword occurs; and when the
    table splits as [pre ++ r :: post] with no rule of [pre] matching the
    lowercased message and [r] matching it, the response is that of [r],
    whatever later rules match too. *)
Theorem respond_total_first_match :
  forall (toLowerCase : string -> string) (message : string)
         (npc : Cast.NPC),
    let response := Dialogue.handlePlayerMessage toLowerCase message npc in
    let i := Dialogue.identityOf npc in
    response <> EmptyString
    /\ response
       = Dialogue.firstMatch (Dialogue.table i) (Dialogue.fallback i)
           (toLowerCase message)
    /\ forall pre r post,
        Dialogue.table i = (pre ++ r :: post)%list ->
        (forall q, In q pre ->
                   Dialogue.matches (toLowerCase message) q = false) ->
        Dialogue.matches (toLowerCase message) r = true ->
        response = snd r.
Proof.
  intros lower message npc response i. subst response i.
  rewrite handlePlayerMessage_table. split; [apply firstMatch_nonempty|].
  split; [reflexivity|].
  intros pre r post Ht Hpre Hr. eapply firstMatch_first; eauto.
Qed.

(** Both the rent rule and the cat rule match; the rent rule comes first. *)
Lemma respond_total_first_match_witness :
  Dialogue.handlePlayerMessage Dialogue.toLowerCaseAscii
    "The RENT and the Cat" Cast.mrsWicket
  = "Yes, yes, the rent! It's due on Friday, don't forget!"%string.
Proof.
  refine (proj2 (proj2 (respond_total_first_match Dialogue.toLowerCaseAscii
                          "The RENT and the Cat" Cast.mrsWicket))
            [] (["rent"%string], _) _ _ _ _).
  - reflexivity.
  - intros q [].
  - reflexivity.
Defined.

(** ** The challenge state machine: what each operation touches *)

Section ChallengeFacts.
Import Cast Challenges.

Variable random : nat -> nat.

Lemma nth_error_updateAt_eq {A} (f : A -> A) l i :
  nth_error (updateAt i f l) i = option_map f (nth_error l i).
Proof.
  revert i. induction l as [|a l IH]; intros [|i]; cbn; auto.
Qed.

Lemma nth_error_updateAt_neq {A} (f : A -> A) l i j :
  i <> j -> nth_error (updateAt i f l) j = nth_error l j.
Proof.
  revert i j. induction l as [|a l IH]; intros [|i] [|j] H; cbn; auto.
  contradiction.
Qed.

Lemma length_updateAt {A} (f : A -> A) l i :
  List.length (updateAt i f l) = List.length l.
Proof. revert i. induction l as [|a l IH]; intros [|i]; cbn; auto. Qed.

Lemma Forall_updateAt {A} (P : A -> Prop) (f : A -> A) l i :
  (forall a, P a -> P (f a)) -> Forall P l -> Forall P (updateAt i f l).
Proof.
  intros Hf H. revert i.
  induction H as [|a l Ha Hl IH]; intros [|i]; cbn; constructor; auto.
Qed.

(** [showDialog], [playInteract] and [hideDialog] leave the catalog and
    the active reference alone. *)
Lemma challenges_showDialog npc g :
  challenges (showDialog random npc g) = challenges g.
Proof. unfold showDialog. now destruct (negb (dialogElement g)). Qed.

Lemma activeChallenge_showDialog npc g :
  activeChallenge (showDialog random npc g) = activeChallenge g.
Proof. unfold showDialog. now destruct (negb (dialogElement g)). Qed.

Lemma challenges_playInteract g : challenges (playInteract g) = challenges g.
Proof. unfold playInteract. now destruct (interactSound g). Qed.

Lemma activeChallenge_playInteract g :
  activeChallenge (playInteract g) = activeChallenge g.
Proof. unfold playInteract. now destruct (interactSound g). Qed.

Lemma challenges_hideDialog g : challenges (hideDialog g) = challenges g.
Proof. unfold hideDialog. now destruct (dialogElement g). Qed.

Lemma activeChallenge_hideDialog g :
  activeChallenge (hideDialog g) = activeChallenge g.
Proof. unfold hideDialog. now destruct (dialogElement g). Qed.

Lemma active_showDialog npc g : active (showDialog random npc g) = active g.
Proof.
  unfold active. now rewrite activeChallenge_showDialog, challenges_showDialog.
Qed.

Lemma active_playInteract g : active (playInteract g) = active g.
Proof.
  unfold active.
  now rewrite activeChallenge_playInteract, challenges_playInteract.
Qed.

Lemma stepFlag_showDialog npc g j n :
  stepFlag (showDialog random npc g) j n = stepFlag g j n.
Proof. unfold stepFlag. now rewrite challenges_showDialog. Qed.

Lemma stepFlag_playInteract g j n :
  stepFlag (playInteract g) j n = stepFlag g j n.
Proof. unfold stepFlag. now rewrite challenges_playInteract. Qed.

Lemma active_Some g a c :
  active g = Some (a, c) ->
  activeChallenge g = Some a /\ nth_error (challenges g) a = Some c.
Proof.
  unfold active. destruct (activeChallenge g) as [a'|]; [|discriminate].
  destruct (nth_error (challenges g) a') eqn:E; [|discriminate].
  intros [= -> ->]. auto.
Qed.

Lemma active_None_frame g :
  active g = None ->
  forall a c, activeChallenge g = Some a ->
              nth_error (challenges g) a = Some c -> False.
Proof.
  unfold active. intros H a c Ha Hc. rewrite Ha, Hc in H. discriminate.
Qed.

(** *** [completeChallenge] *)
Lemma completeChallenge_nth g j :
  nth_error (challenges (completeChallenge random g)) j
  = match active g with
    | Some (a, _) =>
        if Nat.eqb a j
        then option_map (setCompleted true) (nth_error (challenges g) j)
        else nth_error (challenges g) j
    | None => nth_error (challenges g) j
    end.
Proof.
  unfold completeChallenge. destruct (active g) as [[a c]|]; [|reflexivity].
  cbn. rewrite challenges_playInteract, challenges_showDialog.
  destruct (Nat.eqb_spec a j) as [->|Hne].
  - apply nth_error_updateAt_eq.
  - now apply nth_error_updateAt_neq.
Qed.

Lemma stepFlag_completeChallenge g j n :
  stepFlag (completeChallenge random g) j n = stepFlag g j n.
Proof.
  unfold stepFlag. rewrite completeChallenge_nth.
  destruct (active g) as [[a c]|]; [|reflexivity].
  destruct (Nat.eqb a j); [|reflexivity].
  now destruct (nth_error (challenges g) j).
Qed.

(** *** [updateChallengeProgress] *)

Lemma id_markStep i c : id (markStep i c) = id c.
Proof. unfold markStep. cbn. now destruct (forallb _ _). Qed.

Lemma steps_markStep i c :
  steps (markStep i c) = updateAt i (setStepCompleted true) c.(steps).
Proof. unfold markStep. cbn. now destruct (forallb _ _). Qed.

Lemma completed_markStep i c :
  completed (markStep i c)
  = (forallb stepCompleted (steps (markStep i c)) || completed c)%bool.
Proof.
  rewrite steps_markStep. unfold markStep. cbn. now destruct (forallb _ _).
Qed.

Lemma updateAt_twice {A} (f h : A -> A) l i :
  updateAt i h (updateAt i f l) = updateAt i (fun a => h (f a)) l.
Proof. revert i. induction l as [|a l IH]; intros [|i]; cbn; congruence. Qed.

Lemma updateAt_ext_at {A} (f h : A -> A) l i a :
  nth_error l i = Some a -> f a = h a -> updateAt i f l = updateAt i h l.
Proof.
  revert i. induction l as [|b l IH]; intros [|i]; cbn; try easy.
  - intros [= ->] ->. reflexivity.
  - intros Hn Hf. f_equal. now apply IH.
Qed.

Lemma updateChallengeProgress_cases i g g' :
  updateChallengeProgress random i g = Some g' ->
  (g' = g /\ (active g = None \/
              exists a c, active g = Some (a, c) /\ stepDone c i = Some true))
  \/ exists a c,
      active g = Some (a, c) /\ stepDone c i = Some false /\
      challenges g' = marked a i (challenges g) /\
      activeChallenge g'
      = (if forallb stepCompleted
              (updateAt i (setStepCompleted true) c.(steps))
         then None else Some a).
Proof.
  unfold updateChallengeProgress.
  destruct (active g) as [[a c]|] eqn:Ha; [|intros [= <-]; left; auto].
  destruct (stepDone c i) as [[|]|] eqn:Hs; [| |discriminate].
  - intros [= <-]. left. split; [reflexivity|]. right. now exists a, c.
  - intros [= <-]. right. exists a, c. split; [reflexivity|]. split; [exact Hs|].
    apply active_Some in Ha as [Haa Hac].
    rewrite challenges_playInteract, activeChallenge_playInteract.
    unfold marked, markStep.
    destruct (forallb stepCompleted _) eqn:Hall; cbn.
    + rewrite challenges_showDialog. cbn. rewrite updateAt_twice.
      split; [|reflexivity].
      eapply updateAt_ext_at; [exact Hac|]. cbn. now rewrite Hall.
    + split; [|exact Haa].
      eapply updateAt_ext_at; [exact Hac|]. cbn. now rewrite Hall.
Qed.

End ChallengeFacts.

Lemma andThen_true p q :
  Challenges.andThen p q = Some true -> p = Some true /\ q = Some true.
Proof. destruct p as [[|]|]; cbn; intros; auto; discriminate. Qed.

Lemma notDone_true c i :
  Challenges.notDone c i = Some true -> Challenges.stepDone c i = Some false.
Proof.
  unfold Challenges.notDone.
  destruct (Challenges.stepDone c i) as [[|]|]; cbn; congruence.
Qed.

Lemma notDone_false c i :
  Challenges.notDone c i = Some false -> Challenges.stepDone c i = Some true.
Proof.
  unfold Challenges.notDone.
  destruct (Challenges.stepDone c i) as [[|]|]; cbn; congruence.
Qed.

Lemma andThen_None p q :
  Challenges.andThen p q = None -> p = None \/ q = None.
Proof. destruct p as [[|]|]; cbn; auto. Qed.

Lemma notDone_None c i :
  Challenges.notDone c i = None -> Challenges.stepDone c i = None.
Proof. unfold Challenges.notDone. now destruct (Challenges.stepDone c i). Qed.

(** Splits a hypothesis on [checkChallengeProgress] into its branches. *)
Ltac split_check H :=
  unfold Challenges.checkChallengeProgress in H;
  repeat match type of H with
  | context [match ?e with _ => _ end] =>
      lazymatch e with
      | context [match _ with _ => _ end] => fail
      | _ => destruct e eqn:?
      end
  end.

(** Reads the guards a branch has passed. *)
Ltac read_guards :=
  repeat match goal with
  | H : Challenges.andThen _ _ = Some true |- _ => apply andThen_true in H as [? ?]
  | H : Challenges.notDone _ _ = Some true |- _ => apply notDone_true in H
  | H : Challenges.notDone _ _ = Some false |- _ => apply notDone_false in H
  | H : Some _ = Some ?y |- _ => injection H as H; try subst y
  end.

Section ChallengeSteps.
Import Cast Challenges.

Variable random : nat -> nat.

Lemma stepDone_setCompleted b c n : stepDone (setCompleted b c) n = stepDone c n.
Proof. reflexivity. Qed.

Lemma stepDone_marked_step c i n :
  stepDone (setSteps (updateAt i (setStepCompleted true) c.(steps)) c) n
  = if Nat.eqb i n then option_map (fun _ => true) (stepDone c n)
    else stepDone c n.
Proof.
  unfold stepDone. cbn. destruct (Nat.eqb_spec i n) as [->|Hne].
  - rewrite nth_error_updateAt_eq. now destruct (nth_error (steps c) n).
  - now rewrite nth_error_updateAt_neq.
Qed.

Lemma stepDone_markStep i c n :
  stepDone (markStep i c) n
  = if Nat.eqb i n then option_map (fun _ => true) (stepDone c n)
    else stepDone c n.
Proof.
  rewrite <- stepDone_marked_step. unfold stepDone.
  now rewrite steps_markStep.
Qed.

Lemma stepFlag_marked g g' a i j n :
  challenges g' = marked a i (challenges g) ->
  stepFlag g' j n
  = if (Nat.eqb a j && Nat.eqb i n)%bool
    then option_map (fun _ => true) (stepFlag g j n)
    else stepFlag g j n.
Proof.
  intros H. unfold stepFlag. rewrite H. unfold marked.
  destruct (Nat.eqb_spec a j) as [->|Hne]; cbn.
  - rewrite nth_error_updateAt_eq.
    destruct (nth_error (challenges g) j) as [c|]; cbn.
    + apply stepDone_markStep.
    + now destruct (Nat.eqb i n).
  - now rewrite nth_error_updateAt_neq.
Qed.

Lemma nth_marked_other g g' a i j :
  challenges g' = marked a i (challenges g) -> a <> j ->
  nth_error (challenges g') j = nth_error (challenges g) j.
Proof. intros -> H. unfold marked. now apply nth_error_updateAt_neq. Qed.

(** A step that [updateChallengeProgress(i)] turns from open to done is
    step [i] of the active challenge. *)
Lemma updateChallengeProgress_marks i g g' j n :
  updateChallengeProgress random i g = Some g' ->
  stepFlag g j n = Some false -> stepFlag g' j n = Some true ->
  activeChallenge g = Some j /\ n = i.
Proof.
  intros H Hb Ha.
  apply updateChallengeProgress_cases in H
    as [[-> _]|(a & c & Hact & Hs & Hc & _)]; [congruence|].
  rewrite (stepFlag_marked _ _ _ _ _ _ Hc), Hb in Ha.
  apply active_Some in Hact as [Haa _].
  destruct (Nat.eqb_spec a j) as [->|]; [|discriminate].
  destruct (Nat.eqb_spec i n) as [->|]; [|discriminate]. auto.
Qed.

Lemma updateChallengeProgress_frame i g g' j :
  updateChallengeProgress random i g = Some g' ->
  activeChallenge g <> Some j ->
  nth_error (challenges g') j = nth_error (challenges g) j.
Proof.
  intros H Hj.
  apply updateChallengeProgress_cases in H
    as [[-> _]|(a & c & Hact & Hs & Hc & _)]; [reflexivity|].
  apply active_Some in Hact as [Haa _].
  apply (nth_marked_other _ _ _ _ _ Hc). congruence.
Qed.

(** After [updateChallengeProgress] the active reference is what it was,
    or cleared. *)
Lemma updateChallengeProgress_active i g g' :
  updateChallengeProgress random i g = Some g' ->
  activeChallenge g' = activeChallenge g \/ activeChallenge g' = None.
Proof.
  intros H.
  apply updateChallengeProgress_cases in H
    as [[-> _]|(a & c & Hact & Hs & Hc & Ha)]; [now left|].
  apply active_Some in Hact as [Haa _]. rewrite Ha.
  destruct (forallb _ _); auto.
Qed.

Lemma completeChallenge_frame g j :
  activeChallenge g <> Some j ->
  nth_error (challenges (completeChallenge random g)) j
  = nth_error (challenges g) j.
Proof.
  intros Hj. rewrite completeChallenge_nth.
  destruct (active g) as [[a c]|] eqn:Ha; [|reflexivity].
  apply active_Some in Ha as [Haa _].
  destruct (Nat.eqb_spec a j) as [->|]; [congruence|reflexivity].
Qed.

Lemma stepFlag_active g a c k :
  active g = Some (a, c) -> stepFlag g a k = stepDone c k.
Proof. intros [_ H]%active_Some. unfold stepFlag. now rewrite H. Qed.

(** A step that a talk turns from open to done is a step of the active
    challenge, and it is the first step or the step before it was done. *)
Lemma checkChallengeProgress_marks npc pos ch g g' j n :
  checkChallengeProgress random npc pos ch g = Some g' ->
  stepFlag g j n = Some false -> stepFlag g' j n = Some true ->
  activeChallenge g = Some j /\
  (n = 0%nat \/ stepFlag g j (n - 1) = Some true).
Proof.
  intros H Hb Ha.
  split_check H; try discriminate; try (injection H as <-; congruence).
  all: read_guards;
    rewrite ?stepFlag_showDialog, ?stepFlag_completeChallenge in Ha;
    match goal with
    | Hu : updateChallengeProgress _ _ _ = Some _ |- _ =>
        destruct (updateChallengeProgress_marks _ _ _ _ _ Hu Hb Ha)
          as [Hj ->]
    end;
    (split; [exact Hj|]);
    match goal with
    | Hact : active _ = Some (?a, _) |- _ =>
        pose proof (proj1 (active_Some _ _ _ Hact)) as Haa;
        assert (a = j) as -> by congruence;
        first [ now left
              | right; cbn; rewrite (stepFlag_active _ _ _ _ Hact);
                assumption ]
    end.
Qed.

(** A talk leaves every challenge but the active one as it was. *)
Lemma checkChallengeProgress_frame npc pos ch g g' j :
  checkChallengeProgress random npc pos ch g = Some g' ->
  activeChallenge g <> Some j ->
  nth_error (challenges g') j = nth_error (challenges g) j.
Proof.
  intros H Hj.
  split_check H; try discriminate; try (injection H as <-; reflexivity).
  all: read_guards; rewrite ?challenges_showDialog;
    match goal with
    | Hu : updateChallengeProgress _ _ _ = Some ?g1 |- _ =>
        pose proof (updateChallengeProgress_frame _ _ _ j Hu Hj) as Hf;
        pose proof (updateChallengeProgress_active _ _ _ Hu) as Hact'
    end;
    try exact Hf.
  all: rewrite completeChallenge_frame; [exact Hf|];
    destruct Hact' as [->| ->]; congruence.
Qed.

End ChallengeSteps.


Section ChallengeRuns.
Import Cast Challenges.

Variable random : nat -> nat.

Lemma threeSteps_eq g g' :
  challenges g' = challenges g -> threeSteps g -> threeSteps g'.
Proof. unfold threeSteps. now intros ->. Qed.

Lemma threeSteps_initial : threeSteps initializeChallenges.
Proof. unfold threeSteps; cbn. repeat constructor. Qed.

Lemma threeSteps_marked g g' a i :
  challenges g' = marked a i (challenges g) -> threeSteps g -> threeSteps g'.
Proof.
  unfold threeSteps. intros ->. apply Forall_updateAt. intros c Hc.
  now rewrite steps_markStep, length_updateAt.
Qed.

Lemma threeSteps_update i g g' :
  updateChallengeProgress random i g = Some g' ->
  threeSteps g -> threeSteps g'.
Proof.
  intros H.
  apply updateChallengeProgress_cases in H
    as [[-> _]|(a & c & _ & _ & Hc & _)]; [easy|].
  now apply threeSteps_marked with (a := a) (i := i).
Qed.

Lemma threeSteps_complete g :
  threeSteps g -> threeSteps (completeChallenge random g).
Proof.
  unfold completeChallenge, threeSteps.
  destruct (active g) as [[a c]|]; [|easy]. cbn.
  rewrite challenges_playInteract, challenges_showDialog.
  apply Forall_updateAt. now intros c'.
Qed.

Lemma threeSteps_start challengeId g :
  threeSteps g -> threeSteps (startChallenge random challengeId g).
Proof.
  intros W. unfold startChallenge.
  destruct (findChallenge challengeId (challenges g)) as [[j c]|]; [|exact W].
  destruct (negb (completed c)).
  - eapply threeSteps_eq; [|].
    + rewrite challenges_playInteract, challenges_showDialog. cbn.
      reflexivity.
    + destruct (active g) as [[a ac]|]; [|exact W].
      destruct (negb _); [|exact W].
      unfold threeSteps; cbn. apply Forall_updateAt; [|exact W].
      intros c' Hc'. cbn. now rewrite length_map.
  - eapply threeSteps_eq; [apply challenges_showDialog|exact W].
Qed.

Lemma threeSteps_stepDone g a c i :
  threeSteps g -> active g = Some (a, c) -> (i < 3)%nat ->
  stepDone c i <> None.
Proof.
  intros W [_ Hc]%active_Some Hi.
  unfold threeSteps in W. rewrite Forall_forall in W.
  specialize (W c (nth_error_In _ _ Hc)).
  unfold stepDone. destruct (nth_error (steps c) i) eqn:E; [easy|].
  apply nth_error_None in E. lia.
Qed.

Lemma updateChallengeProgress_total i g :
  threeSteps g -> (i < 3)%nat ->
  updateChallengeProgress random i g <> None.
Proof.
  intros W Hi. unfold updateChallengeProgress.
  destruct (active g) as [[a c]|] eqn:Ha; [|easy].
  pose proof (threeSteps_stepDone g a c i W Ha Hi).
  destruct (stepDone c i) as [[|]|]; easy.
Qed.

(** With three steps everywhere, a talk never throws. *)
Lemma checkChallengeProgress_total npc pos ch g :
  threeSteps g -> checkChallengeProgress random npc pos ch g <> None.
Proof.
  intros W H.
  split_check H; try discriminate.
  all: repeat match goal with
       | Hn : andThen _ _ = None |- _ =>
           apply andThen_None in Hn as [Hn|Hn]; try discriminate
       | Hn : notDone _ _ = None |- _ => apply notDone_None in Hn
       | Hn : stepDone _ ?i = None, Ha : active _ = Some _ |- _ =>
           refine (threeSteps_stepDone _ _ _ i W Ha _ Hn); lia
       | Hn : updateChallengeProgress _ ?i _ = None |- _ =>
           refine (updateChallengeProgress_total i _ W _ Hn); lia
       end.
Qed.

Lemma threeSteps_check npc pos ch g g' :
  checkChallengeProgress random npc pos ch g = Some g' ->
  threeSteps g -> threeSteps g'.
Proof.
  intros H W.
  split_check H; try discriminate; try (injection H as <-; exact W).
  all: read_guards;
    match goal with
    | Hu : updateChallengeProgress _ _ _ = Some _ |- _ =>
        pose proof (threeSteps_update _ _ _ Hu W) as W1
    end;
    try exact W1;
    first [ eapply threeSteps_eq; [apply challenges_showDialog|exact W1]
          | apply threeSteps_complete; exact W1 ].
Qed.

Lemma threeSteps_step g i g' :
  step random g i = Some g' -> threeSteps g -> threeSteps g'.
Proof.
  destruct i as [challengeId|npc pos ch| |ready]; cbn.
  - intros [= <-]. apply threeSteps_start.
  - unfold talk. intros H W. eapply threeSteps_check; [exact H|].
    eapply threeSteps_eq; [|exact W].
    now rewrite challenges_playInteract, challenges_showDialog.
  - intros [= <-]. apply threeSteps_eq, challenges_hideDialog.
  - now intros [= <-].
Qed.

Lemma step_total g i : threeSteps g -> step random g i <> None.
Proof.
  destruct i as [challengeId|npc pos ch| |ready]; cbn; try easy.
  intros W. unfold talk. apply checkChallengeProgress_total.
  eapply threeSteps_eq; [|exact W].
  now rewrite challenges_playInteract, challenges_showDialog.
Qed.

(** From a state with three steps everywhere, no run of inputs throws. *)
Lemma run_total g inputs :
  threeSteps g ->
  exists g', run random g inputs = Some g' /\ threeSteps g'.
Proof.
  revert g. induction inputs as [|i inputs IH]; intros g W; cbn.
  - now exists g.
  - destruct (step random g i) as [g1|] eqn:E.
    + apply IH. eapply threeSteps_step; eauto.
    + now apply step_total in E.
Qed.

End ChallengeRuns.

(** C5 (step ordering).  Whatever inputs the game has received since
    [initializeChallenges], the next talk does not throw, and: a step it
    turns from open to done belongs to the active challenge, and is its
    first step or follows a step that was already done; and every
    challenge other than the active one comes out exactly as it went
    in. *)
Theorem step_ordering :
  forall (random : nat -> nat) (inputs : list Challenges.Input),
  exists g,
    Challenges.run random Challenges.initializeChallenges inputs = Some g /\
    forall (npc : Cast.NPC) (playerPosition : Vector3)
           (sceneChildren : list Object3D),
    exists g',
      Challenges.talk random npc playerPosition sceneChildren g = Some g' /\
      (forall j n,
          stepFlag g j n = Some false -> stepFlag g' j n = Some true ->
          Challenges.activeChallenge g = Some j /\
          (n = 0%nat \/ stepFlag g j (n - 1) = Some true)) /\
      (forall j,
          Challenges.activeChallenge g <> Some j ->
          nth_error (Challenges.challenges g') j
          = nth_error (Challenges.challenges g) j).
Proof.
  intros random inputs.
  destruct (run_total random _ inputs threeSteps_initial) as (g & Hrun & W).
  exists g. split; [exact Hrun|]. intros npc pos ch.
  destruct (Challenges.talk random npc pos ch g) as [g'|] eqn:Ht.
  - exists g'. split; [reflexivity|].
    unfold Challenges.talk in Ht. split.
    + intros j n Hb Ha.
      destruct (checkChallengeProgress_marks random _ _ _ _ _ j n Ht)
        as [Hj Hn]; trivial.
      * now rewrite stepFlag_playInteract, stepFlag_showDialog.
      * rewrite activeChallenge_playInteract, activeChallenge_showDialog in Hj.
        split; [exact Hj|].
        now rewrite stepFlag_playInteract, stepFlag_showDialog in Hn.
    + intros j Hj.
      rewrite (checkChallengeProgress_frame random _ _ _ _ _ j Ht).
      * now rewrite challenges_playInteract, challenges_showDialog.
      * now rewrite activeChallenge_playInteract, activeChallenge_showDialog.
  - exfalso. apply (step_total random g (Challenges.Talk npc pos ch) W Ht).
Qed.


Lemma step_ordering_witness :
  exists g g',
    Challenges.run (fun _ => 0%nat) Challenges.initializeChallenges
      [Challenges.Start 1] = Some g /\
    Challenges.talk (fun _ => 0%nat) Cast.mrsWicket (vec3 0 0 0) [] g
    = Some g' /\
    Challenges.activeChallenge g = Some 0%nat /\
    (0 = 0 \/ stepFlag g 0 (0 - 1) = Some true)%nat.
Proof.
  destruct (step_ordering (fun _ => 0%nat) [Challenges.Start 1])
    as (g & Hrun & H).
  destruct (H Cast.mrsWicket (vec3 0 0 0) []) as (g' & Ht & Hm & _).
  exists g, g'. split; [exact Hrun|]. split; [exact Ht|].
  cbn in Hrun. injection Hrun as <-.
  cbn in Ht. injection Ht as <-.
  apply (Hm 0%nat 0%nat); reflexivity.
Defined.

(** ** Challenges that cannot be finished *)

Section StuckChallenges.
Import Cast Challenges.
Local Open Scope string_scope.

Variable random : nat -> nat.

Lemma stuck_eq g g' : challenges g' = challenges g -> stuck g -> stuck g'.
Proof. unfold stuck. now intros ->. Qed.

Lemma stuck_initial : stuck initializeChallenges.
Proof.
  intros [|[|[|[|j]]]] c; cbn; intros [= <-]; cbn; split; intros; try easy.
Qed.

Lemma stepDone_open_forallb c n :
  stepDone c n = Some false -> forallb stepCompleted c.(steps) = false.
Proof.
  unfold stepDone. destruct (nth_error (steps c) n) as [st|] eqn:E;
    [|discriminate].
  cbn. intros [= Hst]. apply nth_error_In in E.
  destruct (forallb stepCompleted (steps c)) eqn:F; [|reflexivity].
  rewrite forallb_forall in F. specialize (F st E). congruence.
Qed.

Lemma noBench_nearBench pos ch : noBench ch -> nearBench pos ch = false.
Proof.
  unfold noBench, nearBench. induction 1 as [|o ch Ho _ IH]; cbn; [easy|].
  now rewrite Ho, IH.
Qed.

Lemma inCast_not_clerk npc u :
  inCast npc -> userData npc = Some u -> nameIs u "Store Clerk" = false.
Proof.
  unfold inCast, mainNPCs. cbn.
  intros [<-|[<-|[<-|[<-|[]]]]]; cbn; now intros [= <-].
Qed.

(** Marking step [i] of the active challenge keeps the two challenges
    stuck, unless it is the very step that holds them. *)
Lemma stuck_update i g g' :
  updateChallengeProgress random i g = Some g' ->
  (forall a c, active g = Some (a, c) ->
               (c.(id) = 1%nat -> i <> 1%nat) /\
               (c.(id) = 3%nat -> i <> 2%nat)) ->
  stuck g -> stuck g'.
Proof.
  intros H Hi St.
  apply updateChallengeProgress_cases in H
    as [[-> _]|(a & c & Hact & Hs & Hc & _)]; [exact St|].
  specialize (Hi a c Hact) as [Hi1 Hi3].
  apply active_Some in Hact as [_ Hac].
  intros j c' Hj. rewrite Hc in Hj. unfold marked in Hj.
  destruct (Nat.eq_dec a j) as [->|Hne].
  - rewrite nth_error_updateAt_eq, Hac in Hj. cbn [option_map] in Hj.
    injection Hj as <-.
    destruct (St j c Hac) as [S1 S3].
    rewrite id_markStep, completed_markStep, !stepDone_markStep.
    split; intros Hidc.
    + destruct (S1 Hidc) as [Hopen Hdone]. specialize (Hi1 Hidc).
      assert (Hopen1 : stepDone (markStep i c) 1 = Some false).
      { rewrite stepDone_markStep.
        destruct (Nat.eqb_spec i 1); [contradiction|exact Hopen]. }
      rewrite (stepDone_open_forallb _ 1 Hopen1), Hdone.
      destruct (Nat.eqb_spec i 1); [contradiction|]. now split.
    + destruct (S3 Hidc) as [Hopen Hdone]. specialize (Hi3 Hidc).
      assert (Hopen1 : stepDone (markStep i c) 2 = Some false).
      { rewrite stepDone_markStep.
        destruct (Nat.eqb_spec i 2); [contradiction|exact Hopen]. }
      rewrite (stepDone_open_forallb _ 2 Hopen1), Hdone.
      destruct (Nat.eqb_spec i 2); [contradiction|]. now split.
  - rewrite nth_error_updateAt_neq in Hj by exact Hne. exact (St j c' Hj).
Qed.

(** The challenge that is active after [updateChallengeProgress] has the
    id of the one that was active before. *)
Lemma updateChallengeProgress_active_id i g g' a' c' :
  updateChallengeProgress random i g = Some g' ->
  active g' = Some (a', c') ->
  exists c, active g = Some (a', c) /\ id c' = id c.
Proof.
  intros H Ha'.
  apply updateChallengeProgress_cases in H
    as [[-> _]|(a & c & Hact & Hs & Hc & Ha)]; [now exists c'|].
  apply active_Some in Ha' as [Haa' Hac'].
  rewrite Ha in Haa'. destruct (forallb _ _) eqn:F; [discriminate|].
  injection Haa' as <-. exists c. split; [exact Hact|].
  apply active_Some in Hact as [_ Hac].
  rewrite Hc in Hac'. unfold marked in Hac'.
  rewrite nth_error_updateAt_eq, Hac in Hac'. cbn [option_map] in Hac'.
  injection Hac' as <-. apply id_markStep.
Qed.

Lemma stuck_complete g :
  (forall a c, active g = Some (a, c) -> id c = 2%nat) ->
  stuck g -> stuck (completeChallenge random g).
Proof.
  intros Hid St j c Hj. rewrite completeChallenge_nth in Hj.
  destruct (active g) as [[a ac]|] eqn:Ha; [|exact (St j c Hj)].
  specialize (Hid a ac eq_refl).
  destruct (Nat.eqb_spec a j) as [->|Hne]; [|exact (St j c Hj)].
  apply active_Some in Ha as [_ Hac]. rewrite Hac in Hj. cbn in Hj.
  injection Hj as <-. cbn. rewrite Hid. split; discriminate.
Qed.

Lemma stuck_start challengeId g :
  stuck g -> stuck (startChallenge random challengeId g).
Proof.
  intros St. unfold startChallenge.
  destruct (findChallenge challengeId (challenges g)) as [[j c]|]; [|exact St].
  destruct (negb (completed c)).
  - eapply stuck_eq.
    + rewrite challenges_playInteract, challenges_showDialog. cbn.
      reflexivity.
    + destruct (active g) as [[a ac]|] eqn:Ha; [|exact St].
      destruct (negb _); [|exact St].
      apply active_Some in Ha as [_ Hac].
      intros k c' Hk. cbn in Hk.
      destruct (Nat.eq_dec a k) as [->|Hne].
      * rewrite nth_error_updateAt_eq, Hac in Hk. cbn in Hk.
        injection Hk as <-. cbn.
        destruct (St k ac Hac) as [S1 S3].
        assert (Hreset : forall n,
                   stepDone ac n = Some false ->
                   stepDone
                     (setSteps (map (setStepCompleted false) (steps ac)) ac) n
                   = Some false).
        { intros n. unfold stepDone. cbn. rewrite nth_error_map.
          now destruct (nth_error (steps ac) n). }
        split; intros Hidc; [destruct (S1 Hidc)|destruct (S3 Hidc)];
          split; auto.
      * rewrite nth_error_updateAt_neq in Hk by exact Hne. exact (St k c' Hk).
  - eapply stuck_eq; [apply challenges_showDialog|exact St].
Qed.

Lemma stuck_check npc pos ch g g' :
  checkChallengeProgress random npc pos ch g = Some g' ->
  inCast npc -> noBench ch ->
  stuck g -> stuck g'.
Proof.
  intros H Hcast Hbench St.
  pose proof (noBench_nearBench pos ch Hbench) as Hnb.
  split_check H; try discriminate; try (injection H as <-; exact St);
    try congruence.
  all: read_guards.
  all: try match goal with
       | Hu : userData ?x = Some ?u, Hn : nameIs ?u "Store Clerk" = true |- _ =>
           rewrite (inCast_not_clerk x u Hcast Hu) in Hn; discriminate
       end.
  all: match goal with
       | Hact : active _ = Some (?a, ?c) |- _ =>
           pose proof (proj2 (active_Some _ _ _ Hact)) as Hac;
           destruct (St a c Hac) as [S1 S3]
       end.
  all: try match goal with
       | Hid : id ?c = 1%nat, Hd : stepDone ?c 1 = Some true |- _ =>
           destruct (S1 Hid); congruence
       end.
  all: match goal with
       | Hu : updateChallengeProgress _ ?i _ = Some ?g1 |- _ =>
           assert (S' : stuck g1)
             by (apply (stuck_update i _ _ Hu); [|exact St];
                 intros a' c' Ha'; split; intros Hid'; try discriminate;
                 congruence)
       end.
  all: try exact S'.
  all: try (eapply stuck_eq; [apply challenges_showDialog|exact S']).
  all: apply stuck_complete; [|exact S'].
  all: intros a' c' Ha';
    match goal with
    | Hu : updateChallengeProgress _ _ _ = Some _ |- _ =>
        destruct (updateChallengeProgress_active_id _ _ _ _ _ Hu Ha')
          as (c0 & Hc0 & ->)
    end; congruence.
Qed.

End StuckChallenges.


Section ChallengeTwo.
Import Cast Challenges.
Local Open Scope string_scope.

Variable random : nat -> nat.

Lemma stuck_step g i g' :
  step random g i = Some g' -> producible i -> stuck g -> stuck g'.
Proof.
  destruct i as [challengeId|npc pos ch| |ready]; cbn.
  - intros [= <-] _. apply stuck_start.
  - unfold talk. intros H [Hc Hb] St. eapply stuck_check; eauto.
    eapply stuck_eq; [|exact St].
    now rewrite challenges_playInteract, challenges_showDialog.
  - intros [= <-] _. apply stuck_eq, challenges_hideDialog.
  - now intros [= <-].
Qed.

Lemma stuck_run g inputs g' :
  run random g inputs = Some g' -> Forall producible inputs ->
  stuck g -> stuck g'.
Proof.
  revert g. induction inputs as [|i inputs IH]; intros g; cbn.
  - now intros [= <-].
  - destruct (step random g i) as [g1|] eqn:E; [|discriminate].
    intros Hr Hp St. inversion Hp; subst.
    eapply IH; eauto using stuck_step.
Qed.

Lemma nearCar_atCar : nearCar atCar = true.
Proof.
  unfold nearCar, atCar. rewrite distanceTo_self. apply ltb_true. lra.
Qed.

Lemma inCityCenter_besideIrma : inCityCenter besideIrma = true.
Proof.
  unfold inCityCenter, besideIrma, distanceTo, distanceToSquared. cbn.
  apply ltb_true. rewrite <- (sqrt_square 10) by lra.
  apply sqrt_lt_1_alt. lra.
Qed.

Lemma run_lateForAppointment :
  run random initializeChallenges lateForAppointment
  = Some (afterAppointment random).
Proof.
  unfold lateForAppointment.
  cbn -[nearCar inCityCenter pick atCar besideIrma cityChildren].
  rewrite nearCar_atCar.
  cbn -[nearCar inCityCenter pick atCar besideIrma cityChildren].
  rewrite inCityCenter_besideIrma.
  cbn -[nearCar inCityCenter pick atCar besideIrma cityChildren].
  reflexivity.
Qed.

(** The city [City.createCity] builds has no child with [isBench]. *)
Lemma cityChildren_noBench : noBench cityChildren.
Proof. unfold noBench, cityChildren. cbn. repeat constructor. Qed.

Lemma lateForAppointment_producible : Forall producible lateForAppointment.
Proof.
  pose proof cityChildren_noBench.
  unfold lateForAppointment.
  repeat first [apply Forall_cons | apply Forall_nil];
    unfold producible, inCast, mainNPCs; cbn -[cityChildren]; auto 10.
Qed.

End ChallengeTwo.

(** C10.  In every state the game reaches through inputs it can produce
    (talks with the characters [setupNPCs] creates, in a scene none of
    whose children carries [isBench]), the run does not throw and the
    challenges with id 1 ("Find Teddy") and id 3 ("Christmas Shopping")
    are not completed.  Challenge 2 ("Late for Appointment") can be: the
    run [lateForAppointment] completes it. *)
Theorem only_challenge_two_completes :
  forall random : nat -> nat,
    (forall inputs : list Challenges.Input,
        Forall producible inputs ->
        exists g,
          Challenges.run random Challenges.initializeChallenges inputs
          = Some g /\
          forall c,
            In c (Challenges.challenges g) ->
            (Challenges.id c = 1%nat \/ Challenges.id c = 3%nat) ->
            Challenges.completed c = false)
    /\ (exists inputs g c,
          Forall producible inputs /\
          Challenges.run random Challenges.initializeChallenges inputs
          = Some g /\
          In c (Challenges.challenges g) /\
          Challenges.id c = 2%nat /\
          Challenges.completed c = true).
Proof.
  intros random. split.
  - intros inputs Hp.
    destruct (run_total random _ inputs threeSteps_initial) as (g & Hrun & _).
    exists g. split; [exact Hrun|].
    pose proof (stuck_run random _ _ _ Hrun Hp stuck_initial) as St.
    intros c Hin Hid. apply In_nth_error in Hin as [j Hj].
    destruct (St j c Hj) as [S1 S3].
    destruct Hid as [Hid|Hid]; [apply S1|apply S3]; exact Hid.
  - exists lateForAppointment, (afterAppointment random).
    eexists. split; [apply lateForAppointment_producible|].
    split; [apply run_lateForAppointment|].
    split; [right; left; reflexivity|]. split; reflexivity.
Qed.

Lemma only_challenge_two_completes_witness :
  exists g,
    Challenges.run (fun _ => 0%nat) Challenges.initializeChallenges
      lateForAppointment = Some g /\
    forall c,
      In c (Challenges.challenges g) ->
      (Challenges.id c = 1%nat \/ Challenges.id c = 3%nat) ->
      Challenges.completed c = false.
Proof.
  exact (proj1 (only_challenge_two_completes (fun _ => 0%nat))
           lateForAppointment lateForAppointment_producible).
Defined.


(** ** Completion, switching and what the player is shown *)

Section ChallengeEffects.
Import Cast Challenges.
Local Open Scope string_scope.

Variable random : nat -> nat.

(** [updateChallengeProgress] is idempotent: a second call with the same
    step changes nothing, neither the state nor what was shown and
    played. *)
Lemma updateChallengeProgress_idempotent i g g1 :
  updateChallengeProgress random i g = Some g1 ->
  updateChallengeProgress random i g1 = Some g1.
Proof.
  intros H. pose proof H as H0.
  apply updateChallengeProgress_cases in H0
    as [[-> _]|(a & c & Hact & Hs & Hc & Ha)]; [exact H|].
  apply active_Some in Hact as [_ Hac].
  unfold updateChallengeProgress, active. rewrite Ha.
  destruct (forallb _ _); [reflexivity|].
  rewrite Hc. unfold marked. rewrite nth_error_updateAt_eq, Hac. cbn.
  now rewrite stepDone_markStep, Nat.eqb_refl, Hs.
Qed.

(** When marking step [i] leaves no step of the active challenge open,
    the challenge is completed and no challenge is active. *)
Lemma updateChallengeProgress_last_step i g g1 a c :
  updateChallengeProgress random i g = Some g1 ->
  active g = Some (a, c) -> stepDone c i = Some false ->
  forallb stepCompleted (updateAt i (setStepCompleted true) c.(steps)) = true ->
  activeChallenge g1 = None /\
  exists c1, nth_error (challenges g1) a = Some c1 /\
             completed c1 = true /\
             forallb stepCompleted (steps c1) = true.
Proof.
  intros H Hact Hs Hall.
  apply updateChallengeProgress_cases in H
    as [[_ [Hn|(a' & c' & Ha' & Hs')]]|(a' & c' & Ha' & _ & Hc & Ha)];
    try congruence.
  rewrite Hact in Ha'. injection Ha' as <- <-.
  rewrite Hall in Ha. split; [exact Ha|].
  apply active_Some in Hact as [_ Hac].
  exists (markStep i c). rewrite Hc. unfold marked.
  rewrite nth_error_updateAt_eq, Hac. split; [reflexivity|].
  rewrite completed_markStep, steps_markStep, Hall. auto.
Qed.

(** Starting an open challenge B while another challenge A is active:
    B becomes the active one, A gets all its steps reopened and keeps its
    [completed] flag, and the other challenges are untouched. *)
Lemma startChallenge_switch g a A b B challengeId :
  active g = Some (a, A) ->
  findChallenge challengeId (challenges g) = Some (b, B) ->
  completed B = false -> id A <> challengeId ->
  let g' := startChallenge random challengeId g in
  activeChallenge g' = Some b /\
  nth_error (challenges g') a
  = Some (setSteps (map (setStepCompleted false) (steps A)) A) /\
  (forall j, j <> a ->
             nth_error (challenges g') j = nth_error (challenges g) j).
Proof.
  intros Hact Hfind HB Hne g'. subst g'. unfold startChallenge.
  rewrite Hfind, HB, Hact. cbn [negb].
  apply Nat.eqb_neq in Hne. rewrite Hne. cbn [negb].
  rewrite activeChallenge_playInteract, activeChallenge_showDialog,
    challenges_playInteract, challenges_showDialog. cbn.
  apply active_Some in Hact as [_ Hac].
  split; [reflexivity|]. split.
  - now rewrite nth_error_updateAt_eq, Hac.
  - intros j Hj. apply nth_error_updateAt_neq. congruence.
Qed.

(** Starting a completed challenge is one call of [showDialog]: the
    catalog and the active reference stay as they are. *)
Lemma startChallenge_completed g j c challengeId :
  findChallenge challengeId (challenges g) = Some (j, c) ->
  completed c = true ->
  startChallenge random challengeId g
  = showDialog random
      (notice "Challenge Complete" "You've already completed this challenge!")
      g.
Proof. intros Hf Hc. unfold startChallenge. now rewrite Hf, Hc. Qed.

Lemma isShown_pick line speaker k pool :
  ~ In line pool -> isShown line (Shown speaker (pick random k pool)) = false.
Proof.
  intros Hn. unfold isShown, pick.
  destruct (nth_error pool _) as [m|] eqn:E; [|reflexivity].
  apply nth_error_In in E. apply String.eqb_neq. congruence.
Qed.

End ChallengeEffects.

(** Decides that a given text is none of the lines of a pool. *)
Ltac not_in_pool := cbn; intuition discriminate.

(** Every talk of [lateForAppointment] is with a character of the cast
    and takes place less than 7 from where that character is created:
    Mrs. Wicket and Rupert are met beside the car, Irma Gobb in the city
    centre. *)
Lemma lateForAppointment_nearHome : Forall nearHome lateForAppointment.
Proof.
  unfold lateForAppointment.
  repeat first [apply Forall_cons | apply Forall_nil]; try exact I.
  all: intros config [<-|[<-|[<-|[]]]]; cbn [fst snd];
    try discriminate; intros _.
  all: unfold atCar, besideIrma, distanceTo, distanceToSquared; cbn.
  all: rewrite <- (sqrt_square 7) by lra; apply sqrt_lt_1_alt; lra.
Qed.

(** C6, evaluated on the completion of "Late for Appointment".  The run
    [lateForAppointment] is one the game can produce: its talks are with
    characters of the cast, each within reach of where that character
    wanders.  Whatever the random draws, after it the three steps
    of challenge 2 are done, the challenge is completed and no challenge
    is active; but its reward text was written to the dialogue box zero
    times, and so was the text [updateChallengeProgress] passes on
    completion.  [updateChallengeProgress] clears the active reference
    before [completeChallenge] runs, so [completeChallenge] returns at its
    first line; and [showDialog] ignores the texts of an object without
    [isMainNPC] and shows a generic line under the name Citizen. *)
Theorem reward_text_never_shown :
  forall random : nat -> nat,
  exists g c,
    Forall producible lateForAppointment /\
    Forall nearHome lateForAppointment /\
    Challenges.run random Challenges.initializeChallenges lateForAppointment
    = Some g /\
    Challenges.challengeOf 2 g = Some c /\
    forallb Challenges.stepCompleted (Challenges.steps c) = true /\
    Challenges.completed c = true /\
    Challenges.activeChallenge g = None /\
    timesShown (Challenges.reward c) g = 0%nat /\
    timesShown "Well done! You've completed the challenge!" g = 0%nat.
Proof.
  intros random. exists (afterAppointment random). eexists.
  split; [apply lateForAppointment_producible|].
  split; [apply lateForAppointment_nearHome|].
  split; [apply run_lateForAppointment|].
  split; [reflexivity|]. cbn [Challenges.steps Challenges.completed
    Challenges.reward Challenges.activeChallenge afterAppointment].
  repeat (split; [reflexivity|]).
  unfold timesShown.
  cbn [Challenges.effects afterAppointment filter].
  rewrite !isShown_pick by not_in_pool. split; reflexivity.
Qed.

(** C7, evaluated on a click on the completed "Late for Appointment",
    after the run [lateForAppointment], which the game can produce (talks
    with characters of the cast, each within reach of where that
    character wanders).  The catalog and the active reference are
    unchanged, but what is written to the dialogue box is a generic line
    under the name Citizen: the text "You've already completed this
    challenge!" is never shown. *)
Theorem completed_challenge_notice_not_shown :
  forall random : nat -> nat,
  exists g g',
    Forall producible lateForAppointment /\
    Forall nearHome lateForAppointment /\
    Challenges.run random Challenges.initializeChallenges lateForAppointment
    = Some g /\
    Challenges.step random g (Challenges.Start 2) = Some g' /\
    Challenges.challenges g' = Challenges.challenges g /\
    Challenges.activeChallenge g' = Challenges.activeChallenge g /\
    Challenges.effects g'
    = (Challenges.effects g
       ++ [Challenges.Shown (Some "Citizen"%string)
             (Challenges.pick random 7 Challenges.genericDialogs)])%list /\
    timesShown "You've already completed this challenge!" g' = 0%nat.
Proof.
  intros random. exists (afterAppointment random). eexists.
  split; [apply lateForAppointment_producible|].
  split; [apply lateForAppointment_nearHome|].
  split; [apply run_lateForAppointment|].
  split; [reflexivity|].
  repeat (split; [reflexivity|]).
  unfold timesShown.
  cbn -[Challenges.pick isShown].
  cbn [filter].
  rewrite !isShown_pick by not_in_pool. reflexivity.
Qed.


(** ** The interaction freeze *)

Section FreezeFacts.
Import Freeze.
Local Open Scope N_scope.

(** One talk with a main character at rest: stopped until the delay has
    run, then back to the speed it had. *)
Lemma single_freeze others v (now T : N) :
  let s := mkState (mkNPC (Some (mkUserData v)) None :: others) [] [] in
  (now <= T < now + freezeDuration ->
   movementSpeed (stateAt s [(now, Main 0)] T) (Main 0) = Some 0%R) /\
  (now + freezeDuration <= T ->
   movementSpeed (stateAt s [(now, Main 0)] T) (Main 0) = v).
Proof.
  intros s. unfold stateAt, play, elapse. cbn. split; intros H.
  - replace (now + freezeDuration <=? T) with false
      by (symmetry; apply N.leb_gt; lia).
    reflexivity.
  - replace (now + freezeDuration <=? T) with true
      by (symmetry; apply N.leb_le; lia).
    reflexivity.
Qed.

End FreezeFacts.

(** C9, evaluated on two talks with the same main character, 10 seconds
    apart.  The second talk notes the speed 0 of the stopped character.
    35 seconds in, 25 seconds after the second talk, the first timer has
    put the speed 0.01 back: the character walks although its second
    freeze still has 5 seconds to run.  From 40 seconds on the second
    timer has written the 0 it noted: the character never walks again. *)
Theorem second_talk_breaks_freeze :
  Freeze.movementSpeed
    (Freeze.stateAt mrsWicketAlone twoTalks 35000%N) (Freeze.Main 0)
  = Some (1 / 100)
  /\ forall T : N,
      (40000 <= T)%N ->
      Freeze.movementSpeed
        (Freeze.stateAt mrsWicketAlone twoTalks T) (Freeze.Main 0)
      = Some 0.
Proof.
  split; [reflexivity|].
  intros T HT.
  unfold Freeze.stateAt, Freeze.play, Freeze.elapse. cbn.
  change Freeze.freezeDuration with 30000%N.
  replace (30000 <=? T)%N with true by (symmetry; apply N.leb_le; lia).
  replace (40000 <=? T)%N with true by (symmetry; apply N.leb_le; lia).
  reflexivity.
Qed.

Lemma second_talk_breaks_freeze_witness :
  Freeze.movementSpeed
    (Freeze.stateAt mrsWicketAlone twoTalks 40000%N) (Freeze.Main 0)
  = Some 0.
Proof.
  apply (proj2 second_talk_breaks_freeze 40000%N). vm_compute. discriminate.
Defined.

(** A talk with a background character does not stop it: the handler
    finds the empty [userData] of the group and writes the 0 there, while
    the movement loop reads the group's own [walkSpeed]. *)
Lemma background_character_not_stopped speed (now T : N) :
  Freeze.movementSpeed
    (Freeze.stateAt (Freeze.mkState [] [Freeze.createNPC speed] [])
       [(now, Freeze.Regular 0%nat)] T)
    (Freeze.Regular 0)
  = Some speed.
Proof.
  unfold Freeze.stateAt, Freeze.play, Freeze.elapse. cbn.
  destruct (now + Freeze.freezeDuration <=? T)%N; reflexivity.
Qed.

(** * Further properties

    ** Player movement *)

Section MovementMore.
Import Movement.

Variable wd : World.

Lemma checkStores_miss pb sts :
  checkStores pb true sts = false ->
  exists o b, In o sts /\ queryBox o = Some b /\ intersectsBox b pb = true.
Proof.
  unfold checkStores, queryBox.
  induction sts as [|o sts IH]; cbn; [discriminate|].
  destruct (Three.collider o) as [c|] eqn:Hc.
  - destruct (intersectsBox (translate c (Three.position o)) pb) eqn:Hi.
    + intros _. exists o, (translate c (Three.position o)).
      rewrite Hc. auto.
    + intros H. destruct (IH H) as (o' & b & Hin & Hq & Hb).
      exists o', b. auto.
  - intros H. destruct (IH H) as (o' & b & Hin & Hq & Hb).
    exists o', b. auto.
Qed.

Lemma checkScene_miss pb sc :
  checkScene pb true sc = false ->
  exists o b, In o (traverse sc) /\ isStore o = false /\
              queryBox o = Some b /\ intersectsBox b pb = true.
Proof.
  unfold checkScene, queryBox.
  induction (traverse sc) as [|o l IH]; cbn; [discriminate|].
  destruct (Three.collider o) as [c|] eqn:Hc.
  - destruct (isStore o) eqn:Hs; cbn.
    + intros H. destruct (IH H) as (o' & b & Hin & Hs' & Hq & Hb).
      exists o', b. auto.
    + destruct (intersectsBox (translate c (Three.position o)) pb) eqn:Hi.
      * intros _. exists o, (translate c (Three.position o)).
        rewrite Hc. auto.
      * intros H. destruct (IH H) as (o' & b & Hin & Hs' & Hq & Hb).
        exists o', b. auto.
  - intros H. destruct (IH H) as (o' & b & Hin & Hs' & Hq & Hb).
    exists o', b. auto.
Qed.

Lemma canMove_miss k p :
  canMove wd k p = false ->
  exists C b, registered wd C /\ queryBox C = Some b /\
              intersectsBox b (playerBox k p) = true.
Proof.
  unfold canMove. intros H.
  destruct (checkStores (playerBox k p) true (stores wd)) eqn:Hst.
  - destruct (checkScene_miss _ _ H) as (o & b & Hin & Hs & Hq & Hb).
    exists o, b. split; [right; auto|auto].
  - destruct (checkStores_miss _ _ Hst) as (o & b & Hin & Hq & Hb).
    exists o, b. split; [left; auto|auto].
Qed.




End MovementMore.





Section NeverInside.
Import Movement.

Variable wd : World.
Hypothesis margin : insideMargin wd.

Lemma clear_after_update k p :
  inBounds (position p) -> clearOf wd (position p) ->
  clearOf wd (position (updatePlayer wd k p)).
Proof.
  intros Hb Hc.
  destruct (canMove wd k p) eqn:Hm.
  - intros C b HC Hq.
    assert (Hcand : intersectsBox b (playerBox k p) = false).
    { destruct (intersectsBox b (playerBox k p)) eqn:Hi; [|reflexivity].
      rewrite (canMove_hit wd k p C b HC Hq Hi) in Hm. discriminate. }
    destruct (margin C b HC Hq) as (Hx1 & Hx2 & Hz1 & Hz2).
    unfold updatePlayer. rewrite Hm. cbn.
    unfold playerBox in Hcand. set (c := nextPosition k p) in *.
    unfold intersectsBox, footprint, setFromCenterAndSize, playerSize,
      clamp, maxDistance, Rmax, Rmin in *.
    cbn in *.
    repeat destruct Rle_dec;
      repeat match goal with
      | |- context [ltb ?u ?v] => destruct (ltb u v) eqn:?
      end; cbn in *; try reflexivity; try discriminate;
      repeat match goal with
      | H : ltb _ _ = false |- _ => apply ltb_false in H
      | H : ltb _ _ = true |- _ => apply ltb_true in H
      end; lra.
  - rewrite (rejected_keeps_position wd k p Hb Hm). exact Hc.
Qed.

Lemma clear_run frames :
  clearOf wd (position setupPlayer) -> clearOf wd (position (run wd frames)).
Proof.
  intros H. destruct frames as [|k frames] using rev_ind; [exact H|].
  rewrite run_snoc. apply clear_after_update; [apply run_inBounds|exact IHframes].
Qed.

End NeverInside.

(** Goes through the registered colliders of a world given in full. *)
Ltac each_collider HC Hq :=
  destruct HC as [HC|[HC _]]; cbn in HC;
  repeat (destruct HC as [<-|HC]; [cbn in Hq; try discriminate|]);
  try (destruct HC);
  try (injection Hq as <-).

Lemma city_insideMargin : insideMargin (City.createCity []).
Proof.
  intros C b HC Hq. each_collider HC Hq; cbn; lra.
Qed.

Lemma city_clear_at_start :
  clearOf (City.createCity []) (Movement.position Movement.setupPlayer).
Proof.
  intros C b HC Hq.
  each_collider HC Hq;
    unfold intersectsBox, footprint, setFromCenterAndSize,
      Movement.playerSize; cbn; decide_cmp; reflexivity.
Qed.

(** X3.  In a world whose colliders keep clear of the edge of the world
    square, a player that starts clear of every collider stays clear of
    them: after any run of frames its footprint meets no box a query
    resolves.  (A move is taken only onto a clear candidate, and a
    candidate the boundary clamp moves ends up beside the edge.) *)
Theorem player_never_enters_collider :
  forall (wd : Movement.World) (frames : list Movement.Keys),
    insideMargin wd ->
    clearOf wd (Movement.position Movement.setupPlayer) ->
    clearOf wd (Movement.position (Movement.run wd frames)).
Proof. intros wd frames Hm Hc. now apply clear_run. Qed.

Lemma player_never_enters_collider_witness :
  clearOf (City.createCity [])
    (Movement.position (Movement.run (City.createCity []) [keyW; keyW])).
Proof.
  apply player_never_enters_collider.
  - exact city_insideMargin.
  - exact city_clear_at_start.
Defined.

(** ** Characters on the move *)




Lemma stopped_projected u1 u2 npc :
  stopped npc -> Wander.projected u1 u2 npc = Wander.position npc.
Proof.
  unfold stopped, Wander.projected. intros ->.
  destruct (Wander.position npc) as [px py pz]. cbn. f_equal; ring.
Qed.

(** X6.  A main character whose speed is 0 stays where it is in every
    frame.  But a frame that advances it sets its facing to its walking
    heading, whatever angle the interaction handler had turned it to: the
    turn towards the player lasts until the next update of the
    characters. *)
Theorem stopped_character_turns_away :
  forall (npc : Wander.MainNPC) (angle : R) (playerPos : Vector3)
         (u1 u2 : R),
    stopped npc ->
    let npc' :=
      Wander.updateMainNPC playerPos u1 u2
        (Wander.step npc (Wander.Face angle)) in
    Wander.position npc' = Wander.position npc
    /\ (Wander.advanced playerPos npc = true ->
        Wander.rotation_y npc' = Wander.walkDirection npc').
Proof.
  intros npc angle playerPos u1 u2 Hs npc'. subst npc'.
  unfold Wander.updateMainNPC. cbn.
  change (Wander.advanced playerPos
            (Wander.mkMainNPC (Wander.position npc) angle
               (Wander.walkSpeed npc) (Wander.walkDirection npc)
               (Wander.originalPosition npc) (Wander.maxWanderDistance npc)))
    with (Wander.advanced playerPos npc).
  destruct (Wander.advanced playerPos npc); [|now split].
  destruct (ltb _ _); cbn; split; trivial.
  apply (stopped_projected u1 u2
           (Wander.mkMainNPC (Wander.position npc) angle
              (Wander.walkSpeed npc) (Wander.walkDirection npc)
              (Wander.originalPosition npc) (Wander.maxWanderDistance npc))).
  exact Hs.
Qed.

Lemma stopped_character_turns_away_witness :
  let npc := Wander.mkMainNPC origin 0 0 0 origin 5 in
  let npc' :=
    Wander.updateMainNPC origin 1 0 (Wander.step npc (Wander.Face 1)) in
  Wander.rotation_y npc' = Wander.walkDirection npc'.
Proof.
  intros npc npc'.
  refine (proj2 (stopped_character_turns_away npc 1 origin 1 0 _) _).
  - reflexivity.
  - unfold Wander.advanced. cbn. rewrite distanceTo_self.
    apply leb_true. lra.
Defined.

(** ** Interaction targeting *)

Section TargetingFacts.
Import Targeting.

Lemma updateAt_same {A} (f : A -> A) l i :
  (forall a, nth_error l i = Some a -> f a = a) -> updateAt i f l = l.
Proof.
  revert i. induction l as [|a l IH]; intros [|i] H; cbn; trivial.
  - now rewrite (H a eq_refl).
  - f_equal. apply IH. exact H.
Qed.

(** A scan keeps the earliest of the nearest. *)
Lemma scan_nearest {A K} (key : A -> K) (dist : A -> R) (l : list A)
    (c : K) (d : R) :
  fold_left (fun b a => consider b (key a) (dist a)) l None = Some (c, d) ->
  exists pre a post,
    l = pre ++ a :: post /\ c = key a /\ d = dist a /\
    (forall a', In a' pre -> d < dist a') /\
    (forall a', In a' post -> d <= dist a').
Proof.
  assert (G : forall l pre0 a0 post0 c d,
             (forall a, In a pre0 -> dist a0 < dist a) ->
             (forall a, In a post0 -> dist a0 <= dist a) ->
             fold_left (fun b a => consider b (key a) (dist a)) l
               (Some (key a0, dist a0)) = Some (c, d) ->
             exists pre a post,
               pre0 ++ a0 :: post0 ++ l = pre ++ a :: post /\
               c = key a /\ d = dist a /\
               (forall a', In a' pre -> d < dist a') /\
               (forall a', In a' post -> d <= dist a')).
  { clear. induction l as [|a l IH]; intros pre0 a0 post0 c d Hpre Hpost; cbn.
    - intros [= <- <-]. exists pre0, a0, post0. rewrite app_nil_r. auto.
    - destruct (ltb (dist a) (dist a0)) eqn:E.
      + apply ltb_true in E. intros H.
        destruct (IH (pre0 ++ a0 :: post0) a [] c d)
          as (pre & a1 & post & Hl & R).
        * intros a' Ha'. apply in_app_iff in Ha' as [Ha'|[<-|Ha']].
          -- specialize (Hpre a' Ha'). lra.
          -- exact E.
          -- specialize (Hpost a' Ha'). lra.
        * intros a' [].
        * exact H.
        * exists pre, a1, post. split; [|exact R]. rewrite <- Hl. cbn.
          rewrite <- app_assoc. reflexivity.
      + apply ltb_false in E. intros H.
        destruct (IH pre0 a0 (post0 ++ [a]) c d)
          as (pre & a1 & post & Hl & R).
        * exact Hpre.
        * intros a' Ha'. apply in_app_iff in Ha' as [Ha'|[<-|[]]]; auto.
        * exact H.
        * exists pre, a1, post. split; [|exact R]. rewrite <- Hl.
          rewrite <- !app_assoc. reflexivity. }
  destruct l as [|a l]; cbn; [discriminate|].
  intros H. destruct (G l [] a [] c d) as (pre & a1 & post & Hl & R).
  - intros a' [].
  - intros a' [].
  - exact H.
  - exists pre, a1, post. split; [exact Hl|exact R].
Qed.

Lemma scan_none {A K} (key : A -> K) (dist : A -> R) (l : list A) :
  fold_left (fun b a => consider b (key a) (dist a)) l None = None -> l = [].
Proof.
  destruct l as [|a l]; [reflexivity|]. cbn.
  assert (G : forall l b,
             fold_left (fun b a => consider b (key a) (dist a)) l (Some b)
             <> None).
  { clear. induction l as [|a l IH]; intros [c d]; cbn; [discriminate|].
    destruct (ltb _ _); apply IH. }
  intros H. now apply G in H.
Qed.

Lemma closestNPC_scan w :
  closestNPC w
  = fold_left (fun b npc => consider b npc (distanceTo (player w) (snd npc)))
      (candidates w) None.
Proof. unfold closestNPC, scanNPCs, candidates. now rewrite fold_left_app. Qed.

Lemma closestNPC_nearest w c d :
  closestNPC w = Some (c, d) ->
  exists pre post,
    candidates w = pre ++ c :: post /\
    d = distanceTo (player w) (snd c) /\
    (forall a, In a pre -> d < distanceTo (player w) (snd a)) /\
    (forall a, In a post -> d <= distanceTo (player w) (snd a)).
Proof.
  intros H. rewrite closestNPC_scan in H.
  destruct (scan_nearest (fun a => a)
              (fun a => distanceTo (player w) (snd a)) _ c d H)
    as (pre & a & post & Hl & -> & R).
  now exists pre, post.
Qed.

End TargetingFacts.

(** X7.  The character the E key handler picks is a nearest one: no
    character is nearer to the player; of several equally near it is the
    first in the order main characters, then background characters. *)
Theorem closest_npc_is_nearest :
  forall (w : Targeting.World) (c : Freeze.Ref * Vector3) (d : R),
    Targeting.closestNPC w = Some (c, d) ->
    exists pre post,
      Targeting.candidates w = pre ++ c :: post /\
      d = distanceTo (Targeting.player w) (snd c) /\
      (forall a, In a pre ->
                 d < distanceTo (Targeting.player w) (snd a)) /\
      (forall a, In a post ->
                 d <= distanceTo (Targeting.player w) (snd a)).
Proof.
  intros w c d H. exact (closestNPC_nearest w c d H).
Qed.

Lemma closest_npc_is_nearest_witness :
  exists pre post,
    Targeting.candidates withCompany
    = (pre ++ (Freeze.Main 0, vec3 1 0 0) :: post)%list /\
    distanceTo origin (vec3 1 0 0)
    = distanceTo (Targeting.player withCompany) (vec3 1 0 0) /\
    (forall a, In a pre ->
               distanceTo origin (vec3 1 0 0)
               < distanceTo (Targeting.player withCompany) (snd a)) /\
    (forall a, In a post ->
               distanceTo origin (vec3 1 0 0)
               <= distanceTo (Targeting.player withCompany) (snd a)).
Proof.
  exact (closest_npc_is_nearest withCompany (Freeze.Main 0, vec3 1 0 0)
           (distanceTo origin (vec3 1 0 0)) eq_refl).
Defined.

Section TargetingMore.
Import Targeting.

Lemma sqrt_lt_bound a b : 0 <= a < b * b -> 0 <= b -> sqrt a < b.
Proof.
  intros H Hb. rewrite <- (sqrt_square b Hb). now apply sqrt_lt_1_alt.
Qed.

Lemma sqrt_ge_bound a b : b * b <= a -> 0 <= b -> b <= sqrt a.
Proof.
  intros H Hb. rewrite <- (sqrt_square b Hb) at 1. now apply sqrt_le_1_alt.
Qed.

Lemma closestInteractable_scan w :
  closestInteractable w
  = fold_left (fun b a => consider b (fst a) (snd a)) (doors w) None.
Proof.
  unfold closestInteractable, doors.
  generalize (@None (nat * R)).
  induction (indexed (fun i => i) 0 (nodes w)) as [|e l IH]; intros b; cbn;
    [reflexivity|].
  destruct (doorData (snd e)); cbn; apply IH.
Qed.

Lemma indexed_nth {A} k (l : list A) i a :
  In (i, a) (indexed (fun i => i) k l) ->
  (k <= i)%nat /\ nth_error l (i - k) = Some a.
Proof.
  revert k. induction l as [|b l IH]; intros k; cbn; [easy|].
  intros [[= <- <-]|H].
  - rewrite Nat.sub_diag. auto.
  - destruct (IH _ H) as [Hk Hn]. split; [lia|].
    replace (i - k)%nat with (S (i - S k)) by lia. exact Hn.
Qed.

Lemma doors_nth w i d :
  In (i, d) (doors w) ->
  exists n dd,
    nth_error (nodes w) i = Some n /\ doorData n = Some dd /\
    d = distanceTo (player w) (doorWorldPos n dd).
Proof.
  unfold doors. intros H. apply in_flat_map in H as ([j n] & Hin & Hd).
  cbn in Hd. destruct (doorData n) as [dd|] eqn:E; [|destruct Hd].
  destruct Hd as [[= <- <-]|[]].
  apply indexed_nth in Hin as [_ Hn]. rewrite Nat.sub_0_r in Hn.
  now exists n, dd.
Qed.

Lemma nth_doors w i n dd :
  nth_error (nodes w) i = Some n -> doorData n = Some dd ->
  In (i, distanceTo (player w) (doorWorldPos n dd)) (doors w).
Proof.
  unfold doors. generalize (player w) as pl. intros pl Hn Hd.
  assert (G : forall l k j,
             nth_error l j = Some n ->
             In ((k + j)%nat, distanceTo pl (doorWorldPos n dd))
               (flat_map
                  (fun e =>
                     match doorData (snd e) with
                     | Some d => [(fst e, distanceTo pl (doorWorldPos (snd e) d))]
                     | None => []
                     end)
                  (indexed (fun i => i) k l))).
  { induction l as [|b l IH]; intros k [|j]; cbn; try discriminate.
    - intros [= ->]. rewrite Hd. rewrite Nat.add_0_r. now left.
    - intros H. apply in_or_app. right.
      replace (k + S j)%nat with (S k + j)%nat by lia. now apply IH. }
  exact (G _ 0%nat i Hn).
Qed.

(** Toggling a door changes neither which nodes have doors nor where they
    are. *)
Lemma doors_toggle w i : doors (toggleDoor w i) = doors w.
Proof.
  unfold doors, toggleDoor. cbn. generalize 0%nat as k. revert i.
  induction (nodes w) as [|n l IH]; intros i k; [now destruct i|].
  destruct i as [|i]; cbn.
  - f_equal. now destruct n as [p [d|] h].
  - f_equal. apply IH.
Qed.

Lemma toggle_twice n : toggle (toggle n) = n.
Proof.
  unfold toggle. destruct n as [p [d|] h]; cbn; [|reflexivity].
  destruct d as [dp o t]. cbn. now rewrite negb_involutive.
Qed.

Lemma pressE_nobody w :
  (forall c, In c (candidates w) ->
             interactionDistance <= distanceTo (player w) (snd c)) ->
  pressE w = tryDoor w.
Proof.
  intros H. unfold pressE.
  destruct (closestNPC w) as [[[r p] d]|] eqn:E; [|reflexivity].
  destruct (closestNPC_nearest w (r, p) d E) as (pre & post & Hc & -> & _).
  replace (ltb _ interactionDistance) with false; [reflexivity|].
  symmetry. apply ltb_false. apply (H (r, p)). rewrite Hc.
  apply in_elt.
Qed.

Lemma tryDoor_nothing w :
  (forall n d, In n (nodes w) -> doorData n = Some d ->
               interactionDistance
               <= distanceTo (player w) (doorWorldPos n d)) ->
  tryDoor w = (w, Nothing).
Proof.
  intros Hdoor. unfold tryDoor.
  destruct (closestInteractable w) as [[i d]|] eqn:E; [|reflexivity].
  rewrite closestInteractable_scan in E.
  destruct (scan_nearest fst snd _ i d E)
    as (pre & [i' d'] & post & Hl & Hi & Hd & _).
  cbn in Hi, Hd. subst i' d'.
  assert (Hin : In (i, d) (doors w)) by (rewrite Hl; apply in_elt).
  destruct (doors_nth w i d Hin) as (n & dd & Hnth & Hdd & ->).
  replace (ltb _ interactionDistance) with false; [reflexivity|].
  symmetry. apply ltb_false. apply Hdoor; [|exact Hdd].
  eapply nth_error_In; eauto.
Qed.

Lemma distanceTo_z u v : Rabs (z u - z v) <= distanceTo u v.
Proof.
  unfold distanceTo, distanceToSquared. cbn.
  rewrite <- sqrt_Rsqr_abs. apply sqrt_le_1_alt. unfold Rsqr.
  pose proof (Rle_0_sqr (x u - x v)). pose proof (Rle_0_sqr (y u - y v)).
  unfold Rsqr in *. lra.
Qed.

Lemma createArbourRoad_house house :
  In house createArbourRoad ->
  z (position house) = 0 /\ y (position house) = 0 /\
  exists b, doorData house = Some (houseDoorData b).
Proof.
  unfold createArbourRoad. cbn.
  intros H. repeat destruct H as [<-|H]; try destruct H; cbn; eauto.
Qed.

Lemma street_doors_far w house d :
  streetDoorsOnly w ->
  In house createArbourRoad -> doorData house = Some d ->
  distanceTo (player w) (doorInWorld house d) < interactionDistance ->
  forall n dd, In n (nodes w) -> doorData n = Some dd ->
               interactionDistance
               <= distanceTo (player w) (doorWorldPos n dd).
Proof.
  intros Hs Hh Hd Hnear n dd Hn Hdd.
  destruct (createArbourRoad_house house Hh) as (Hz & _ & b & Hb).
  rewrite Hb in Hd. injection Hd as <-.
  pose proof (distanceTo_z (player w) (doorInWorld house (houseDoorData b)))
    as Hp.
  assert (Hzp : z (doorInWorld house (houseDoorData b)) = -27)
    by (unfold doorInWorld, arbourRoadPosition; cbn; rewrite Hz; lra).
  rewrite Hzp in Hp.
  destruct (Hs n dd Hn Hdd) as (Hdp & h' & Hh' & Hpos).
  destruct (createArbourRoad_house h' Hh') as (Hz' & _).
  pose proof (distanceTo_z (player w) (doorWorldPos n dd)) as Hq.
  assert (Hzq : z (doorWorldPos n dd) = 3)
    by (unfold doorWorldPos; cbn; rewrite Hdp, Hpos, Hz'; cbn; lra).
  rewrite Hzq in Hq. unfold interactionDistance in *.
  unfold Rabs in Hp, Hq.
  destruct (Rcase_abs _) in Hp; destruct (Rcase_abs _) in Hq; lra.
Qed.

Lemma toggleDoor_twice w i : toggleDoor (toggleDoor w i) i = w.
Proof.
  unfold toggleDoor. destruct w as [p m r l]. cbn. f_equal.
  rewrite updateAt_twice. apply updateAt_same. intros n _. apply toggle_twice.
Qed.

Lemma tryDoor_used w w' i t m r :
  tryDoor w = (w', UseDoor i t m r) ->
  exists n d,
    nth_error (nodes w) i = Some n /\ doorData n = Some d /\
    closestInteractable w
    = Some (i, distanceTo (player w) (doorWorldPos n d)) /\
    distanceTo (player w) (doorWorldPos n d) < interactionDistance /\
    w' = toggleDoor w i /\ t = doorType d /\
    m = openingMessage (isOpen d) /\
    r = if hasDoorMesh n
        then Some (if negb (isOpen d) then PI / 2 else 0) else None.
Proof.
  unfold tryDoor.
  destruct (closestInteractable w) as [[j dist]|] eqn:E; [|discriminate].
  destruct (ltb dist interactionDistance) eqn:L; [|discriminate].
  apply ltb_true in L.
  pose proof E as E'. rewrite closestInteractable_scan in E'.
  destruct (scan_nearest fst snd _ j dist E')
    as (pre & [j' d'] & post & Hl & Hj & Hd & _).
  cbn in Hj, Hd. subst j' d'.
  assert (Hin : In (j, dist) (doors w)) by (rewrite Hl; apply in_elt).
  destruct (doors_nth w j dist Hin) as (n & dd & Hnth & Hdd & ->).
  unfold useDoor. rewrite Hnth, Hdd. intros [= <- <- <- <- <-].
  exists n, dd. repeat split; auto.
Qed.

End TargetingMore.

(** X8.  A character in range comes before any door: when some character
    is within the interaction distance of 2, pressing E talks to a
    character and leaves every door as it is, however near a door may be.
    When no character and no door is within that distance, pressing E
    changes nothing. *)
Theorem npc_before_door_else_nothing :
  forall w : Targeting.World,
    ((exists c, In c (Targeting.candidates w) /\
                distanceTo (Targeting.player w) (snd c)
                < Targeting.interactionDistance) ->
     exists r angle,
       Targeting.pressE w = (w, Targeting.TalkTo r angle))
    /\ ((forall c, In c (Targeting.candidates w) ->
                   Targeting.interactionDistance
                   <= distanceTo (Targeting.player w) (snd c)) ->
        (forall n d, In n (Targeting.nodes w) ->
                     Targeting.doorData n = Some d ->
                     Targeting.interactionDistance
                     <= distanceTo (Targeting.player w)
                          (Targeting.doorWorldPos n d)) ->
        Targeting.pressE w = (w, Targeting.Nothing)).
Proof.
  intros w. split.
  - intros (c & Hin & Hd). unfold Targeting.pressE.
    destruct (Targeting.closestNPC w) as [[[r p] d]|] eqn:E.
    + destruct (closestNPC_nearest w (r, p) d E)
        as (pre & post & Hc & Hdist & Hpre & Hpost).
      assert (d <= distanceTo (Targeting.player w) (snd c)).
      { rewrite Hc in Hin. apply in_app_iff in Hin as [Hin|[<-|Hin]].
        - specialize (Hpre c Hin). lra.
        - rewrite Hdist. cbn. lra.
        - exact (Hpost c Hin). }
      replace (ltb d Targeting.interactionDistance) with true
        by (symmetry; apply ltb_true; lra).
      eauto.
    + rewrite closestNPC_scan in E.
      apply (scan_none (fun a => a)) in E.
      rewrite E in Hin. destruct Hin.
  - intros Hn Hdoor. rewrite (pressE_nobody w Hn).
    now apply tryDoor_nothing.
Qed.

Lemma atBeanHouseDoor_streetDoorsOnly : Targeting.streetDoorsOnly atBeanHouseDoor.
Proof.
  intros n d Hn Hd. split.
  - destruct (createArbourRoad_house n Hn) as (_ & _ & b & Hb).
    rewrite Hb in Hd. now injection Hd as <-.
  - now exists n.
Qed.

Lemma atBeanHouseDoor_no_door_near n d :
  In n (Targeting.nodes atBeanHouseDoor) -> Targeting.doorData n = Some d ->
  Targeting.interactionDistance
  <= distanceTo (Targeting.player atBeanHouseDoor) (Targeting.doorWorldPos n d).
Proof.
  apply (street_doors_far atBeanHouseDoor
           (Targeting.createBritishHouse true (vec3 0 0 0))
           (Targeting.houseDoorData true)).
  - exact atBeanHouseDoor_streetDoorsOnly.
  - now left.
  - reflexivity.
  - unfold distanceTo, distanceToSquared, Targeting.interactionDistance. cbn.
    apply sqrt_lt_bound; lra.
Qed.

Lemma npc_before_door_else_nothing_witness :
  (exists r angle,
      Targeting.pressE withCompany = (withCompany, Targeting.TalkTo r angle))
  /\ Targeting.pressE atBeanHouseDoor = (atBeanHouseDoor, Targeting.Nothing).
Proof.
  split.
  - apply (proj1 (npc_before_door_else_nothing withCompany)).
    exists (Freeze.Main 0, vec3 1 0 0). split; [now left|].
    unfold distanceTo, distanceToSquared, Targeting.interactionDistance. cbn.
    apply sqrt_lt_bound; lra.
  - apply (proj2 (npc_before_door_else_nothing atBeanHouseDoor)).
    + intros c [].
    + exact atBeanHouseDoor_no_door_near.
Defined.

(** X9.  Whenever pressing E uses a door, that door is within the
    interaction distance, the message says Opening for a closed door and
    Closing for an open one, only the open flag of that door is switched,
    and pressing E again uses the same door with the other message and
    gives back the world as it was. *)
Theorem door_press_round_trip :
  forall (w w' : Targeting.World) (i : nat) (t m : string) (r : option R),
    Targeting.pressE w = (w', Targeting.UseDoor i t m r) ->
    exists n d,
      nth_error (Targeting.nodes w) i = Some n /\
      Targeting.doorData n = Some d /\
      distanceTo (Targeting.player w) (Targeting.doorWorldPos n d)
      < Targeting.interactionDistance /\
      t = Targeting.doorType d /\
      m = Targeting.openingMessage (Targeting.isOpen d) /\
      w' = Targeting.toggleDoor w i /\
      exists r',
        Targeting.pressE w'
        = (w, Targeting.UseDoor i t
                (Targeting.openingMessage (negb (Targeting.isOpen d))) r').
Proof.
  intros w w' i t m r H.
  assert (Hnpc : forall v, Targeting.closestNPC (Targeting.toggleDoor v i)
                           = Targeting.closestNPC v) by reflexivity.
  assert (Ht : Targeting.tryDoor w = (w', Targeting.UseDoor i t m r)
               /\ Targeting.pressE w' = Targeting.tryDoor w').
  { unfold Targeting.pressE in H.
    destruct (Targeting.closestNPC w) as [[[ref p] dist]|] eqn:E.
    - destruct (ltb dist Targeting.interactionDistance) eqn:L;
        [discriminate|].
      split; [exact H|].
      destruct (tryDoor_used _ _ _ _ _ _ H) as (_ & _ & _ & _ & _ & _ & -> & _).
      unfold Targeting.pressE. rewrite Hnpc, E. cbn. now rewrite L.
    - split; [exact H|].
      destruct (tryDoor_used _ _ _ _ _ _ H) as (_ & _ & _ & _ & _ & _ & -> & _).
      unfold Targeting.pressE. now rewrite Hnpc, E. }
  destruct Ht as [Ht Hp].
  destruct (tryDoor_used _ _ _ _ _ _ Ht)
    as (n & d & Hn & Hd & Hc & Hnear & -> & -> & -> & _).
  exists n, d. repeat split; auto.
  rewrite Hp. unfold Targeting.tryDoor.
  rewrite closestInteractable_scan, doors_toggle,
    <- closestInteractable_scan, Hc.
  replace (ltb _ Targeting.interactionDistance) with true
    by (symmetry; now apply ltb_true).
  unfold Targeting.useDoor. cbn [Targeting.nodes Targeting.toggleDoor].
  rewrite nth_error_updateAt_eq, Hn. cbn [option_map].
  rewrite toggleDoor_twice. unfold Targeting.toggle. rewrite Hd. cbn.
  eauto.
Qed.

Lemma door_press_round_trip_witness :
  exists n d,
    nth_error (Targeting.nodes atTheDoor) 0 = Some n /\
    Targeting.doorData n = Some d /\
    distanceTo (Targeting.player atTheDoor) (Targeting.doorWorldPos n d)
    < Targeting.interactionDistance /\
    "House"%string = Targeting.doorType d /\
    "Opening door..."%string
    = Targeting.openingMessage (Targeting.isOpen d) /\
    Targeting.toggleDoor atTheDoor 0 = Targeting.toggleDoor atTheDoor 0 /\
    exists r',
      Targeting.pressE (Targeting.toggleDoor atTheDoor 0)
      = (atTheDoor,
         Targeting.UseDoor 0 "House"%string
           (Targeting.openingMessage (negb (Targeting.isOpen d))) r').
Proof.
  apply (door_press_round_trip atTheDoor (Targeting.toggleDoor atTheDoor 0) 0
           "House"%string "Opening door..."%string (Some (PI / 2))).
  unfold Targeting.pressE, Targeting.tryDoor. cbn.
  replace (ltb _ Targeting.interactionDistance) with true; [reflexivity|].
  symmetry. apply ltb_true.
  unfold distanceTo, distanceToSquared, Targeting.interactionDistance. cbn.
  apply sqrt_lt_bound; lra.
Defined.

(** X10.  Whenever pressing E talks to a character, that character is
    within the interaction distance and is turned towards the player: its
    forward axis, turned by the new [rotation.y] about the vertical and
    scaled by the horizontal distance, is the horizontal offset of the
    player from the character (when the two do not stand on one spot).
    The world is otherwise left as it was. *)
Theorem talk_turns_character_to_player :
  forall (w w' : Targeting.World) (r : Freeze.Ref) (angle : R),
    Targeting.pressE w = (w', Targeting.TalkTo r angle) ->
    w' = w /\
    exists p,
      In (r, p) (Targeting.candidates w) /\
      distanceTo (Targeting.player w) p < Targeting.interactionDistance /\
      (x (Targeting.offsetTo w p) <> 0 \/ z (Targeting.offsetTo w p) <> 0 ->
       applyAxisAngleY
         (vec3 0 0 (distanceTo (Targeting.offsetTo w p) origin)) angle
       = Targeting.offsetTo w p).
Proof.
  intros w w' r angle H. unfold Targeting.pressE in H.
  assert (Hdoor : forall v, Targeting.tryDoor v
                            <> (w', Targeting.TalkTo r angle)).
  { intros v. unfold Targeting.tryDoor, Targeting.useDoor.
    destruct (Targeting.closestInteractable v) as [[j dist]|];
      [|discriminate].
    destruct (ltb _ _); [|discriminate].
    destruct (nth_error _ _) as [n|]; [|discriminate].
    destruct (Targeting.doorData n); discriminate. }
  destruct (Targeting.closestNPC w) as [[[ref p] dist]|] eqn:E;
    [|now apply Hdoor in H].
  destruct (ltb dist Targeting.interactionDistance) eqn:L;
    [|now apply Hdoor in H].
  injection H as <- <- <-. split; [reflexivity|].
  destruct (closestNPC_nearest w (ref, p) dist E) as (pre & post & Hc & Hd & _).
  exists p. split; [rewrite Hc; apply in_elt|].
  split; [cbn in Hd; rewrite <- Hd; now apply ltb_true|].
  cbn. intros Hne.
  destruct (atan2_bearing (x (Targeting.player w) - x p)
              (z (Targeting.player w) - z p)) as [Hcos Hsin];
    [tauto|].
  unfold applyAxisAngleY, Targeting.offsetTo, distanceTo, distanceToSquared,
    origin. cbn.
  replace ((x (Targeting.player w) - x p - 0)
           * (x (Targeting.player w) - x p - 0) + (0 - 0) * (0 - 0)
           + (z (Targeting.player w) - z p - 0)
             * (z (Targeting.player w) - z p - 0))
    with ((z (Targeting.player w) - z p) * (z (Targeting.player w) - z p)
          + (x (Targeting.player w) - x p) * (x (Targeting.player w) - x p))
    by ring.
  f_equal; lra.
Qed.

Lemma talk_turns_character_to_player_witness :
  applyAxisAngleY
    (vec3 0 0 (distanceTo (Targeting.offsetTo withCompany (vec3 1 0 0)) origin))
    (Wander.atan2 (0 - 1) (0 - 0))
  = Targeting.offsetTo withCompany (vec3 1 0 0).
Proof.
  assert (Hp : Targeting.pressE withCompany
               = (withCompany,
                  Targeting.TalkTo (Freeze.Main 0)
                    (Wander.atan2 (0 - 1) (0 - 0)))).
  { unfold Targeting.pressE. cbn.
    replace (ltb _ Targeting.interactionDistance) with true; [reflexivity|].
    symmetry. apply ltb_true.
    unfold distanceTo, distanceToSquared, Targeting.interactionDistance. cbn.
    apply sqrt_lt_bound; lra. }
  destruct (talk_turns_character_to_player withCompany withCompany
              (Freeze.Main 0) (Wander.atan2 (0 - 1) (0 - 0)) Hp)
    as (_ & p & Hin & _ & Hface).
  destruct Hin as [Hin|[]]. injection Hin as <-.
  apply Hface. left. cbn. lra.
Defined.

(** X11.  The handler measures the way to a door from the house's place
    inside its street, not from where the house stands in the city: with
    the doors of the scene being those of Arbour Road and no character in
    range, pressing E anywhere within the interaction distance of the
    front door of one of these houses does nothing. *)
Theorem house_door_out_of_reach :
  forall (w : Targeting.World) (house : Targeting.Node)
         (d : Targeting.DoorData),
    Targeting.streetDoorsOnly w ->
    In house Targeting.createArbourRoad ->
    Targeting.doorData house = Some d ->
    distanceTo (Targeting.player w) (Targeting.doorInWorld house d)
    < Targeting.interactionDistance ->
    (forall c, In c (Targeting.candidates w) ->
               Targeting.interactionDistance
               <= distanceTo (Targeting.player w) (snd c)) ->
    Targeting.pressE w = (w, Targeting.Nothing).
Proof.
  intros w house d Hs Hh Hd Hnear Hnobody.
  rewrite (pressE_nobody w Hnobody). apply tryDoor_nothing.
  exact (street_doors_far w house d Hs Hh Hd Hnear).
Qed.

Lemma house_door_out_of_reach_witness :
  Targeting.pressE atBeanHouseDoor = (atBeanHouseDoor, Targeting.Nothing).
Proof.
  apply (house_door_out_of_reach atBeanHouseDoor
           (Targeting.createBritishHouse true (vec3 0 0 0))
           (Targeting.houseDoorData true)).
  - exact atBeanHouseDoor_streetDoorsOnly.
  - now left.
  - reflexivity.
  - unfold distanceTo, distanceToSquared, Targeting.interactionDistance. cbn.
    apply sqrt_lt_bound; lra.
  - intros c [].
Defined.

(** ** The swing of a door *)

Section DoorFacts.
Import Door.

Lemma progress_range a t : startTime a <= t -> 0 <= progress a t <= 1.
Proof.
  intros H. unfold progress, duration.
  assert (0 <= (t - startTime a) / 1000) by (apply Rmult_le_pos; lra).
  unfold Rmin. destruct (Rle_dec _ _); lra.
Qed.

Lemma progress_mono a t1 t2 : t1 <= t2 -> progress a t1 <= progress a t2.
Proof.
  intros H. unfold progress, duration.
  assert ((t1 - startTime a) / 1000 <= (t2 - startTime a) / 1000) by lra.
  unfold Rmin. destruct (Rle_dec _ _), (Rle_dec _ _); lra.
Qed.

Lemma progress_done a t : startTime a + duration <= t -> progress a t = 1.
Proof.
  unfold progress, duration. intros H.
  assert (1 <= (t - startTime a) / 1000) by lra.
  unfold Rmin. destruct (Rle_dec _ _); lra.
Qed.

Lemma progress_done_inv a t : progress a t = 1 -> startTime a + duration <= t.
Proof.
  unfold progress, duration, Rmin. destruct (Rle_dec _ _); lra.
Qed.

Lemma progress_le_1 a t : progress a t <= 1.
Proof. unfold progress. apply Rmin_r. Qed.

Lemma remaining a t :
  targetRotation a - rotationAt a t
  = (targetRotation a - startRotation a) * (1 - progress a t) ^ 3.
Proof. unfold rotationAt, easeProgress. ring. Qed.

Lemma cube_mono u v : 0 <= u <= v -> u ^ 3 <= v ^ 3.
Proof. intros H. apply pow_incr. exact H. Qed.

Lemma fold_animate t l s :
  fold_left (animate t) l s
  = mkState (match rev l with a :: _ => rotationAt a t | [] => rotation_y s end)
      (pending s ++ unfinished t l).
Proof.
  revert s. induction l as [|a l IH]; intros s; cbn.
  - rewrite app_nil_r. now destruct s.
  - rewrite IH. cbn. f_equal.
    + destruct (rev l) as [|b r]; reflexivity.
    + destruct (ltb (progress a t) 1); [|reflexivity].
      now rewrite <- app_assoc.
Qed.

Lemma frame_spec t s :
  frame t s
  = mkState (match rev (pending s) with
             | a :: _ => rotationAt a t
             | [] => rotation_y s
             end)
      (unfinished t (pending s)).
Proof. unfold frame. now rewrite fold_animate. Qed.

Lemma unfinished_app t l1 l2 :
  unfinished t (l1 ++ l2) = (unfinished t l1 ++ unfinished t l2)%list.
Proof. apply filter_app. Qed.

Lemma frame_settling target t0 t s :
  Settling target t0 s -> Settling target t0 (frame t s).
Proof.
  intros [r pre r0 Hpre|]; [|rewrite frame_spec; cbn; constructor].
  rewrite frame_spec. cbn [pending rotation_y]. rewrite rev_app_distr. cbn [rev app].
  rewrite unfinished_app. cbn.
  destruct (ltb (progress (mkAnimation r0 target t0) t) 1) eqn:L.
  - constructor. unfold unfinished.
    rewrite Forall_forall in *. intros a Ha. apply filter_In in Ha as [Ha _].
    auto.
  - apply ltb_false in L.
    pose proof (progress_le_1 (mkAnimation r0 target t0) t) as Hle.
    assert (Hp : progress (mkAnimation r0 target t0) t = 1) by lra.
    apply progress_done_inv in Hp. cbn in Hp.
    replace (unfinished t pre) with (@nil Animation).
    + replace (rotationAt _ t) with target; [constructor|].
      unfold rotationAt, easeProgress. cbn [startRotation targetRotation].
      rewrite progress_done by (cbn; lra). ring.
    + symmetry. unfold unfinished. induction Hpre as [|a l Ha Hl IH]; cbn; [reflexivity|].
      rewrite progress_done by lra.
      replace (ltb 1 1) with false by (symmetry; apply ltb_false; lra).
      exact IH.
Qed.

Lemma frame_settles target t0 t s :
  Settling target t0 s -> t0 + duration <= t ->
  frame t s = mkState target [].
Proof.
  intros [r pre r0 Hpre|] Ht; [|now rewrite frame_spec].
  rewrite frame_spec. cbn [pending rotation_y]. rewrite rev_app_distr. cbn [rev app].
  rewrite unfinished_app. f_equal.
  - unfold rotationAt, easeProgress. cbn [startRotation targetRotation].
    rewrite progress_done by (cbn; lra). ring.
  - unfold unfinished. cbn. rewrite progress_done by (cbn; lra).
    replace (ltb 1 1) with false by (symmetry; apply ltb_false; lra).
    rewrite app_nil_r.
    induction Hpre as [|a l Ha Hl IH]; cbn; [reflexivity|].
    rewrite progress_done by lra.
    replace (ltb 1 1) with false by (symmetry; apply ltb_false; lra).
    exact IH.
Qed.

Lemma run_frames_settling target t0 ts s :
  Settling target t0 s -> Settling target t0 (run (map Frame ts) s).
Proof.
  revert s. induction ts as [|t ts IH]; intros s H; cbn; [exact H|].
  apply IH. now apply frame_settling.
Qed.

Lemma run_frames_settled target ts :
  run (map Frame ts) (mkState target []) = mkState target [].
Proof. induction ts as [|t ts IH]; cbn; [reflexivity|exact IH]. Qed.

(** The callbacks that wait began no later than the latest press. *)
Lemma run_started t0 evs s :
  Forall (fun a => startTime a <= t0) (pending s) ->
  (forall target now, In (Press target now) evs -> now <= t0) ->
  Forall (fun a => startTime a <= t0) (pending (run evs s)).
Proof.
  revert s. induction evs as [|e evs IH]; intros s Hs He; cbn; [exact Hs|].
  apply IH; [|intros target now H; apply (He target now); now right].
  destruct e as [target now|t]; cbn.
  - apply Forall_app. split; [exact Hs|]. constructor; [|constructor].
    cbn. apply (He target now). now left.
  - rewrite frame_spec. cbn. unfold unfinished.
    rewrite Forall_forall in *. intros a Ha. apply filter_In in Ha as [Ha _].
    auto.
Qed.

End DoorFacts.

(** X12.  One swing of a door never overshoots and never turns back: from
    the call on, the angle left to the target shrinks from frame to frame
    and is never more than at the start; a frame one second or more after
    the call puts the door exactly at the target, and only such a frame
    asks for no further frame. *)
Theorem door_swing_is_monotone :
  forall (a : Door.Animation) (t1 t2 : R),
    Door.startTime a <= t1 -> t1 <= t2 ->
    Rabs (Door.targetRotation a - Door.rotationAt a t2)
    <= Rabs (Door.targetRotation a - Door.rotationAt a t1)
    /\ Rabs (Door.targetRotation a - Door.rotationAt a t1)
       <= Rabs (Door.targetRotation a - Door.startRotation a)
    /\ (Door.startTime a + Door.duration <= t2 ->
        Door.rotationAt a t2 = Door.targetRotation a)
    /\ (ltb (Door.progress a t2) 1 = false <->
        Door.startTime a + Door.duration <= t2).
Proof.
  intros a t1 t2 H1 H12.
  pose proof (progress_range a t1 H1) as R1.
  pose proof (progress_range a t2 ltac:(lra)) as R2.
  pose proof (progress_mono a t1 t2 H12) as M.
  rewrite !remaining, !Rabs_mult.
  assert (C2 : 0 <= (1 - Door.progress a t2) ^ 3) by (apply pow_le; lra).
  assert (C1 : 0 <= (1 - Door.progress a t1) ^ 3) by (apply pow_le; lra).
  assert (C12 : (1 - Door.progress a t2) ^ 3 <= (1 - Door.progress a t1) ^ 3)
    by (apply cube_mono; lra).
  assert (C01 : (1 - Door.progress a t1) ^ 3 <= 1).
  { replace 1 with (1 ^ 3) at 2 by ring. apply cube_mono. lra. }
  rewrite (Rabs_right _ (Rle_ge _ _ C1)), (Rabs_right _ (Rle_ge _ _ C2)).
  pose proof (Rabs_pos (Door.targetRotation a - Door.startRotation a)) as P.
  repeat split.
  - now apply Rmult_le_compat_l.
  - rewrite <- (Rmult_1_r (Rabs _)) at 2. now apply Rmult_le_compat_l.
  - intros Hd. unfold Door.rotationAt, Door.easeProgress.
    rewrite progress_done by exact Hd. ring.
  - intros L. apply ltb_false in L. apply progress_done_inv. lra.
  - intros Hd. apply ltb_false. rewrite progress_done by exact Hd. lra.
Qed.

Lemma door_swing_is_monotone_witness :
  Rabs (PI / 2 - Door.rotationAt (Door.mkAnimation 0 (PI / 2) 0) 1000)
  <= Rabs (PI / 2 - Door.rotationAt (Door.mkAnimation 0 (PI / 2) 0) 500)
  /\ Rabs (PI / 2 - Door.rotationAt (Door.mkAnimation 0 (PI / 2) 0) 500)
     <= Rabs (PI / 2 - 0)
  /\ Door.rotationAt (Door.mkAnimation 0 (PI / 2) 0) 1000 = PI / 2
  /\ ltb (Door.progress (Door.mkAnimation 0 (PI / 2) 0) 1000) 1 = false.
Proof.
  destruct (door_swing_is_monotone (Door.mkAnimation 0 (PI / 2) 0) 500 1000)
    as (H1 & H2 & H3 & H4); [cbn; lra|lra|].
  assert (Hd : Door.startTime (Door.mkAnimation 0 (PI / 2) 0) + Door.duration
               <= 1000) by (unfold Door.duration; cbn; lra).
  split; [exact H1|]. split; [exact H2|].
  split; [exact (H3 Hd)|exact (proj2 H4 Hd)].
Defined.

(** X13.  However the presses and frames before it went, once a frame
    comes one second or more after the latest call of [animateDoor], the
    door stands exactly at the rotation that call asked for and no callback
    is left waiting; further frames leave it there.  Swings that were
    still under way when the latest one began do not pull the door
    elsewhere. *)
Theorem door_settles_at_last_target :
  forall (r : R) (evs : list Door.Event) (target t0 : R)
         (ts1 : list R) (t : R) (ts2 : list R),
    (forall target' now, In (Door.Press target' now) evs -> now <= t0) ->
    t0 + Door.duration <= t ->
    Door.run
      (evs ++ Door.Press target t0
           :: map Door.Frame ts1 ++ Door.Frame t :: map Door.Frame ts2)%list
      (Door.mkState r [])
    = Door.mkState target [].
Proof.
  intros r evs target t0 ts1 t ts2 Hevs Ht.
  unfold Door.run. rewrite fold_left_app. cbn [fold_left Door.step].
  rewrite fold_left_app. cbn [fold_left Door.step].
  fold (Door.run evs (Door.mkState r [])).
  set (s := Door.run evs (Door.mkState r [])).
  assert (Hs : Settling target t0 (Door.animateDoor target t0 s)).
  { unfold Door.animateDoor. constructor.
    apply run_started; [constructor|exact Hevs]. }
  pose proof (run_frames_settling target t0 ts1 _ Hs) as H1.
  unfold Door.run in H1.
  rewrite (frame_settles target t0 t _ H1 Ht).
  apply run_frames_settled.
Qed.

Lemma door_settles_at_last_target_witness :
  Door.run
    (hastyVisitor ++ Door.Press 0 500
       :: map Door.Frame [516; 1016] ++ Door.Frame 1500 :: map Door.Frame [1516])%list
    (Door.mkState 0 [])
  = Door.mkState 0 [].
Proof.
  apply (door_settles_at_last_target 0 hastyVisitor 0 500 [516; 1016] 1500
           [1516]).
  - unfold hastyVisitor. intros target' now [H|[H|[H|[]]]]; inversion H. lra.
  - unfold Door.duration. lra.
Defined.

(** ** The camera *)

Section CameraFacts.
Import Camera.



Lemma follow_mode n s player :
  isFirstPerson (follow n s player) = isFirstPerson s
  /\ cameraOffset (follow n s player) = cameraOffset s.
Proof.
  revert s. induction n as [|n IH]; intros s; cbn; [auto|].
  destruct (IH (updateCamera s player)) as [-> ->]. auto.
Qed.

End CameraFacts.


(** ** The order of the catalog *)

Section ChallengeOrderFacts.
Import Cast Challenges.
Local Open Scope string_scope.

Variable random : nat -> nat.

Lemma orderly_shape c :
  orderly c ->
  exists t0 b0 t1 b1 t2 b2,
    steps c = [mkStep t0 b0; mkStep t1 b1; mkStep t2 b2] /\
    (b1 = true -> b0 = true) /\ (b2 = true -> b1 = true) /\
    completed c = (b0 && b1 && b2)%bool.
Proof.
  intros (Hl & Hp & Hc).
  destruct c as [i t d comp sts r]. cbn in *.
  destruct sts as [|[t0 b0] [|[t1 b1] [|[t2 b2] [|? ?]]]]; try discriminate.
  exists t0, b0, t1, b1, t2, b2. split; [reflexivity|].
  pose proof (Hp 0%nat) as H0. pose proof (Hp 1%nat) as H1.
  unfold stepDone in H0, H1. cbn in H0, H1.
  repeat split.
  - intros ->. specialize (H0 eq_refl). congruence.
  - intros ->. specialize (H1 eq_refl). congruence.
  - rewrite Hc. cbn. now rewrite andb_true_r, andb_assoc.
Qed.

Lemma shape_orderly c t0 b0 t1 b1 t2 b2 :
  steps c = [mkStep t0 b0; mkStep t1 b1; mkStep t2 b2] ->
  (b1 = true -> b0 = true) -> (b2 = true -> b1 = true) ->
  completed c = (b0 && b1 && b2)%bool ->
  orderly c.
Proof.
  intros Hs H0 H1 Hc. unfold orderly, stepDone. rewrite Hs, Hc. cbn.
  repeat split.
  - intros [|[|n]]; cbn.
    + intros [= ->]. now rewrite H0.
    + intros [= ->]. now rewrite H1.
    + destruct n; discriminate.
  - now rewrite andb_true_r, andb_assoc.
Qed.

Lemma consistent_eq g g' :
  challenges g' = challenges g -> activeChallenge g' = activeChallenge g ->
  dialogElement g' = dialogElement g ->
  consistent g -> consistent g'.
Proof. unfold consistent. now intros -> -> ->. Qed.

Lemma dialogElement_showDialog npc g :
  dialogElement (showDialog random npc g) = dialogElement g.
Proof. unfold showDialog. now destruct (dialogElement g) eqn:E. Qed.

Lemma dialogElement_playInteract g :
  dialogElement (playInteract g) = dialogElement g.
Proof. unfold playInteract. now destruct (interactSound g) eqn:E. Qed.

Lemma dialogElement_hideDialog g :
  dialogElement (hideDialog g) = dialogElement g.
Proof. unfold hideDialog. now destruct (dialogElement g) eqn:E. Qed.

Lemma consistent_showDialog npc g :
  consistent g -> consistent (showDialog random npc g).
Proof.
  apply consistent_eq;
    [apply challenges_showDialog|apply activeChallenge_showDialog
    |apply dialogElement_showDialog].
Qed.

Lemma consistent_playInteract g : consistent g -> consistent (playInteract g).
Proof.
  apply consistent_eq;
    [apply challenges_playInteract|apply activeChallenge_playInteract
    |apply dialogElement_playInteract].
Qed.

Lemma consistent_initial : consistent initializeChallenges.
Proof.
  unfold consistent. cbn. repeat split.
  repeat constructor; cbn;
    intros [|[|n]]; unfold stepDone; cbn; try discriminate;
    destruct n; discriminate.
Qed.

Lemma map_id_updateAt (f : Challenge -> Challenge) l a :
  (forall c, id (f c) = id c) ->
  map id (updateAt a f l) = map id l.
Proof.
  intros Hf. revert a. induction l as [|c l IH]; intros [|a]; cbn;
    rewrite ?Hf, ?IH; reflexivity.
Qed.

Lemma Forall_updateAt_at {A} (P : A -> Prop) (f : A -> A) l i :
  (forall a, nth_error l i = Some a -> P a -> P (f a)) ->
  Forall P l -> Forall P (updateAt i f l).
Proof.
  revert i. induction l as [|a l IH]; intros [|i] Hf H; cbn; trivial;
    inversion H; subst; constructor; auto.
Qed.

Lemma consistent_active g a c :
  consistent g -> active g = Some (a, c) ->
  orderly c /\ completed c = false.
Proof.
  intros (_ & Ho & Ha & _) Hact.
  apply active_Some in Hact as [Haa Hac]. rewrite Haa in Ha.
  destruct Ha as (c' & Hc' & Hcomp).
  assert (c' = c) as -> by congruence. split; [|exact Hcomp].
  rewrite Forall_forall in Ho. apply Ho. eapply nth_error_In; eauto.
Qed.

(** Marking the next open step keeps a challenge in good order. *)
Lemma orderly_markStep i c :
  orderly c -> completed c = false ->
  stepDone c i = Some false ->
  (i = 0%nat \/ stepDone c (i - 1) = Some true) ->
  orderly (markStep i c)
  /\ completed (markStep i c)
     = forallb stepCompleted (updateAt i (setStepCompleted true) (steps c)).
Proof.
  intros Ho Hc Hi Hprev.
  destruct (orderly_shape c Ho)
    as (t0 & b0 & t1 & b1 & t2 & b2 & Hs & H0 & H1 & Hcomp).
  rewrite completed_markStep, steps_markStep, Hc, orb_false_r.
  split; [|reflexivity].
  unfold stepDone in Hi, Hprev. rewrite Hs in Hi, Hprev.
  destruct i as [|[|[|i]]]; cbn in Hi, Hprev;
    try (destruct i; discriminate).
  - injection Hi as ->.
    assert (b1 = false) as -> by (destruct b1; intuition congruence).
    assert (b2 = false) as -> by (destruct b2; intuition congruence).
    eapply shape_orderly.
    + rewrite steps_markStep, Hs. reflexivity.
    + auto.
    + auto.
    + rewrite completed_markStep, steps_markStep, Hs, Hc. reflexivity.
  - injection Hi as ->. destruct Hprev as [|Hprev]; [discriminate|].
    injection Hprev as ->.
    assert (b2 = false) as -> by (destruct b2; intuition congruence).
    eapply shape_orderly.
    + rewrite steps_markStep, Hs. reflexivity.
    + auto.
    + auto.
    + rewrite completed_markStep, steps_markStep, Hs, Hc. reflexivity.
  - injection Hi as ->. destruct Hprev as [|Hprev]; [discriminate|].
    injection Hprev as ->. specialize (H0 eq_refl). subst b0.
    eapply shape_orderly.
    + rewrite steps_markStep, Hs. reflexivity.
    + auto.
    + auto.
    + rewrite completed_markStep, steps_markStep, Hs, Hc. reflexivity.
Qed.

Lemma consistent_update i g g' :
  updateChallengeProgress random i g = Some g' ->
  (forall a c, active g = Some (a, c) ->
               i = 0%nat \/ stepDone c (i - 1) = Some true) ->
  consistent g -> consistent g'.
Proof.
  intros H Hi Cg.
  pose proof H as H'.
  apply updateChallengeProgress_cases in H
    as [[-> _]|(a & c & Hact & Hs & Hc & Ha)]; [exact Cg|].
  destruct (consistent_active g a c Cg Hact) as [Ho Hcomp].
  destruct (orderly_markStep i c Ho Hcomp Hs (Hi a c Hact)) as [Hom Hcm].
  pose proof (proj2 (active_Some _ _ _ Hact)) as Hac.
  destruct Cg as (Hids & Hall & _ & Hd).
  unfold consistent. rewrite Hc, Ha. unfold marked. repeat split.
  - rewrite map_id_updateAt; [exact Hids|apply id_markStep].
  - apply Forall_updateAt_at; [|exact Hall].
    intros c' Hc' _. assert (c' = c) as -> by congruence. exact Hom.
  - destruct (forallb _ _) eqn:E; [exact I|].
    exists (markStep i c). rewrite nth_error_updateAt_eq, Hac. split; [reflexivity|].
    now rewrite Hcm.
  - unfold updateChallengeProgress in H'. rewrite Hact, Hs in H'.
    injection H' as <-. rewrite dialogElement_playInteract.
    destruct (forallb _ _); cbn; [|exact Hd].
    rewrite dialogElement_showDialog. exact Hd.
Qed.

(** Marking the last step of the active challenge clears the active
    reference. *)
Lemma last_step_clears g g' a c :
  consistent g -> active g = Some (a, c) ->
  stepDone c 1 = Some true -> stepDone c 2 = Some false ->
  updateChallengeProgress random 2 g = Some g' ->
  activeChallenge g' = None.
Proof.
  intros Cg Hact H1 H2 H.
  destruct (consistent_active g a c Cg Hact) as [Ho Hcomp].
  destruct (orderly_shape c Ho)
    as (t0 & b0 & t1 & b1 & t2 & b2 & Hs & P0 & P1 & _).
  apply updateChallengeProgress_cases in H
    as [[_ [Hn|(a' & c' & Ha' & Hd)]]|(a' & c' & Ha' & _ & _ & Ha)].
  - congruence.
  - assert (c' = c) as -> by congruence. congruence.
  - assert (c' = c) as -> by congruence.
    rewrite Ha, Hs. unfold stepDone in H1. rewrite Hs in H1. cbn in H1.
    injection H1 as ->. rewrite (P0 eq_refl). reflexivity.
Qed.

Lemma completeChallenge_idle g :
  activeChallenge g = None -> completeChallenge random g = g.
Proof. intros H. unfold completeChallenge, active. now rewrite H. Qed.

Lemma consistent_check npc pos ch g g' :
  checkChallengeProgress random npc pos ch g = Some g' ->
  consistent g -> consistent g'.
Proof.
  intros H Cg.
  split_check H; try discriminate; try (injection H as <-; exact Cg).
  all: read_guards.
  all: match goal with
       | Hact : active _ = Some (?a, ?c),
         Hu : updateChallengeProgress _ ?i _ = Some ?g1 |- _ =>
           assert (C1 : consistent g1)
             by (apply (consistent_update i _ _ Hu); [|exact Cg];
                 intros a' c' Ha'; rewrite Hact in Ha';
                 injection Ha' as <- <-;
                 first [now left | right; cbn; assumption])
       end.
  all: try exact C1.
  all: try (apply consistent_showDialog; exact C1).
  all: match goal with
       | Hact : active _ = Some (?a, ?c),
         Hu : updateChallengeProgress _ 2%nat _ = Some ?g1 |- _ =>
           rewrite (completeChallenge_idle g1)
             by (apply (last_step_clears _ g1 a c Cg Hact); assumption)
       end; exact C1.
Qed.

Lemma findChallenge_nth challengeId cs j c :
  findChallenge challengeId cs = Some (j, c) ->
  nth_error cs j = Some c /\ id c = challengeId.
Proof.
  revert j. induction cs as [|c0 cs IH]; intros j; cbn; [discriminate|].
  destruct (Nat.eqb_spec (id c0) challengeId) as [E|E].
  - intros [= <- <-]. auto.
  - destruct (findChallenge challengeId cs) as [[j' c']|]; [|discriminate].
    intros [= <- <-]. apply IH. reflexivity.
Qed.

Lemma ids_injective g a b ca cb :
  map id (challenges g) = [1; 2; 3]%nat ->
  nth_error (challenges g) a = Some ca ->
  nth_error (challenges g) b = Some cb ->
  id ca = id cb -> a = b.
Proof.
  intros Hids Ha Hb Hid.
  apply (map_nth_error id) in Ha. apply (map_nth_error id) in Hb.
  rewrite Hids in Ha, Hb.
  destruct a as [|[|[|a]]], b as [|[|[|b]]]; cbn in Ha, Hb;
    try (destruct a; discriminate); try (destruct b; discriminate);
    congruence.
Qed.

Lemma orderly_reset c :
  orderly c -> completed c = false ->
  orderly (setSteps (map (setStepCompleted false) (steps c)) c).
Proof.
  intros Ho Hc.
  destruct (orderly_shape c Ho)
    as (t0 & b0 & t1 & b1 & t2 & b2 & Hs & _).
  eapply shape_orderly.
  - cbn. rewrite Hs. reflexivity.
  - auto.
  - auto.
  - cbn. exact Hc.
Qed.

Lemma consistent_start challengeId g :
  consistent g -> consistent (startChallenge random challengeId g).
Proof.
  intros Cg. unfold startChallenge.
  destruct (findChallenge challengeId (challenges g)) as [[j c]|] eqn:F;
    [|exact Cg].
  apply findChallenge_nth in F as [Hj Hid].
  destruct (completed c) eqn:Hc; cbn [negb];
    [apply consistent_showDialog; exact Cg|].
  apply consistent_playInteract, consistent_showDialog.
  destruct (active g) as [[a ac]|] eqn:Hact.
  - destruct (consistent_active g a ac Cg Hact) as [Ho Hcomp].
    pose proof (proj2 (active_Some _ _ _ Hact)) as Hac.
    destruct Cg as (Hids & Hall & _ & Hd).
    destruct (Nat.eqb_spec (id ac) challengeId) as [E|E]; cbn [negb].
    + unfold consistent. cbn. repeat split; auto. now exists c.
    + unfold consistent. cbn. repeat split; auto.
      * now rewrite map_id_updateAt.
      * apply Forall_updateAt_at; [|exact Hall].
        intros c' Hc' _. assert (c' = ac) as -> by congruence.
        now apply orderly_reset.
      * exists c. split; [|exact Hc].
        rewrite nth_error_updateAt_neq; [exact Hj|].
        intros ->. congruence.
  - destruct Cg as (Hids & Hall & _ & Hd).
    unfold consistent. cbn. repeat split; auto. now exists c.
Qed.

Lemma consistent_step g i g' :
  step random g i = Some g' -> consistent g -> consistent g'.
Proof.
  destruct i as [challengeId|npc pos ch| |ready]; cbn.
  - intros [= <-]. apply consistent_start.
  - unfold talk. intros H Cg. eapply consistent_check; [exact H|].
    now apply consistent_playInteract, consistent_showDialog.
  - intros [= <-].
    apply consistent_eq;
      [apply challenges_hideDialog|apply activeChallenge_hideDialog
      |apply dialogElement_hideDialog].
  - now intros [= <-].
Qed.

Lemma consistent_run inputs g g' :
  run random g inputs = Some g' -> consistent g -> consistent g'.
Proof.
  revert g. induction inputs as [|i inputs IH]; intros g; cbn.
  - now intros [= <-].
  - destruct (step random g i) as [g1|] eqn:E; [|discriminate].
    intros H Cg. apply (IH g1 H). eapply consistent_step; eauto.
Qed.

End ChallengeOrderFacts.

(** X15.  The catalog stays in good order.  Whatever is clicked and
    whoever is talked to, where and in which order, the session does not
    throw, and afterwards the catalog still holds the challenges 1, 2 and
    3 with three steps each; in every challenge a step is done only when
    the step before it is; a challenge is completed exactly when its three
    steps are done; and the active challenge, if there is one, is not
    completed. *)
Theorem catalog_stays_in_order :
  forall (random : nat -> nat) (inputs : list Challenges.Input),
  exists g,
    Challenges.run random Challenges.initializeChallenges inputs = Some g
    /\ consistent g.
Proof.
  intros random inputs.
  destruct (run_total random Challenges.initializeChallenges inputs
              threeSteps_initial) as (g & Hg & _).
  exists g. split; [exact Hg|].
  exact (consistent_run random inputs _ g Hg consistent_initial).
Qed.

(** ** What reaches the dialogue box *)

Section ShownFacts.
Import Cast Challenges.
Local Open Scope string_scope.

Variable random : nat -> nat.
Variable talked : list NPC.

Lemma stranger_notice speaker line : stranger (notice speaker line).
Proof. intros u [= <-]. reflexivity. Qed.

Lemma pooled_showDialog npc g :
  In npc talked \/ stranger npc ->
  pooled random talked g -> pooled random talked (showDialog random npc g).
Proof.
  intros Hn Hg. unfold showDialog.
  destruct (negb (dialogElement g)); [exact Hg|].
  unfold pooled. cbn. apply Forall_app. split; [exact Hg|].
  constructor; [|constructor].
  destruct (userData npc) as [u|] eqn:E;
    [destruct (isMainNPC u) eqn:M|]; cbn.
  - destruct Hn as [Hn|Hn]; [|rewrite (Hn u E) in M; discriminate].
    right. exists npc, u, (randomDraws g). auto.
  - left. eauto.
  - left. eauto.
Qed.

Lemma pooled_playInteract g :
  pooled random talked g -> pooled random talked (playInteract g).
Proof.
  intros Hg. unfold playInteract. destruct (interactSound g); [|exact Hg].
  unfold pooled. cbn. apply Forall_app. split; [exact Hg|].
  constructor; [exact I|constructor].
Qed.

Lemma pooled_update i g g' :
  updateChallengeProgress random i g = Some g' ->
  pooled random talked g -> pooled random talked g'.
Proof.
  unfold updateChallengeProgress.
  destruct (active g) as [[a c]|]; [|now intros [= <-]].
  destruct (stepDone c i) as [[|]|]; [now intros [= <-]| |discriminate].
  intros [= <-] Hg. apply pooled_playInteract.
  destruct (forallb _ _); [|exact Hg].
  apply (pooled_showDialog _
           (setChallenges _ (setChallenges _ g)));
    [right; apply stranger_notice|exact Hg].
Qed.

Lemma pooled_complete g :
  pooled random talked g -> pooled random talked (completeChallenge random g).
Proof.
  intros Hg. unfold completeChallenge.
  destruct (active g) as [[a c]|]; [|exact Hg].
  apply (pooled_playInteract (showDialog random _ g)).
  apply pooled_showDialog; [right; apply stranger_notice|exact Hg].
Qed.

Lemma pooled_check npc pos ch g g' :
  checkChallengeProgress random npc pos ch g = Some g' ->
  pooled random talked g -> pooled random talked g'.
Proof.
  intros H Hg.
  split_check H; try discriminate; try (injection H as <-; exact Hg).
  all: read_guards.
  all: match goal with
       | Hu : updateChallengeProgress _ _ _ = Some ?g1 |- _ =>
           pose proof (pooled_update _ _ _ Hu Hg) as P1
       end.
  all: try exact P1.
  all: try (apply pooled_complete; exact P1).
  all: apply pooled_showDialog; [right; apply stranger_notice|exact P1].
Qed.

Lemma pooled_start challengeId g :
  pooled random talked g ->
  pooled random talked (startChallenge random challengeId g).
Proof.
  intros Hg. unfold startChallenge.
  destruct (findChallenge challengeId (challenges g)) as [[j c]|]; [|exact Hg].
  destruct (negb (completed c)).
  - apply pooled_playInteract.
    apply pooled_showDialog; [right; apply stranger_notice|].
    destruct (active g) as [[a ac]|]; [|exact Hg].
    destruct (negb _); exact Hg.
  - apply pooled_showDialog; [right; apply stranger_notice|exact Hg].
Qed.

Lemma pooled_run inputs g g' :
  run random g inputs = Some g' ->
  (forall npc, In npc (talkedTo inputs) -> In npc talked) ->
  pooled random talked g -> pooled random talked g'.
Proof.
  revert g. induction inputs as [|i inputs IH]; intros g; cbn.
  - now intros [= <-].
  - destruct (step random g i) as [g1|] eqn:E; [|discriminate].
    intros H Ht Hg. apply (IH g1 H).
    + intros npc Hn. apply Ht. apply in_or_app. now right.
    + destruct i as [challengeId|npc pos ch| |ready]; cbn in E.
      * injection E as <-. now apply pooled_start.
      * unfold talk in E. eapply pooled_check; [exact E|].
        apply pooled_playInteract, pooled_showDialog; [|exact Hg].
        left. apply Ht. cbn. now left.
      * injection E as <-. unfold hideDialog.
        destruct (dialogElement g); exact Hg.
      * injection E as <-. exact Hg.
Qed.

End ShownFacts.

(** X16.  Whatever the session, every name and text that reaches the
    dialogue box through [showDialog] is a generic line under the name
    Citizen or a line of a main character that was talked to, under that
    character's name.  The texts the challenge code hands over (the
    description of a started challenge, the notes and hints of the steps,
    the words for a completed challenge and the reward) are never
    shown. *)
Theorem shown_texts_come_from_pools :
  forall (random : nat -> nat) (inputs : list Challenges.Input),
  exists g,
    Challenges.run random Challenges.initializeChallenges inputs = Some g
    /\ Forall (fromPools random (talkedTo inputs)) (Challenges.effects g).
Proof.
  intros random inputs.
  destruct (run_total random Challenges.initializeChallenges inputs
              threeSteps_initial) as (g & Hg & _).
  exists g. split; [exact Hg|].
  apply (pooled_run random (talkedTo inputs) inputs _ g Hg); [auto|].
  constructor.
Qed.

Section ChatPartner.
Import Cast Challenges.
Local Open Scope string_scope.

Variable random : nat -> nat.

Lemma currentNPC_showDialog npc g :
  dialogElement g = true -> currentNPC (showDialog random npc g) = Some npc.
Proof. intros H. unfold showDialog. now rewrite H. Qed.

Lemma currentNPC_playInteract g : currentNPC (playInteract g) = currentNPC g.
Proof. unfold playInteract. now destruct (interactSound g). Qed.

Lemma stranger_generic npc lower message :
  stranger npc ->
  Dialogue.handlePlayerMessage lower message npc
  = Dialogue.getGenericResponse (lower message).
Proof.
  intros H. unfold Dialogue.handlePlayerMessage.
  destruct (userData npc) as [u|] eqn:E; [|reflexivity].
  now rewrite (H u E).
Qed.

Lemma last_step_partner g g' a c :
  consistent g -> active g = Some (a, c) ->
  stepDone c 1 = Some true -> stepDone c 2 = Some false ->
  updateChallengeProgress random 2 g = Some g' ->
  currentNPC g'
  = Some (notice "Challenge Complete!"
            "Well done! You've completed the challenge!").
Proof.
  intros Cg Hact H1 H2 H.
  destruct (consistent_active g a c Cg Hact) as [Ho Hcomp].
  destruct (orderly_shape c Ho)
    as (t0 & b0 & t1 & b1 & t2 & b2 & Hs & P0 & P1 & _).
  unfold updateChallengeProgress in H. rewrite Hact, H2 in H.
  unfold stepDone in H1. rewrite Hs in H1, H. cbn in H1.
  injection H1 as ->. rewrite (P0 eq_refl) in H.
  cbn [updateAt setStepCompleted forallb stepCompleted andb] in H.
  injection H as <-. rewrite currentNPC_playInteract. cbn.
  apply currentNPC_showDialog. cbn. apply Cg.
Qed.

Lemma index_of_id g a c :
  consistent g -> nth_error (challenges g) a = Some c -> id c = S a.
Proof.
  intros (Hids & _) Ha. apply (map_nth_error id) in Ha. rewrite Hids in Ha.
  destruct a as [|[|[|a]]]; cbn in Ha; try (destruct a; discriminate);
    congruence.
Qed.

Lemma check_partner npc pos ch g g' j n :
  consistent g ->
  checkChallengeProgress random npc pos ch g = Some g' ->
  stepFlag g j n = Some false -> stepFlag g' j n = Some true ->
  (j, n) <> (0, 0)%nat ->
  exists partner, currentNPC g' = Some partner /\ stranger partner.
Proof.
  intros Cg H Hb Ha Hne.
  split_check H; try discriminate; try (injection H as <-; congruence).
  all: read_guards.
  all: match goal with
       | Hact : active _ = Some (?a, ?c),
         Hu : updateChallengeProgress _ ?i _ = Some ?g1 |- _ =>
           assert (C1 : consistent g1)
             by (apply (consistent_update random i _ _ Hu); [|exact Cg];
                 intros a' c' Ha'; rewrite Hact in Ha';
                 injection Ha' as <- <-;
                 first [now left | right; cbn; assumption])
       end.
  all: try (eexists; split;
            [apply currentNPC_showDialog; apply C1|apply stranger_notice]).
  all: try match goal with
       | Hact : active _ = Some (?a, ?c),
         Hu : updateChallengeProgress _ 2%nat _ = Some ?g1 |- _ =>
           rewrite (completeChallenge_idle random g1)
             by (apply (last_step_clears random _ g1 a c Cg Hact);
                 assumption);
           eexists; split;
           [apply (last_step_partner _ g1 a c Cg Hact); assumption
           |apply stranger_notice]
       end.
  exfalso. apply Hne.
  match goal with
  | Hact : active _ = Some (?a, ?c),
    Hu : updateChallengeProgress _ _ _ = Some _ |- _ =>
      destruct (updateChallengeProgress_marks random _ _ _ _ _ Hu Hb Ha)
        as [Hj ->];
      apply active_Some in Hact as [Haa Hac];
      pose proof (index_of_id _ _ _ Cg Hac) as Hid
  end.
  assert (j = 0%nat) as -> by congruence. reflexivity.
Qed.

End ChatPartner.

(** X17.  A talk that gets a step done changes who answers the chat.
    Except for the first step of challenge 1, a talk that marks a step
    hands the chat to the object literal the challenge code passed to
    [showDialog]; that object is no main character, so whatever the
    player types next is answered from the generic table, not by the
    character the player is talking to. *)
Theorem progress_talk_hands_chat_to_stranger :
  forall (random : nat -> nat) (inputs : list Challenges.Input),
  exists g,
    Challenges.run random Challenges.initializeChallenges inputs = Some g /\
    forall (npc : Cast.NPC) (playerPosition : Vector3)
           (sceneChildren : list Object3D) (g' : Challenges.Game)
           (j n : nat),
      Challenges.talk random npc playerPosition sceneChildren g = Some g' ->
      stepFlag g j n = Some false -> stepFlag g' j n = Some true ->
      (j, n) <> (0, 0)%nat ->
      exists partner,
        Challenges.currentNPC g' = Some partner /\
        stranger partner /\
        forall (toLowerCase : string -> string) (message : string),
          Dialogue.handlePlayerMessage toLowerCase message partner
          = Dialogue.getGenericResponse (toLowerCase message).
Proof.
  intros random inputs.
  destruct (run_total random Challenges.initializeChallenges inputs
              threeSteps_initial) as (g & Hg & _).
  exists g. split; [exact Hg|].
  intros npc pos ch g' j n Ht Hb Ha Hne.
  pose proof (consistent_run random inputs _ g Hg consistent_initial) as Cg.
  unfold Challenges.talk in Ht.
  destruct (check_partner random npc pos ch _ g' j n
              (consistent_playInteract _
                 (consistent_showDialog random npc g Cg))
              Ht)
    as (partner & Hp & Hs); trivial.
  - now rewrite stepFlag_playInteract, stepFlag_showDialog.
  - exists partner. split; [exact Hp|]. split; [exact Hs|].
    intros lower message. now apply stranger_generic.
Qed.

Lemma progress_talk_hands_chat_to_stranger_witness :
  exists g g' partner,
    Challenges.run (fun _ => 0%nat) Challenges.initializeChallenges
      askingRupert = Some g /\
    Challenges.talk (fun _ => 0%nat) Cast.rupert atCar cityChildren g
    = Some g' /\
    Challenges.currentNPC g' = Some partner /\
    stranger partner /\
    forall (toLowerCase : string -> string) (message : string),
      Dialogue.handlePlayerMessage toLowerCase message partner
      = Dialogue.getGenericResponse (toLowerCase message).
Proof.
  destruct (progress_talk_hands_chat_to_stranger (fun _ => 0%nat)
              askingRupert) as (g & Hrun & H).
  assert (Hg : exists g',
             Challenges.talk (fun _ => 0%nat) Cast.rupert atCar cityChildren g
             = Some g'
             /\ stepFlag g 1 1 = Some false /\ stepFlag g' 1 1 = Some true).
  { unfold askingRupert in Hrun.
    cbn -[Challenges.nearCar Challenges.pick atCar cityChildren] in Hrun.
    rewrite nearCar_atCar in Hrun.
    cbn -[Challenges.nearCar Challenges.pick atCar cityChildren] in Hrun.
    injection Hrun as <-.
    eexists. split; [|split]; reflexivity. }
  destruct Hg as (g' & Ht & Hb & Ha).
  destruct (H Cast.rupert atCar cityChildren g' 1%nat 1%nat Ht Hb Ha)
    as (partner & R); [discriminate|].
  exists g, g', partner. split; [exact Hrun|]. split; [exact Ht|]. exact R.
Defined.

(** ** The freeze over a whole session *)

Section FreezeSession.
Import Freeze.
Local Open Scope N_scope.

Lemma sameRef_eq r1 r2 : sameRef r1 r2 = true <-> r1 = r2.
Proof.
  destruct r1 as [i|i], r2 as [j|j]; cbn; split; try discriminate.
  - intros H%Nat.eqb_eq. now subst.
  - intros [= ->]. apply Nat.eqb_refl.
  - intros H%Nat.eqb_eq. now subst.
  - intros [= ->]. apply Nat.eqb_refl.
Qed.

Lemma sameRef_refl r : sameRef r r = true.
Proof. now apply sameRef_eq. Qed.

Lemma lookup_update_same r f s :
  lookup (update r f s) r = option_map f (lookup s r).
Proof. destruct r; cbn; apply nth_error_updateAt_eq. Qed.

Lemma lookup_update_other r r' f s :
  sameRef r' r = false -> lookup (update r' f s) r = lookup s r.
Proof.
  destruct r as [i|i], r' as [j|j]; cbn; intros H; trivial;
    apply nth_error_updateAt_neq; intros ->;
    now rewrite Nat.eqb_refl in H.
Qed.

Lemma timers_update r f s : timers (update r f s) = timers s.
Proof. now destruct r. Qed.

Lemma play_snoc s interactions e :
  play s (interactions ++ [e])
  = interact (fst e) (snd e) (elapse (fst e) (play s interactions)).
Proof. unfold play. now rewrite fold_left_app. Qed.

Lemma filter_swap {A} (p q : A -> bool) l :
  filter p (filter q l) = filter q (filter p l).
Proof.
  induction l as [|a l IH]; cbn; [reflexivity|].
  destruct (p a) eqn:P, (q a) eqn:Q; cbn; rewrite ?P, ?Q, IH; reflexivity.
Qed.

(** The callbacks of a batch, as far as [r] goes: without a timer for [r]
    in the batch, [r] is as it was; with exactly one, its speed is what
    that timer captured. *)
Lemma fire_batch r l :
  forall s,
    (filter (fun t => sameRef (closestNPC t) r) l = [] ->
     lookup (fold_left fire l s) r = lookup s r)
    /\ (forall tm,
           filter (fun t => sameRef (closestNPC t) r) l = [tm] ->
           lookup (fold_left fire l s) r
           = option_map (writeSpeed (currentSpeed tm)) (lookup s r)).
Proof.
  induction l as [|t0 l IH]; intros s; cbn.
  - split; [reflexivity|discriminate].
  - destruct (sameRef (closestNPC t0) r) eqn:E.
    + split; [discriminate|]. intros tm [= <- Hrest].
      rewrite (proj1 (IH _) Hrest). unfold fire.
      apply sameRef_eq in E. rewrite E. apply lookup_update_same.
    + split.
      * intros Hrest. rewrite (proj1 (IH _) Hrest). unfold fire.
        now apply lookup_update_other.
      * intros tm Hrest. rewrite (proj2 (IH _) tm Hrest). unfold fire.
        now rewrite lookup_update_other.
Qed.

Lemma timers_fold_fire l s : timers (fold_left fire l s) = timers s.
Proof.
  revert s. induction l as [|t0 l IH]; intros s; cbn; [reflexivity|].
  rewrite IH. apply timers_update.
Qed.

Lemma lookup_elapse_frame now s r :
  lookup (elapse now s) r
  = lookup (fold_left fire (filter (fun t => fireAt t <=? now) (timers s)) s) r.
Proof. now destruct r. Qed.

Lemma timersFor_elapse now s r :
  timersFor r (elapse now s)
  = filter (fun t => negb (fireAt t <=? now)) (timersFor r s).
Proof. unfold timersFor, elapse. cbn. apply filter_swap. Qed.

Lemma spaced_snoc l t :
  spaced (l ++ [t]) ->
  spaced l /\ forall tl l', rev l = tl :: l' -> tl + freezeDuration <= t.
Proof.
  induction l as [|a l IH]; cbn [app].
  - intros _. split; [exact I|]. discriminate.
  - destruct l as [|b l].
    + cbn. intros [H _]. split; [exact I|]. now intros tl l' [= <- <-].
    + change ((a :: b :: l) ++ [t]) with (a :: (b :: l) ++ [t]).
      cbn [spaced app]. intros [Hab Hs].
      destruct (IH Hs) as [Hl Hlast]. split; [now split|].
      intros tl l'.
      change (rev (a :: b :: l)) with (rev (b :: l) ++ [a])%list.
      intros H.
      destruct (rev (b :: l)) as [|x xs] eqn:R.
      * apply (f_equal (@List.length N)) in R. cbn in R.
        rewrite length_app in R. cbn in R. lia.
      * cbn in H. injection H as <- <-. eapply Hlast. reflexivity.
Qed.

Lemma lastTalk_snoc r interactions t r' :
  lastTalk r (interactions ++ [(t, r')])
  = if sameRef r' r then Some t else lastTalk r interactions.
Proof.
  unfold lastTalk, talksWith. rewrite filter_app, map_app. cbn.
  destruct (sameRef r' r); cbn.
  - now rewrite rev_app_distr.
  - now rewrite app_nil_r.
Qed.

Lemma talksWith_snoc r interactions t r' :
  talksWith r (interactions ++ [(t, r')])
  = (talksWith r interactions ++ if sameRef r' r then [t] else [])%list.
Proof.
  unfold talksWith. rewrite filter_app, map_app. cbn.
  now destruct (sameRef r' r).
Qed.

Lemma lookup_speed s1 s2 i :
  lookup s1 (Main i) = lookup s2 (Main i) ->
  movementSpeed s1 (Main i) = movementSpeed s2 (Main i)
  /\ (hasUserData i s2 -> hasUserData i s1).
Proof. cbn. unfold hasUserData. intros ->. auto. Qed.

Section OneCharacter.

Variable i : nat.
Variable v : option R.

Lemma elapse_walking now s : walking i v s -> walking i v (elapse now s).
Proof.
  intros (Hu & Hv & Ht).
  assert (Hl : lookup (elapse now s) (Main i) = lookup s (Main i)).
  { rewrite lookup_elapse_frame. apply fire_batch.
    rewrite filter_swap. fold (timersFor (Main i) s). now rewrite Ht. }
  destruct (lookup_speed _ _ i Hl) as [Hs Hh].
  split; [auto|]. split; [congruence|].
  rewrite timersFor_elapse, Ht. reflexivity.
Qed.

Lemma elapse_frozen now tl s :
  frozen i v tl s ->
  (now < tl + freezeDuration -> frozen i v tl (elapse now s))
  /\ (tl + freezeDuration <= now -> walking i v (elapse now s)).
Proof.
  intros (Hu & Hv & Ht). split; intros Hnow.
  - assert (Hl : lookup (elapse now s) (Main i) = lookup s (Main i)).
    { rewrite lookup_elapse_frame. apply fire_batch.
      rewrite filter_swap. fold (timersFor (Main i) s). rewrite Ht. cbn.
      now replace (tl + freezeDuration <=? now) with false
        by (symmetry; apply N.leb_gt; lia). }
    destruct (lookup_speed _ _ i Hl) as [Hs Hh].
    split; [auto|]. split; [congruence|].
    rewrite timersFor_elapse, Ht. cbn.
    now replace (tl + freezeDuration <=? now) with false
      by (symmetry; apply N.leb_gt; lia).
  - assert (Hl : lookup (elapse now s) (Main i)
                 = option_map (writeSpeed v) (lookup s (Main i))).
    { rewrite lookup_elapse_frame.
      apply (proj2 (fire_batch (Main i) _ s)
               (mkTimer (tl + freezeDuration) (Main i) v)).
      rewrite filter_swap. fold (timersFor (Main i) s). rewrite Ht. cbn.
      now replace (tl + freezeDuration <=? now) with true
        by (symmetry; apply N.leb_le; lia). }
    destruct Hu as (npc & u & Hn & Hud).
    cbn in Hl. rewrite Hn in Hl. cbn in Hl.
    unfold writeSpeed in Hl. rewrite Hud in Hl.
    split; [|split].
    + unfold hasUserData, elapse. cbn [mainNPCs]. rewrite Hl.
      do 2 eexists. split; reflexivity.
    + unfold movementSpeed, elapse. cbn [mainNPCs]. rewrite Hl. reflexivity.
    + rewrite timersFor_elapse, Ht. cbn.
      now replace (tl + freezeDuration <=? now) with true
        by (symmetry; apply N.leb_le; lia).
Qed.

Lemma interact_other now r' s :
  sameRef r' (Main i) = false ->
  lookup (interact now r' s) (Main i) = lookup s (Main i)
  /\ timersFor (Main i) (interact now r' s) = timersFor (Main i) s.
Proof.
  intros Hr. unfold interact.
  destruct (lookup s r') as [npc|]; [|auto]. split.
  - change (lookup (update r' (writeSpeed (Some 0%R)) s) (Main i)
            = lookup s (Main i)).
    now apply lookup_update_other.
  - unfold timersFor. cbn [timers]. rewrite timers_update, filter_app.
    cbn. rewrite Hr. apply app_nil_r.
Qed.

Lemma interact_other_walking now r' s :
  sameRef r' (Main i) = false ->
  walking i v s -> walking i v (interact now r' s).
Proof.
  intros Hr (Hu & Hv & Ht).
  destruct (interact_other now r' s Hr) as [Hl Hti].
  destruct (lookup_speed _ _ i Hl) as [Hs Hh].
  split; [auto|]. split; congruence.
Qed.

Lemma interact_other_frozen now r' tl s :
  sameRef r' (Main i) = false ->
  frozen i v tl s -> frozen i v tl (interact now r' s).
Proof.
  intros Hr (Hu & Hv & Ht).
  destruct (interact_other now r' s Hr) as [Hl Hti].
  destruct (lookup_speed _ _ i Hl) as [Hs Hh].
  split; [auto|]. split; congruence.
Qed.

Lemma interact_walking now s :
  walking i v s -> frozen i v now (interact now (Main i) s).
Proof.
  intros ((npc & u & Hn & Hud) & Hv & Ht).
  unfold interact. cbn [lookup]. rewrite Hn.
  assert (Hr : readSpeed npc = v).
  { cbn in Hv. rewrite Hn, Hud in Hv. unfold readSpeed. now rewrite Hud. }
  rewrite Hr. split; [|split].
  - unfold hasUserData. cbn. rewrite nth_error_updateAt_eq, Hn. cbn.
    unfold writeSpeed. rewrite Hud. do 2 eexists. split; reflexivity.
  - cbn. rewrite nth_error_updateAt_eq, Hn. cbn.
    unfold writeSpeed. now rewrite Hud.
  - unfold timersFor in *. cbn. rewrite filter_app, Ht. cbn.
    now rewrite Nat.eqb_refl.
Qed.

Variable bound : N.

Lemma play_invariant s interactions :
  walking i v s ->
  (forall e, In e interactions -> fst e <= bound) ->
  spaced (talksWith (Main i) interactions) ->
  freezeInvariant i v bound interactions (play s interactions).
Proof.
  intros Hs. induction interactions as [|[t r'] l IH] using rev_ind.
  - intros _ _. exact Hs.
  - intros Hb Hsp. rewrite talksWith_snoc in Hsp.
    assert (Ht : t <= bound) by (apply (Hb (t, r')), in_elt).
    assert (Hb' : forall e, In e l -> fst e <= bound)
      by (intros e He; apply Hb, in_or_app; now left).
    unfold freezeInvariant. rewrite lastTalk_snoc, play_snoc. cbn [fst snd].
    destruct (sameRef r' (Main i)) eqn:Hr.
    + apply sameRef_eq in Hr. subst r'. left.
      apply interact_walking.
      apply spaced_snoc in Hsp as [Hsp Hlast].
      specialize (IH Hb' Hsp). unfold freezeInvariant, lastTalk in IH.
      destruct (rev (talksWith (Main i) l)) as [|tl l'] eqn:R.
      * now apply elapse_walking.
      * specialize (Hlast tl l' eq_refl).
        destruct IH as [Hf|[Hw _]]; [|now apply elapse_walking].
        now apply (elapse_frozen t tl _ Hf).
    + rewrite app_nil_r in Hsp. specialize (IH Hb' Hsp).
      unfold freezeInvariant in IH.
      destruct (lastTalk (Main i) l) as [tl|].
      * destruct IH as [Hf|[Hw Hd]].
        -- destruct (N.lt_ge_cases t (tl + freezeDuration)) as [Hlt|Hge].
           ++ left. apply interact_other_frozen; [exact Hr|].
              now apply (elapse_frozen t tl _ Hf).
           ++ right. split; [|lia].
              apply interact_other_walking; [exact Hr|].
              now apply (elapse_frozen t tl _ Hf).
        -- right. split; [|exact Hd].
           apply interact_other_walking; [exact Hr|].
           now apply elapse_walking.
      * apply interact_other_walking; [exact Hr|]. now apply elapse_walking.
Qed.

End OneCharacter.

(** Nothing a session does changes the speed the movement loop reads for
    a background character. *)
Lemma writeSpeed_plain x npc :
  userData npc <> None ->
  ownWalkSpeed (writeSpeed x npc) = ownWalkSpeed npc
  /\ userData (writeSpeed x npc) <> None.
Proof.
  unfold writeSpeed. destruct (userData npc); [|contradiction].
  cbn. split; [reflexivity|discriminate].
Qed.

Lemma map_updateAt_same {A B} (h : A -> B) (f : A -> A) l j :
  (forall a, nth_error l j = Some a -> h (f a) = h a) ->
  map h (updateAt j f l) = map h l.
Proof.
  revert j. induction l as [|a l IH]; intros [|j] H; cbn; trivial.
  - now rewrite (H a eq_refl).
  - f_equal. apply IH. exact H.
Qed.

Lemma update_plain r x s :
  plainCrowd s ->
  plainCrowd (update r (writeSpeed x) s)
  /\ map ownWalkSpeed (npcs (update r (writeSpeed x) s))
     = map ownWalkSpeed (npcs s).
Proof.
  intros Hp. destruct r as [j|j]; cbn; [auto|]. split.
  - unfold plainCrowd. cbn. apply Forall_updateAt_at; [|exact Hp].
    intros npc _ Hn. now apply writeSpeed_plain.
  - apply map_updateAt_same. intros npc Hn. apply writeSpeed_plain.
    unfold plainCrowd in Hp. rewrite Forall_forall in Hp.
    apply Hp. eapply nth_error_In; eauto.
Qed.

Lemma fold_fire_plain l s :
  plainCrowd s ->
  plainCrowd (fold_left fire l s)
  /\ map ownWalkSpeed (npcs (fold_left fire l s)) = map ownWalkSpeed (npcs s).
Proof.
  revert s. induction l as [|t0 l IH]; intros s Hp; cbn; [auto|].
  destruct (update_plain (closestNPC t0) (currentSpeed t0) s Hp) as [H1 H2].
  destruct (IH _ H1) as [H3 H4]. split; [exact H3|]. unfold fire in *.
  congruence.
Qed.

Lemma elapse_plain now s :
  plainCrowd s ->
  plainCrowd (elapse now s)
  /\ map ownWalkSpeed (npcs (elapse now s)) = map ownWalkSpeed (npcs s).
Proof.
  intros Hp. unfold elapse.
  destruct (fold_fire_plain
              (filter (fun t => fireAt t <=? now) (timers s)) s Hp)
    as [H1 H2].
  split; [exact H1|exact H2].
Qed.

Lemma interact_plain now r s :
  plainCrowd s ->
  plainCrowd (interact now r s)
  /\ map ownWalkSpeed (npcs (interact now r s)) = map ownWalkSpeed (npcs s).
Proof.
  intros Hp. unfold interact. destruct (lookup s r); [|auto].
  destruct (update_plain r (Some 0%R) s Hp) as [H1 H2].
  split; [exact H1|exact H2].
Qed.

Lemma play_plain interactions s :
  plainCrowd s ->
  plainCrowd (play s interactions)
  /\ map ownWalkSpeed (npcs (play s interactions))
     = map ownWalkSpeed (npcs s).
Proof.
  unfold play. revert s.
  induction interactions as [|e l IH]; intros s Hp; cbn; [auto|].
  destruct (elapse_plain (fst e) s Hp) as [H1 H2].
  destruct (interact_plain (fst e) (snd e) _ H1) as [H3 H4].
  destruct (IH _ H3) as [H5 H6]. split; [exact H5|]. congruence.
Qed.

End FreezeSession.

(** X18.  Talks that leave a character time work as meant.  When the
    talks with a main character come 30 seconds or more after one
    another, then at any time after the session the character is stopped
    if less than 30 seconds have passed since the last talk with it, and
    walks at the speed it had at the start otherwise; talks with other
    characters in between change nothing of this. *)
Theorem spaced_talks_stop_and_release :
  forall (s : Freeze.State) (i : nat) (v : option R)
         (interactions : list (N * Freeze.Ref)) (T : N),
    hasUserData i s ->
    Freeze.movementSpeed s (Freeze.Main i) = v ->
    Freeze.timers s = [] ->
    (forall e, In e interactions -> (fst e <= T)%N) ->
    spaced (talksWith (Freeze.Main i) interactions) ->
    Freeze.movementSpeed (Freeze.stateAt s interactions T) (Freeze.Main i)
    = match lastTalk (Freeze.Main i) interactions with
      | Some tl =>
          if (T <? tl + Freeze.freezeDuration)%N then Some 0 else v
      | None => v
      end.
Proof.
  intros s i v interactions T Hu Hv Ht Hb Hsp.
  assert (Hw : walking i v s).
  { split; [exact Hu|]. split; [exact Hv|]. unfold timersFor.
    now rewrite Ht. }
  pose proof (play_invariant i v T s interactions Hw Hb Hsp) as Inv.
  unfold freezeInvariant in Inv. unfold Freeze.stateAt.
  destruct (lastTalk (Freeze.Main i) interactions) as [tl|].
  - destruct (N.ltb_spec T (tl + Freeze.freezeDuration)) as [Hlt|Hge].
    + destruct Inv as [Hf|[_ Hd]]; [|lia].
      apply (elapse_frozen i v T tl _ Hf). exact Hlt.
    + destruct Inv as [Hf|[Hw' _]].
      * apply (elapse_frozen i v T tl _ Hf). exact Hge.
      * apply (elapse_walking i v T _ Hw').
  - apply (elapse_walking i v T _ Inv).
Qed.

Lemma spaced_talks_stop_and_release_witness :
  Freeze.movementSpeed (Freeze.stateAt neighbours patientVisitor 80000)
    (Freeze.Main 0)
  = match lastTalk (Freeze.Main 0) patientVisitor with
    | Some tl =>
        if (80000 <? tl + Freeze.freezeDuration)%N then Some 0
        else Some (1 / 100)
    | None => Some (1 / 100)
    end.
Proof.
  apply (spaced_talks_stop_and_release neighbours 0 (Some (1 / 100))
           patientVisitor 80000).
  - unfold hasUserData, neighbours, Freeze.createMainNPC. cbn.
    do 2 eexists. split; reflexivity.
  - reflexivity.
  - reflexivity.
  - unfold patientVisitor. intros e [<-|[<-|[<-|[]]]]; cbn; lia.
  - unfold patientVisitor, talksWith. cbn.
    split; [change Freeze.freezeDuration with 30000%N; lia|exact I].
Defined.

(** X19.  No talk ever stops a background character.  Whoever is talked
    to and whenever, the speed the movement loop reads for a background
    character is, at any time, the speed it was given: the handler and
    its timers write to the [userData] of such a character, never to its
    own [walkSpeed]. *)
Theorem background_characters_never_stop :
  forall (s : Freeze.State) (interactions : list (N * Freeze.Ref))
         (T : N) (j : nat),
    plainCrowd s ->
    Freeze.movementSpeed (Freeze.stateAt s interactions T) (Freeze.Regular j)
    = Freeze.movementSpeed s (Freeze.Regular j).
Proof.
  intros s interactions T j Hp. unfold Freeze.stateAt.
  destruct (play_plain interactions s Hp) as [H1 H2].
  destruct (elapse_plain T _ H1) as [_ H3].
  assert (H : map Freeze.ownWalkSpeed
                (Freeze.npcs (Freeze.elapse T (Freeze.play s interactions)))
              = map Freeze.ownWalkSpeed (Freeze.npcs s)) by congruence.
  apply (f_equal (fun l => nth_error l j)) in H.
  rewrite !nth_error_map in H. unfold Freeze.movementSpeed.
  destruct (nth_error (Freeze.npcs (Freeze.elapse T _)) j),
    (nth_error (Freeze.npcs s) j); cbn in H; congruence.
Qed.

Lemma background_characters_never_stop_witness :
  Freeze.movementSpeed (Freeze.stateAt passerBy chattyVisitor 21000)
    (Freeze.Regular 0)
  = Some (2 / 100).
Proof.
  apply (background_characters_never_stop passerBy chattyVisitor 21000 0).
  unfold plainCrowd, passerBy, Freeze.createNPC. cbn.
  constructor; [discriminate|constructor].
Defined.

(** ** Where the main characters can be met *)

Section VillageFacts.
Import Wander.

Lemma dot_bound a1 a2 a3 b1 b2 b3 :
  a1 * b1 + a2 * b2 + a3 * b3
  <= sqrt (a1 * a1 + a2 * a2 + a3 * a3) * sqrt (b1 * b1 + b2 * b2 + b3 * b3).
Proof.
  set (sa := a1 * a1 + a2 * a2 + a3 * a3).
  set (sb := b1 * b1 + b2 * b2 + b3 * b3).
  assert (Ha : 0 <= sa) by (unfold sa; nra).
  assert (Hb : 0 <= sb) by (unfold sb; nra).
  destruct (Rle_dec (a1 * b1 + a2 * b2 + a3 * b3) 0) as [Hneg|Hpos].
  - pose proof (sqrt_pos sa). pose proof (sqrt_pos sb). nra.
  - rewrite <- sqrt_mult by assumption.
    rewrite <- (sqrt_square (a1 * b1 + a2 * b2 + a3 * b3)) by lra.
    apply sqrt_le_1_alt. unfold sa, sb.
    pose proof (Rle_0_sqr (a1 * b2 - a2 * b1)).
    pose proof (Rle_0_sqr (a1 * b3 - a3 * b1)).
    pose proof (Rle_0_sqr (a2 * b3 - a3 * b2)).
    unfold Rsqr in *. nra.
Qed.

Lemma distanceTo_triangle u v w :
  distanceTo u w <= distanceTo u v + distanceTo v w.
Proof.
  destruct u as [u1 u2 u3], v as [v1 v2 v3], w as [w1 w2 w3].
  unfold distanceTo, distanceToSquared. cbn.
  set (a1 := u1 - v1). set (a2 := u2 - v2). set (a3 := u3 - v3).
  set (b1 := v1 - w1). set (b2 := v2 - w2). set (b3 := v3 - w3).
  replace (u1 - w1) with (a1 + b1) by (unfold a1, b1; ring).
  replace (u2 - w2) with (a2 + b2) by (unfold a2, b2; ring).
  replace (u3 - w3) with (a3 + b3) by (unfold a3, b3; ring).
  pose proof (dot_bound a1 a2 a3 b1 b2 b3) as D.
  set (sa := a1 * a1 + a2 * a2 + a3 * a3) in *.
  set (sb := b1 * b1 + b2 * b2 + b3 * b3) in *.
  assert (Ha : 0 <= sa) by (unfold sa; nra).
  assert (Hb : 0 <= sb) by (unfold sb; nra).
  pose proof (sqrt_pos sa) as Pa. pose proof (sqrt_pos sb) as Pb.
  pose proof (sqrt_sqrt sa Ha) as Sa. pose proof (sqrt_sqrt sb Hb) as Sb.
  rewrite <- (sqrt_square (sqrt sa + sqrt sb)) by lra.
  apply sqrt_le_1_alt. unfold sa, sb in *. nra.
Qed.

Lemma distanceTo_sym u v : distanceTo u v = distanceTo v u.
Proof. unfold distanceTo, distanceToSquared. f_equal. ring. Qed.

Lemma run_anchor npc events :
  originalPosition (run npc events) = originalPosition npc
  /\ maxWanderDistance (run npc events) = maxWanderDistance npc.
Proof.
  unfold run. revert npc.
  induction events as [|e events IH]; intros npc; cbn; [auto|].
  destruct (IH (step npc e)) as [-> ->]. apply step_anchor.
Qed.

(** A main character in play is less than 5 from the place of its
    config. *)
Lemma inPlay_near npcs i config npc :
  Village.inPlay npcs ->
  nth_error Village.mainNPCConfigs i = Some config ->
  nth_error npcs i = Some npc ->
  distanceTo (position npc) (snd config) < 5.
Proof.
  unfold Village.inPlay. generalize Village.mainNPCConfigs as cfgs.
  intros cfgs H. revert i.
  induction H as [|c n cfgs' npcs' Hcn Hrest IH]; intros [|i]; cbn;
    try discriminate.
  - intros [= <-] [= <-]. destruct Hcn as (u & events & ->).
    pose proof (run_tethered (createMainNPC (snd c) u) events
                  (createMainNPC_tethered (snd c) u)) as T.
    unfold tethered in T.
    destruct (run_anchor (createMainNPC (snd c) u) events) as [Ha Hm].
    rewrite Ha, Hm in T. exact T.
  - apply IH.
Qed.

Lemma inPlay_length npcs :
  Village.inPlay npcs -> List.length npcs = 3%nat.
Proof.
  intros H. apply Forall2_length in H. now rewrite <- H.
Qed.

Lemma candidates_main w i p :
  In (Freeze.Main i, p) (Targeting.candidates w) ->
  nth_error (Targeting.mainNPCs w) i = Some p.
Proof.
  unfold Targeting.candidates. intros H. apply in_app_iff in H as [H|H].
  - assert (G : forall l k,
               In (Freeze.Main i, p) (Targeting.indexed Freeze.Main k l) ->
               (k <= i)%nat /\ nth_error l (i - k) = Some p).
    { clear. induction l as [|a l IH]; intros k; cbn; [easy|].
      intros [[= <- <-]|H].
      - rewrite Nat.sub_diag. auto.
      - destruct (IH _ H) as [Hk Hn]. split; [lia|].
        replace (i - k)%nat with (S (i - S k)) by lia. exact Hn. }
    apply G in H as [_ H]. now rewrite Nat.sub_0_r in H.
  - exfalso. revert H. generalize 0%nat.
    induction (Targeting.npcs w) as [|a l IH]; intros k; cbn; [easy|].
    intros [H|H]; [discriminate|]. eapply IH; eauto.
Qed.

Lemma pressE_talk w w' r angle :
  Targeting.pressE w = (w', Targeting.TalkTo r angle) ->
  exists p,
    In (r, p) (Targeting.candidates w) /\
    distanceTo (Targeting.player w) p < Targeting.interactionDistance.
Proof.
  intros H. unfold Targeting.pressE in H.
  assert (Hdoor : forall v, Targeting.tryDoor v
                            <> (w', Targeting.TalkTo r angle)).
  { intros v. unfold Targeting.tryDoor, Targeting.useDoor.
    destruct (Targeting.closestInteractable v) as [[j dist]|];
      [|discriminate].
    destruct (ltb _ _); [|discriminate].
    destruct (nth_error _ _) as [n|]; [|discriminate].
    destruct (Targeting.doorData n); discriminate. }
  destruct (Targeting.closestNPC w) as [[[ref p] dist]|] eqn:E;
    [|now apply Hdoor in H].
  destruct (ltb dist Targeting.interactionDistance) eqn:L;
    [|now apply Hdoor in H].
  injection H as _ <- _.
  destruct (closestNPC_nearest w (ref, p) dist E) as (pre & post & Hc & Hd & _).
  exists p. split; [rewrite Hc; apply in_elt|].
  cbn in Hd. rewrite <- Hd. now apply ltb_true.
Qed.

End VillageFacts.

(** X20.  A main character can only be talked to near its home.  In
    play, when pressing E talks to the main character of index [i], the
    player stands less than 7 from the place of that character's config
    (5 of wander and 2 of reach).  So of the three only Irma Gobb can be
    talked to in the city centre: a talk with Mrs. Wicket or with Rupert
    never finds the player within 10 of the clinic, and the last step of
    challenge 2 is never done in a talk with either of them. *)
Theorem main_characters_are_met_near_home :
  forall (w w' : Targeting.World) (npcs : list Wander.MainNPC)
         (i : nat) (angle : R),
    Village.inPlay npcs -> Village.seenBy w npcs ->
    Targeting.pressE w = (w', Targeting.TalkTo (Freeze.Main i) angle) ->
    exists config,
      nth_error Village.mainNPCConfigs i = Some config /\
      distanceTo (Targeting.player w) (snd config) < 7 /\
      (fst config <> Cast.irmaGobb ->
       Challenges.inCityCenter (Targeting.player w) = false).
Proof.
  intros w w' npcs i angle Hplay Hseen H.
  destruct (pressE_talk w w' (Freeze.Main i) angle H) as (p & Hin & Hnear).
  apply candidates_main in Hin. rewrite Hseen, nth_error_map in Hin.
  destruct (nth_error npcs i) as [npc|] eqn:Hn; [|discriminate].
  injection Hin as <-.
  assert (Hi : (i < 3)%nat).
  { rewrite <- (inPlay_length npcs Hplay). apply nth_error_Some. congruence. }
  destruct (nth_error Village.mainNPCConfigs i) as [config|] eqn:Hc;
    [|apply nth_error_None in Hc; cbn in Hc; lia].
  exists config. split; [reflexivity|].
  pose proof (inPlay_near npcs i config npc Hplay Hc Hn) as Hhome.
  pose proof (distanceTo_triangle (Targeting.player w) (Wander.position npc)
                (snd config)) as Tri.
  unfold Targeting.interactionDistance in Hnear.
  split; [lra|]. intros Hirma. apply ltb_false.
  assert (Hfar : 17 <= distanceTo (snd config) (vec3 30 0 (-30))).
  { destruct i as [|[|[|i]]]; cbn in Hc; try lia; injection Hc as <-;
      cbn [fst snd] in *;
      [|exfalso; now apply Hirma|];
      unfold distanceTo, distanceToSquared; cbn;
      apply sqrt_ge_bound; lra. }
  pose proof (distanceTo_triangle (snd config) (Targeting.player w)
                (vec3 30 0 (-30))) as Tri2.
  rewrite (distanceTo_sym (snd config) (Targeting.player w)) in Tri2.
  lra.
Qed.

Lemma rupertAtHome_inPlay : Village.inPlay rupertAtHome.
Proof.
  unfold Village.inPlay, rupertAtHome, Village.mainNPCConfigs. cbn.
  repeat constructor; exists 0, []; reflexivity.
Qed.

Lemma main_characters_are_met_near_home_witness :
  distanceTo (Targeting.player besideRupert) (vec3 (-34) 0 (-32)) < 7
  /\ Challenges.inCityCenter (Targeting.player besideRupert) = false.
Proof.
  assert (Hp : Targeting.pressE besideRupert
               = (besideRupert,
                  Targeting.TalkTo (Freeze.Main 2)
                    (Wander.atan2 (-34 - -34) (-31 - -32)))).
  { unfold Targeting.pressE, Targeting.closestNPC, Targeting.scanNPCs,
      besideRupert, rupertAtHome, Village.mainNPCConfigs.
    cbn -[distanceTo Wander.atan2].
    assert (D0 : distanceTo (vec3 (-34) 0 (-31)) (vec3 (-42) 0 (-32))
                 = sqrt 65)
      by (unfold distanceTo, distanceToSquared; cbn; f_equal; lra).
    assert (D1 : distanceTo (vec3 (-34) 0 (-31)) (vec3 25 0 (-25))
                 = sqrt 3517)
      by (unfold distanceTo, distanceToSquared; cbn; f_equal; lra).
    assert (D2 : distanceTo (vec3 (-34) 0 (-31)) (vec3 (-34) 0 (-32))
                 = 1).
    { unfold distanceTo, distanceToSquared. cbn.
      replace ((-34 - -34) * (-34 - -34) + (0 - 0) * (0 - 0)
               + (-31 - -32) * (-31 - -32)) with 1 by lra.
      apply sqrt_1. }
    rewrite D0, D1, D2.
    assert (S65 : 8 <= sqrt 65) by (apply sqrt_ge_bound; lra).
    assert (L1 : ltb (sqrt 3517) (sqrt 65) = false)
      by (apply ltb_false; apply sqrt_le_1_alt; lra).
    assert (L2 : ltb 1 (sqrt 65) = true) by (apply ltb_true; lra).
    assert (L3 : ltb 1 Targeting.interactionDistance = true)
      by (apply ltb_true; unfold Targeting.interactionDistance; lra).
    unfold Targeting.consider. rewrite L1, L2, L3. reflexivity. }
  destruct (main_characters_are_met_near_home besideRupert besideRupert
              rupertAtHome 2 (Wander.atan2 (-34 - -34) (-31 - -32))
              rupertAtHome_inPlay eq_refl Hp)
    as (config & Hc & Hnear & Hcentre).
  injection Hc as <-. split; [exact Hnear|].
  apply Hcentre. discriminate.
Defined.

(** ** The dialogue box and its timers *)

Section DialogBoxFacts.
Import DialogBox.
Local Open Scope N_scope.

Lemma timers_handle now e s :
  timers (handle now e s)
  = (timers s ++ match delayOf e with Some d => [now + d] | None => [] end)%list.
Proof. destruct e; cbn; rewrite ?app_nil_r; reflexivity. Qed.

Lemma display_handle now e s : display (handle now e s) = true.
Proof. now destruct e. Qed.

Lemma timers_elapse now s :
  timers (elapse now s) = filter (fun t => negb (t <=? now)) (timers s).
Proof. reflexivity. Qed.

Lemma play_snoc_event session t e s :
  play (session ++ [(t, e)]) s = handle t e (elapse t (play session s)).
Proof. unfold play. now rewrite fold_left_app. Qed.

Lemma deadlines_snoc session t e :
  deadlines (session ++ [(t, e)])
  = (deadlines session
     ++ match delayOf e with Some d => [t + d] | None => [] end)%list.
Proof.
  unfold deadlines. rewrite flat_map_app. cbn. now rewrite app_nil_r.
Qed.

Lemma filter_filter_le (M t : N) l :
  t <= M ->
  filter (fun f => negb (f <=? M)) (filter (fun f => negb (f <=? t)) l)
  = filter (fun f => negb (f <=? M)) l.
Proof.
  intros H. induction l as [|f l IH]; cbn; [reflexivity|].
  destruct (f <=? t) eqn:E; cbn.
  - apply N.leb_le in E.
    replace (f <=? M) with true by (symmetry; apply N.leb_le; lia).
    exact IH.
  - destruct (f <=? M); cbn; now rewrite IH.
Qed.

(** Of the timers that run out after [M], none is lost and none is added
    in a session whose events all come by [M]. *)
Lemma pending_after M session :
  (forall e, In e session -> fst e <= M) ->
  filter (fun f => negb (f <=? M)) (timers (play session createDialogElement))
  = filter (fun f => negb (f <=? M)) (deadlines session).
Proof.
  induction session as [|[t e] l IH] using rev_ind; intros Hb;
    [reflexivity|].
  assert (Ht : t <= M) by (apply (Hb (t, e)), in_elt).
  rewrite play_snoc_event, timers_handle, timers_elapse, deadlines_snoc.
  rewrite !filter_app, filter_filter_le by exact Ht.
  rewrite IH; [reflexivity|].
  intros e' He'. apply Hb, in_or_app. now left.
Qed.

Lemma hide_batch (due : list N) s :
  fold_left (fun st _ => hideDialog st) due s
  = match due with [] => s | _ :: _ => hideDialog s end.
Proof.
  destruct due as [|d due]; [reflexivity|]. cbn.
  induction due as [|d' due IH]; [reflexivity|exact IH].
Qed.

Lemma existsb_filter_nonempty {A} (p : A -> bool) l :
  existsb p l = match filter p l with [] => false | _ :: _ => true end.
Proof.
  induction l as [|a l IH]; cbn; [reflexivity|].
  destruct (p a); cbn; [reflexivity|exact IH].
Qed.

End DialogBoxFacts.

(** X21.  The box stays up until the first timer runs out, whoever set
    it.  After a session whose last event came at [ts], at any later time
    [T] the box is displayed exactly when no timer of the whole session
    has run out after [ts] and by [T]; the timers of earlier messages
    count like the one of the last.  When it is hidden, the chat input is
    hidden too and the chat has no partner. *)
Theorem box_hidden_by_first_timer :
  forall (session : list (N * DialogBox.Event)) (ts : N)
         (e : DialogBox.Event) (T : N),
    (forall ev, In ev session -> (fst ev <= ts)%N) ->
    (ts <= T)%N ->
    let s := DialogBox.stateAt (session ++ [(ts, e)]) T in
    DialogBox.display s
    = negb (existsb (fun f => (ts <? f)%N && (f <=? T)%N)
              (DialogBox.deadlines (session ++ [(ts, e)])))
    /\ (DialogBox.display s = false ->
        DialogBox.chatDisplay s = false /\ DialogBox.currentNPC s = None).
Proof.
  intros session ts e T Hb HT s.
  assert (Hb' : forall ev, In ev (session ++ [(ts, e)]) -> (fst ev <= ts)%N).
  { intros ev Hev. apply in_app_iff in Hev as [Hev|[<-|[]]]; [auto|].
    cbn. lia. }
  pose proof (pending_after ts _ Hb') as Hp.
  set (p := DialogBox.play (session ++ [(ts, e)])
              DialogBox.createDialogElement) in *.
  assert (Hd : DialogBox.display p = true)
    by (unfold p; rewrite play_snoc_event; apply display_handle).
  assert (Hall : filter (fun f => negb (f <=? ts)%N) (DialogBox.timers p)
                 = DialogBox.timers p).
  { unfold p. rewrite play_snoc_event, timers_handle, timers_elapse.
    rewrite filter_app, filter_filter_le by lia. f_equal.
    destruct (DialogBox.delayOf e) as [d|] eqn:E; [|reflexivity]. cbn.
    assert (0 < d)%N by (destruct e; cbn in E; try discriminate; injection E as <-; lia).
    now replace (ts + d <=? ts)%N with false
      by (symmetry; apply N.leb_gt; lia). }
  assert (Hdue : filter (fun t => (t <=? T)%N) (DialogBox.timers p)
                 = filter (fun f => (ts <? f)%N && (f <=? T)%N)
                     (DialogBox.deadlines (session ++ [(ts, e)]))).
  { rewrite <- Hall, Hp.
    generalize (DialogBox.deadlines (session ++ [(ts, e)])) as l.
    induction l as [|f l IH]; cbn; [reflexivity|].
    destruct (N.leb_spec f ts) as [Hle|Hgt]; cbn.
    - replace (ts <? f)%N with false by (symmetry; apply N.ltb_ge; lia).
      exact IH.
    - replace (ts <? f)%N with true by (symmetry; apply N.ltb_lt; lia).
      cbn. destruct (f <=? T)%N; now rewrite IH. }
  unfold s, DialogBox.stateAt, DialogBox.elapse. fold p.
  cbn [DialogBox.display DialogBox.chatDisplay DialogBox.currentNPC].
  rewrite hide_batch, Hdue, existsb_filter_nonempty.
  clear Hp Hall Hdue.
  destruct (filter (fun f => (ts <? f)%N && (f <=? T)%N) _) as [|f l]; cbn.
  - split; [exact Hd|]. congruence.
  - auto.
Qed.

Lemma box_hidden_by_first_timer_witness :
  let s :=
    DialogBox.stateAt (doorThenTalk ++ [(1000%N, DialogBox.Talk Cast.rupert)])
      2500%N in
  DialogBox.display s = false
  /\ DialogBox.chatDisplay s = false /\ DialogBox.currentNPC s = None.
Proof.
  intros s.
  destruct (box_hidden_by_first_timer doorThenTalk 1000%N
              (DialogBox.Talk Cast.rupert) 2500%N) as [Hd Hc].
  - unfold doorThenTalk. intros ev [<-|[]]. cbn. lia.
  - lia.
  - fold s in Hd, Hc. split; [exact Hd|]. apply Hc. exact Hd.
Defined.

(** ** Visibility culling *)

Section VisibilityFacts.

Lemma distanceTo_x u v : Rabs (x u - x v) <= distanceTo u v.
Proof.
  unfold distanceTo, distanceToSquared. cbn.
  rewrite <- sqrt_Rsqr_abs. apply sqrt_le_1_alt. unfold Rsqr.
  pose proof (Rle_0_sqr (y u - y v)). pose proof (Rle_0_sqr (z u - z v)).
  unfold Rsqr in *. lra.
Qed.

End VisibilityFacts.

(** X22.  The culling measures from a node's place inside its parent, not
    from where the node stands in the city.  The group of Mr. Bean's
    house, which stands at (-40, 0, -30), is placed at the origin of its
    street; so whenever the player is west of x = -60 (the west end of
    Arbour Road is at x = -59) and the camera is 3 or more from the origin
    of the world, the culling sets [visible] of the house to false,
    whether or not the house is in view, and the house is not drawn:
    also for a player who stands 21 from it, where a building is meant
    to be shown up to a distance of 60. *)
Theorem bean_house_culled_by_street_offset :
  forall (playerPos cameraPos : Vector3) (inFrustum visible : bool),
    let beanHouse :=
      Visibility.house (position (City.createBritishHouse true))
        inFrustum visible in
    x playerPos < -60 ->
    3 <= distanceTo (Visibility.position beanHouse) cameraPos ->
    Visibility.updateVisibility playerPos cameraPos beanHouse = false.
Proof.
  intros p c fr vis beanHouse Hx Hc. unfold Visibility.updateVisibility.
  cbn [Visibility.isMesh Visibility.isGroup Visibility.isPlayerOrCamera
       Visibility.isBuilding beanHouse Visibility.house orb
       Visibility.position].
  replace (ltb (distanceTo _ c) 3) with false
    by (symmetry; apply ltb_false; exact Hc).
  replace (ltb 60 (distanceTo _ p)) with true; [reflexivity|].
  symmetry. apply ltb_true.
  pose proof (distanceTo_x (position (City.createBritishHouse true)) p) as D.
  change (x (position (City.createBritishHouse true))) with 0 in D.
  unfold Rabs in D. destruct (Rcase_abs _) in D; lra.
Qed.

(** The player 21 west of the house, in front of the street, the camera
    behind the player. *)
Lemma bean_house_culled_by_street_offset_witness :
  Visibility.updateVisibility (vec3 (-61) 0 (-27)) (vec3 (-61) 3 (-33))
    (Visibility.house (position (City.createBritishHouse true)) true true)
  = false.
Proof.
  apply (bean_house_culled_by_street_offset (vec3 (-61) 0 (-27))
           (vec3 (-61) 3 (-33)) true true).
  - cbn. lra.
  - unfold distanceTo, distanceToSquared. cbn. apply sqrt_ge_bound; lra.
Defined.

(** ** The game loop *)

Section LoopFacts.
Import Loop.

Variable wd : Movement.World.
Variable random : nat -> R.

Lemma run_snoc_frame s frames keys :
  run wd random s (frames ++ [keys])
  = animate wd random (run wd random s frames) keys.
Proof. unfold run. now rewrite fold_left_app. Qed.

Lemma updateMainNPCs_each p l :
  forall k,
    Forall2
      (fun npc npc' =>
         exists u1 u2, npc' = Wander.step npc (Wander.Frame p u1 u2))
      l (fst (updateMainNPCs random p k l)).
Proof.
  induction l as [|npc l IH]; intros k; cbn; [constructor|].
  specialize (IH (k + draws random (Wander.advanced p npc) k)%nat).
  destruct (updateMainNPCs random p _ l) as [rest' k']. cbn in *.
  constructor; [|exact IH]. now exists (random k), (random (S k)).
Qed.


Lemma player_animate s keys :
  player (animate wd random s keys)
  = Movement.updatePlayer wd keys (player s).
Proof.
  unfold animate, updateNPCsWithCulling. cbn.
  destruct (Nat.even (frameCount s)); [|reflexivity]. cbn.
  destruct (updateMainNPCs random _ _ _) as [mains k1].
  destruct (updateNPCs random _ _ _) as [crowd k2]. reflexivity.
Qed.

Lemma frameCount_animate s keys :
  frameCount (animate wd random s keys) = S (frameCount s).
Proof.
  unfold animate, updateNPCsWithCulling. cbn.
  destruct (Nat.even (frameCount s)); cbn; [|lia].
  destruct (updateMainNPCs random _ _ _) as [mains k1].
  destruct (updateNPCs random _ _ _) as [crowd k2]. cbn. lia.
Qed.

Lemma mainNPCs_animate s keys :
  mainNPCs (animate wd random s keys)
  = if Nat.even (frameCount s)
    then fst (updateMainNPCs random
                (Movement.position
                   (Movement.updatePlayer wd keys (player s)))
                (randomDraws s) (mainNPCs s))
    else mainNPCs s.
Proof.
  unfold animate, updateNPCsWithCulling. cbn.
  destruct (Nat.even (frameCount s)); [|reflexivity]. cbn.
  destruct (updateMainNPCs random _ _ _) as [mains k1].
  destruct (updateNPCs random _ _ _) as [crowd k2]. reflexivity.
Qed.


Lemma wander_run_snoc npc events e :
  Wander.run npc (events ++ [e]) = Wander.step (Wander.run npc events) e.
Proof. unfold Wander.run. now rewrite fold_left_app. Qed.

Lemma inPlay_frame p mains mains' :
  Forall2
    (fun npc npc' =>
       exists u1 u2, npc' = Wander.step npc (Wander.Frame p u1 u2))
    mains mains' ->
  Village.inPlay mains -> Village.inPlay mains'.
Proof.
  unfold Village.inPlay. generalize Village.mainNPCConfigs as cfgs.
  intros cfgs H. revert cfgs.
  induction H as [|npc npc' l l' (u1 & u2 & ->) Hrest IH]; intros cfgs Hp;
    inversion Hp; subst; constructor.
  - match goal with
    | Hc : exists u events, npc = _ |- _ => destruct Hc as (u & events & ->)
    end.
    exists u, (events ++ [Wander.Frame p u1 u2])%list.
    now rewrite wander_run_snoc.
  - now apply IH.
Qed.


Lemma strayed_more r r' crowd l :
  r <= r' -> Forall2 (strayed r) crowd l -> Forall2 (strayed r') crowd l.
Proof.
  intros Hr H. induction H as [|a b l1 l2 [Hs Hd] Hrest IH]; constructor;
    [|exact IH].
  split; [exact Hs|]. pose proof (Rabs_pos (Crowd.walkSpeed a)). nra.
Qed.




End LoopFacts.

Lemma inPlay_tethered npcs : Village.inPlay npcs -> Forall tethered npcs.
Proof.
  unfold Village.inPlay. generalize Village.mainNPCConfigs as cfgs.
  intros cfgs H.
  induction H as [|c npc cfgs' npcs' (u & events & ->) Hrest IH];
    constructor; [|exact IH].
  apply run_tethered, createMainNPC_tethered.
Qed.

(** X23.  The game loop keeps the game in order.  After any number of
    frames with any keys held and any random draws, the player is where
    the frames of [updatePlayer] alone take it, inside the world square;
    every main character is in play as its config created it, hence
    within its wander radius of the place of its config; and
    [frameCount] is the number of frames. *)
Theorem game_loop_keeps_order :
  forall (wd : Movement.World) (random : nat -> R)
         (frames : list Movement.Keys)
         (mains : list Wander.MainNPC) (crowd : list Crowd.NPC) (k : nat),
    Village.inPlay mains ->
    let s := Loop.run wd random (Loop.start mains crowd k) frames in
    Loop.player s = Movement.run wd frames
    /\ Movement.inBounds (Movement.position (Loop.player s))
    /\ Village.inPlay (Loop.mainNPCs s)
    /\ Forall tethered (Loop.mainNPCs s)
    /\ Loop.frameCount s = List.length frames.
Proof.
  intros wd random frames mains crowd k Hplay s.
  assert (H : Loop.player s = Movement.run wd frames
              /\ Village.inPlay (Loop.mainNPCs s)
              /\ Loop.frameCount s = List.length frames).
  { subst s. induction frames as [|keys frames IH] using rev_ind.
    - cbn. auto.
    - destruct IH as (Hp & Hm & Hf).
      rewrite run_snoc_frame, player_animate, mainNPCs_animate,
        frameCount_animate, Hp, Hf, length_app.
      split; [now rewrite run_snoc|]. split; [|cbn; lia].
      destruct (Nat.even _); [|exact Hm].
      eapply inPlay_frame; [apply updateMainNPCs_each|exact Hm]. }
  destruct H as (Hp & Hm & Hf).
  split; [exact Hp|]. split; [rewrite Hp; apply run_inBounds|].
  split; [exact Hm|]. split; [now apply inPlay_tethered|exact Hf].
Qed.

Lemma game_loop_keeps_order_witness :
  let s :=
    Loop.run (City.createCity []) (fun _ => 1)
      (Loop.start rupertAtHome [] 0) [keyW; keyW] in
  Loop.player s = Movement.run (City.createCity []) [keyW; keyW]
  /\ Movement.inBounds (Movement.position (Loop.player s))
  /\ Village.inPlay (Loop.mainNPCs s)
  /\ Forall tethered (Loop.mainNPCs s)
  /\ Loop.frameCount s = 2%nat.
Proof.
  exact (game_loop_keeps_order (City.createCity []) (fun _ => 1)
           [keyW; keyW] rupertAtHome [] 0 rupertAtHome_inPlay).
Defined.


(** ** The stores *)

Lemma park_trees_no_store base trees wp o :
  In (wp, o) (flat_map (traverseWorld base) (map City.parkTree trees)) ->
  isStore o = false.
Proof.
  induction trees as [|t trees IH]; cbn; [easy|].
  intros [[= _ <-]|H]; [reflexivity|exact (IH H)].
Qed.

(** X25.  The stores block where they stand.  The stores are children of
    the scene itself, so for them the position a query translates the
    collider by is the position in the world: every node of the city
    flagged as a store is one of [this.stores], and the box a query
    resolves for it is its collider moved to where it stands, wherever
    the trees of the park are. *)
Theorem store_colliders_follow_owner :
  forall (trees : list Vector3) (wp : Vector3) (o : Object3D) (c : Box3),
    In (wp, o)
      (traverseWorld origin (Movement.scene (City.createCity trees))) ->
    isStore o = true -> collider o = Some c ->
    In o (Movement.stores (City.createCity trees))
    /\ Movement.queryBox o = Some (translate c wp).
Proof.
  intros trees wp o c H Hs Hc.
  cbn in H.
  repeat (destruct H as [H|H];
          [injection H as <- <-; cbn in Hs; try discriminate|]).
  all: try (apply in_app_iff in H as [H|H]).
  all: try (apply park_trees_no_store in H; congruence).
  all: repeat (destruct H as [H|H];
               [injection H as <- <-; cbn in Hs; try discriminate|]).
  all: try (destruct H).
  all: cbn in Hc; injection Hc as <-.
  all: split; [cbn; auto|].
  all: unfold Movement.queryBox, translate, add; cbn.
  all: repeat f_equal; lra.
Qed.

Lemma store_colliders_follow_owner_witness :
  In (City.createStore (vec3 20 0 (-20)))
    (Movement.stores (City.createCity []))
  /\ Movement.queryBox (City.createStore (vec3 20 0 (-20)))
     = Some (translate
               (box3 (vec3 (- (8 / 2)) 0 (- (8 / 2))) (vec3 (8 / 2) 4 (8 / 2)))
               (add (add origin origin) (vec3 20 0 (-20)))).
Proof.
  apply (store_colliders_follow_owner []
           (add (add origin origin) (vec3 20 0 (-20)))
           (City.createStore (vec3 20 0 (-20)))).
  - cbn. do 18 right. left. reflexivity.
  - reflexivity.
  - reflexivity.
Defined.

(** ** Collision soundness, on the box where the collider stands *)

Section WorldBox.

Lemma parkTree_nodes trees C :
  In C (flat_map traverse (map City.parkTree trees)) ->
  exists t, In t trees /\ C = City.parkTree t.
Proof.
  induction trees as [|t trees IH]; cbn; [easy|].
  intros [<-|H]; [exists t; auto|].
  destruct (IH H) as (t' & Ht' & ->). exists t'. auto.
Qed.

(** The colliders of the city are those of the city without trees, and
    the trees. *)
Lemma registered_city trees C b :
  Movement.registered (City.createCity trees) C ->
  Movement.queryBox C = Some b ->
  Movement.registered (City.createCity []) C
  \/ exists t, In t trees /\ C = City.parkTree t.
Proof.
  intros [H|[H Hs]] Hq; [left; left; exact H|].
  cbn in H.
  repeat (destruct H as [<-|H];
          [first [ discriminate Hq
                 | left; right; split; [cbn; tauto|reflexivity] ]|]).
  apply in_app_iff in H as [H|H].
  - right. now apply parkTree_nodes.
  - repeat (destruct H as [<-|H]; [discriminate Hs|]). destruct H.
Qed.

(** A tree of the park, wherever it was drawn, resolves to a box that
    does not reach the player's first step. *)
Lemma parkTree_misses_first_step t b :
  - (35 / 2) <= x t <= 35 / 2 ->
  Movement.queryBox (City.parkTree t) = Some b ->
  intersectsBox b (Movement.playerBox keyW Movement.setupPlayer) = false.
Proof.
  intros Hx [= <-].
  unfold intersectsBox, Movement.playerBox, Movement.nextPosition,
    Movement.velocity, Movement.rotate, Movement.setupPlayer,
    Movement.moveSpeed, Movement.playerSize, City.treeCollider.
  cbn. rewrite cos_0, sin_0.
  replace (ltb _ (- (4 / 10) + x t + x t)) with true; [reflexivity|].
  symmetry. apply ltb_true. lra.
Qed.

Lemma first_step_taken trees :
  parkTrees trees ->
  Movement.canMove (City.createCity trees) keyW Movement.setupPlayer = true.
Proof.
  intros Ht.
  destruct (Movement.canMove (City.createCity trees) keyW Movement.setupPlayer)
    eqn:E; [reflexivity|exfalso].
  apply canMove_miss in E as (C & b & HC & Hq & Hb).
  destruct (registered_city trees C b HC Hq) as [H0|(t & Hin & ->)].
  - pose proof (canMove_hit (City.createCity []) keyW Movement.setupPlayer
                  C b H0 Hq Hb) as Hno.
    rewrite (proj2 player_walks_through_bean_house) in Hno. discriminate.
  - unfold parkTrees in Ht. rewrite Forall_forall in Ht.
    rewrite (parkTree_misses_first_step t b (proj1 (Ht t Hin)) Hq) in Hb.
    discriminate.
Qed.

End WorldBox.

(** C1, evaluated on the player's first step.  Mr. Bean's house is a
    registered collider of the city and stands at (-40, 0, -30); the
    player starts at (-38, 0, -28), inside the box of the house where it
    stands, and with the forward key held the footprint of the candidate
    position still meets that box.  Yet the move is taken, wherever the
    trees of the park are: the position after the frame is the candidate,
    not the position before it.  The query moves the stored box by the
    house's place inside its street, not by where the house stands. *)
Theorem world_box_hit_does_not_stop_player :
  forall trees : list Vector3,
    parkTrees trees ->
    let wd := City.createCity trees in
    let houseBox := box3 (vec3 (-3) 0 (-3)) (vec3 3 8 3) in
    Movement.registered wd beanHouse
    /\ collider beanHouse = Some houseBox
    /\ In (beanHouseWorldPosition, beanHouse)
         (traverseWorld origin (Movement.scene wd))
    /\ intersectsBox (translate houseBox beanHouseWorldPosition)
         (Movement.playerBox keyW (Movement.run wd [])) = true
    /\ Movement.position (Movement.updatePlayer wd keyW (Movement.run wd []))
       = vec3 (-38) 0 (-28 + 25 / 100)
    /\ Movement.position (Movement.updatePlayer wd keyW (Movement.run wd []))
       <> Movement.position (Movement.run wd []).
Proof.
  intros trees Ht wd houseBox.
  assert (Hpos : Movement.position
                   (Movement.updatePlayer wd keyW (Movement.run wd []))
                 = vec3 (-38) 0 (-28 + 25 / 100)).
  { unfold Movement.updatePlayer, Movement.run. cbn [fold_left].
    unfold wd. rewrite (first_step_taken trees Ht).
    unfold Movement.nextPosition, Movement.velocity, Movement.rotate,
      Movement.setupPlayer, Movement.moveSpeed.
    cbn. rewrite cos_0, sin_0.
    rewrite !clamp_id by (unfold Movement.maxDistance; lra).
    f_equal; lra. }
  split; [right; split; [cbn; tauto|reflexivity]|].
  split; [reflexivity|].
  split; [apply beanHouse_in_city|].
  split; [exact (proj1 player_walks_through_bean_house)|].
  split; [exact Hpos|].
  rewrite Hpos. cbn. intros [= H]. lra.
Qed.

Lemma world_box_hit_does_not_stop_player_witness :
  Movement.position
    (Movement.updatePlayer (City.createCity loneTree) keyW
       (Movement.run (City.createCity loneTree) []))
  <> Movement.position (Movement.run (City.createCity loneTree) []).
Proof.
  apply (world_box_hit_does_not_stop_player loneTree).
  unfold parkTrees, loneTree. constructor; [cbn; lra|constructor].
Defined.
